(** * osc-bsu-backup: a shallow embedding of [osc_bsu_backup/bsu_backup.py]

    The module talks to an EC2-compatible API through a boto3 client and
    keeps no state of its own.  The embedding threads an explicit [World]
    (the remote account, the local clock, the record of API calls issued
    and the log) through a state-and-exception monad, so that every Python
    function becomes an executable Rocq function of the same name. *)

From Stdlib Require Import ZArith List String Ascii Bool Lia.
From Stdlib Require Import Permutation Sorted.
Import ListNotations.

Local Open Scope string_scope.
Local Open Scope list_scope.
Local Open Scope Z_scope.

(** ** Dates ([datetime.datetime], [datetime.timedelta]) *)

(** An aware UTC [datetime]: the fields CPython stores. *)
Record datetime := mkdatetime {
  year : Z; month : Z; day : Z;
  hour : Z; minute : Z; second : Z; microsecond : Z
}.

(** A normalised [timedelta]: [0 <= seconds < 86400] and
    [0 <= microseconds < 10^6]; [days] carries the sign. *)
Record timedelta := mktimedelta { days : Z; seconds : Z; microseconds : Z }.

Definition _is_leap (y : Z) : bool :=
  (y mod 4 =? 0) && (negb (y mod 100 =? 0) || (y mod 400 =? 0)).

Definition _days_before_year (y : Z) : Z :=
  let y := y - 1 in y * 365 + y / 4 - y / 100 + y / 400.

Definition _DAYS_BEFORE_MONTH : list Z :=
  [0; 0; 31; 59; 90; 120; 151; 181; 212; 243; 273; 304; 334].

Definition _days_before_month (y m : Z) : Z :=
  nth (Z.to_nat m) _DAYS_BEFORE_MONTH 0
  + (if (2 <? m) && _is_leap y then 1 else 0).

Definition _ymd2ord (y m d : Z) : Z :=
  _days_before_year y + _days_before_month y m + d.

Definition toordinal (t : datetime) : Z := _ymd2ord (year t) (month t) (day t).

(** [timedelta(days, seconds, microseconds)]: the constructor carries
    microseconds into seconds and seconds into days with floor division. *)
Definition timedelta_new (d s us : Z) : timedelta :=
  let s := s + us / 1000000 in
  let us := us mod 1000000 in
  let d := d + s / 86400 in
  let s := s mod 86400 in
  mktimedelta d s us.

(** [a - b] for two aware datetimes of the same (UTC) offset. *)
Definition datetime_sub (a b : datetime) : timedelta :=
  let secs1 := second a + minute a * 60 + hour a * 3600 in
  let secs2 := second b + minute b * 60 + hour b * 3600 in
  timedelta_new (toordinal a - toordinal b) (secs1 - secs2)
                (microsecond a - microsecond b).

(** Microseconds since the proleptic day 0: the instant a datetime names. *)
Definition instant (t : datetime) : Z :=
  ((toordinal t * 86400) + (second t + minute t * 60 + hour t * 3600)) * 1000000
  + microsecond t.

Definition DAY_US : Z := 86400 * 1000000.

(** Zero-padded decimal fields of [strftime]. *)
Definition digit (z : Z) : ascii := ascii_of_nat (48 + Z.to_nat (z mod 10)).

Definition pad2 (z : Z) : string :=
  String (digit (z / 10)) (String (digit z) EmptyString).

Definition pad4 (z : Z) : string :=
  String (digit (z / 1000)) (String (digit (z / 100)) (pad2 z)).

(** [t.strftime('%Y-%m-%d %H:%M:%S %Z')] for a UTC datetime
    (years of four digits, as [datetime.now] yields). *)
Definition strftime (t : datetime) : string :=
  (pad4 (year t) ++ "-" ++ pad2 (month t) ++ "-" ++ pad2 (day t) ++ " "
   ++ pad2 (hour t) ++ ":" ++ pad2 (minute t) ++ ":" ++ pad2 (second t)
   ++ " UTC")%string.

(** ** Data returned by the remote API *)

Record Tag := mkTag { Key : string; Value : string }.

Record Filter := mkFilter { Name : string; Values : list string }.

Module Snapshot.
Record t := mk {
  SnapshotId : string;
  VolumeId : string;
  StartTime : datetime;
  Description : string
}.
End Snapshot.

Module Ebs.
Record t := mk { VolumeId : string }.
End Ebs.

Module BlockDeviceMapping.
Record t := mk { DeviceName : string; Ebs : Ebs.t }.
End BlockDeviceMapping.

Module Instance.
Record t := mk {
  InstanceId : string;
  State : string;
  Tags : list Tag;
  BlockDeviceMappings : list BlockDeviceMapping.t
}.
End Instance.

Module Reservation.
Record t := mk { Instances : list Instance.t }.
End Reservation.

Module Volume.
Record t := mk { VolumeId : string; Tags : list Tag }.
End Volume.

Record KeyPair := mkKeyPair { KeyName : string; KeyFingerprint : string }.

(** Response dictionaries.  [Reservations] and [Volumes] are read with
    [.get(key, [])], so the key may be absent. *)
Record DescribeInstancesResult :=
  mkDescribeInstancesResult { Reservations : option (list Reservation.t) }.
Record DescribeVolumesResult :=
  mkDescribeVolumesResult { Volumes : option (list Volume.t) }.
Record DescribeSnapshotsResult :=
  mkDescribeSnapshotsResult { Snapshots : list Snapshot.t }.
Record DescribeKeyPairsResult :=
  mkDescribeKeyPairsResult { KeyPairs : list KeyPair }.

(** ** Exceptions, API calls, log records *)

Inductive Exception :=
| InputError (msg : string)
| ClientError (code : string)
| IndexError
| BotoCoreError (name : string).

Inductive ApiCall :=
| DescribeKeyPairs
| DescribeInstances (instance_ids : list string) (filters : list Filter)
| DescribeVolumes (filters : list Filter)
| DescribeSnapshots (filters : list Filter)
| DeleteSnapshot (snapshot_id : string).

(** A log record keeps the level and the format string; the arguments of
    [logger.info] are not rendered.  [logger.info(d)] of a key-pair
    dictionary keeps [d], and [logger.error(e)] keeps [e]. *)
Inductive LogRecord :=
| INFO (fmt : string)
| ERROR (e : Exception)
| INFO_object (d : KeyPair).

(** The client [session.client("ec2", ...)] is asked for: the arguments
    it is built with. *)
Record EC2Client := mkEC2Client {
  profile_name : option string;
  region_name : option string;
  endpoint_url : option string;
  client_cert_path : option string
}.

(** ** The world

    The remote account (instances, volumes, snapshots, key pairs, and the
    error code the service answers to a [DeleteSnapshot] of a given
    snapshot, if any), the local clock as the sequence of its successive
    readings, and the two observable traces: API calls and log.  The
    last field is the machine's boto3 configuration, as far as the
    module meets it: the error boto3 raises ([NoRegionError],
    [ProfileNotFound], ...) when it is asked to build a client, if
    any. *)
Record World := mkWorld {
  w_reservations : list Reservation.t;
  w_volumes : list Volume.t;
  w_snapshots : list Snapshot.t;
  w_key_pairs : list KeyPair;
  w_delete_fault : string -> option string;
  w_clock : nat -> datetime;
  w_ticks : nat;
  w_calls : list ApiCall;
  w_log : list LogRecord;
  w_client_fault : EC2Client -> option string
}.

Definition record_call (c : ApiCall) (w : World) : World :=
  mkWorld (w_reservations w) (w_volumes w) (w_snapshots w) (w_key_pairs w)
          (w_delete_fault w) (w_clock w) (w_ticks w)
          (w_calls w ++ [c]) (w_log w) (w_client_fault w).

Definition record_log (r : LogRecord) (w : World) : World :=
  mkWorld (w_reservations w) (w_volumes w) (w_snapshots w) (w_key_pairs w)
          (w_delete_fault w) (w_clock w) (w_ticks w)
          (w_calls w) (w_log w ++ [r]) (w_client_fault w).

Definition set_snapshots (l : list Snapshot.t) (w : World) : World :=
  mkWorld (w_reservations w) (w_volumes w) l (w_key_pairs w)
          (w_delete_fault w) (w_clock w) (w_ticks w)
          (w_calls w) (w_log w) (w_client_fault w).

Definition tick (w : World) : World :=
  mkWorld (w_reservations w) (w_volumes w) (w_snapshots w) (w_key_pairs w)
          (w_delete_fault w) (w_clock w) (S (w_ticks w))
          (w_calls w) (w_log w) (w_client_fault w).

(** ** The state-and-exception monad *)

Inductive result (A : Type) :=
| Ok (a : A)
| Raise (e : Exception).
Arguments Ok {A} a.
Arguments Raise {A} e.

Definition M (A : Type) : Type := World -> result A * World.

Definition ret {A} (a : A) : M A := fun w => (Ok a, w).

Definition bind {A B} (m : M A) (k : A -> M B) : M B :=
  fun w => match m w with
           | (Ok a, w') => k a w'
           | (Raise e, w') => (Raise e, w')
           end.

Definition raise {A} (e : Exception) : M A := fun w => (Raise e, w).

(** [try: m except ... as e: handler e]; a handler re-raises what it does
    not catch. *)
Definition try_except {A} (m : M A) (handler : Exception -> M A) : M A :=
  fun w => match m w with
           | (Ok a, w') => (Ok a, w')
           | (Raise e, w') => handler e w'
           end.

Declare Scope monad_scope.
Delimit Scope monad_scope with monad.
Notation "x <- m ;; k" := (bind m (fun x => k))
  (at level 100, m at next level, right associativity) : monad_scope.
Notation "m ;;; k" := (bind m (fun _ => k))
  (at level 100, right associativity) : monad_scope.
Local Open Scope monad_scope.

(** [for x in l: body x] *)
Fixpoint for_each {A} (l : list A) (body : A -> M unit) : M unit :=
  match l with
  | [] => ret tt
  | x :: l' => body x ;;; for_each l' body
  end.

(** [for x in l: acc = body acc x], the loop threading a local list. *)
Fixpoint for_acc {A B} (l : list A) (acc : B) (body : B -> A -> M B) : M B :=
  match l with
  | [] => ret acc
  | x :: l' => acc' <- body acc x ;; for_acc l' acc' body
  end.

(** [enumerate(l)], counting from [i]. *)
Fixpoint enumerate_from {A} (i : Z) (l : list A) : list (Z * A) :=
  match l with
  | [] => []
  | x :: l' => (i, x) :: enumerate_from (i + 1) l'
  end.

Definition enumerate {A} (l : list A) : list (Z * A) := enumerate_from 0 l.

(** ** Local effects *)

Definition logger_info (fmt : string) : M unit :=
  fun w => (Ok tt, record_log (INFO fmt) w).

Definition logger_info_object (d : KeyPair) : M unit :=
  fun w => (Ok tt, record_log (INFO_object d) w).

Definition logger_error (e : Exception) : M unit :=
  fun w => (Ok tt, record_log (ERROR e) w).

(** [datetime.now(timezone.utc)]: the next reading of the clock. *)
Definition datetime_now : M datetime :=
  fun w => (Ok (w_clock w (w_ticks w)), tick w).

(** [l[i]] *)
Definition getitem {A} (l : list A) (i : nat) : M A :=
  match nth_error l i with
  | Some x => ret x
  | None => raise IndexError
  end.

(** [[f x for x in l]] *)
Fixpoint list_comp {A B} (f : A -> M B) (l : list A) : M (list B) :=
  match l with
  | [] => ret []
  | x :: l' => y <- f x ;; ys <- list_comp f l' ;; ret (y :: ys)
  end.

(** ** Strings *)

(** [s.split(sep)] for a one-character separator: never empty. *)
Fixpoint split (sep : ascii) (s : string) : list string :=
  match s with
  | EmptyString => [EmptyString]
  | String c s' =>
      if Ascii.eqb c sep then EmptyString :: split sep s'
      else match split sep s' with
           | x :: xs => String c x :: xs
           | [] => [String c EmptyString]
           end
  end.

Fixpoint strip_prefix (p s : string) : option string :=
  match p, s with
  | EmptyString, _ => Some s
  | String a p', String b s' =>
      if Ascii.eqb a b then strip_prefix p' s' else None
  | String _ _, EmptyString => None
  end.

Definition str_in (x : string) (l : list string) : bool :=
  existsb (String.eqb x) l.

(** ** The remote API

    What the service answers, as far as the module depends on it:
    listings return the stored resources that satisfy every filter
    (a filter holds when the attribute is one of its values), in storage
    order; [DeleteSnapshot] answers with the fault configured for the
    snapshot or removes it.  A listing is always answered: only
    deletions, and the construction of the client, have failures in the
    model. *)

Definition has_tag (k : string) (vs : list string) (tags : list Tag) : bool :=
  existsb (fun t => String.eqb (Key t) k && str_in (Value t) vs) tags.

Definition snapshot_matches (s : Snapshot.t) (f : Filter) : bool :=
  if String.eqb (Name f) "volume-id" then str_in (Snapshot.VolumeId s) (Values f)
  else if String.eqb (Name f) "description"
       then str_in (Snapshot.Description s) (Values f)
  else false.

Definition instance_matches (i : Instance.t) (f : Filter) : bool :=
  if String.eqb (Name f) "instance-state-name"
  then str_in (Instance.State i) (Values f)
  else match strip_prefix "tag:" (Name f) with
       | Some k => has_tag k (Values f) (Instance.Tags i)
       | None => false
       end.

Definition volume_matches (v : Volume.t) (f : Filter) : bool :=
  match strip_prefix "tag:" (Name f) with
  | Some k => has_tag k (Values f) (Volume.Tags v)
  | None => false
  end.

Definition describe_snapshots (conn : EC2Client) (Filters : list Filter)
  : M DescribeSnapshotsResult :=
  fun w =>
    (Ok (mkDescribeSnapshotsResult
           (filter (fun s => forallb (snapshot_matches s) Filters)
                   (w_snapshots w))),
     record_call (DescribeSnapshots Filters) w).

Definition delete_snapshot (conn : EC2Client) (SnapshotId : string) : M unit :=
  fun w =>
    let w := record_call (DeleteSnapshot SnapshotId) w in
    match w_delete_fault w SnapshotId with
    | Some code => (Raise (ClientError code), w)
    | None =>
        (Ok tt,
         set_snapshots
           (filter (fun s => negb (String.eqb (Snapshot.SnapshotId s) SnapshotId))
                   (w_snapshots w)) w)
    end.

Definition instance_selected (InstanceIds : list string)
    (Filters : list Filter) (i : Instance.t) : bool :=
  (match InstanceIds with
   | [] => true
   | _ => str_in (Instance.InstanceId i) InstanceIds
   end) && forallb (instance_matches i) Filters.

(** Reservations narrowed to their selected instances; a reservation
    left without instance is not listed. *)
Definition select_reservations (InstanceIds : list string)
    (Filters : list Filter) (rs : list Reservation.t) : list Reservation.t :=
  filter (fun r => match Reservation.Instances r with
                   | [] => false
                   | _ => true
                   end)
         (map (fun r => Reservation.mk
                          (filter (instance_selected InstanceIds Filters)
                                  (Reservation.Instances r)))
              rs).

Definition select_volumes (Filters : list Filter) (vs : list Volume.t)
  : list Volume.t :=
  filter (fun v => forallb (volume_matches v) Filters) vs.

Definition describe_instances (conn : EC2Client)
    (InstanceIds : list string) (Filters : list Filter)
  : M DescribeInstancesResult :=
  fun w =>
    (Ok (mkDescribeInstancesResult
           (Some (select_reservations InstanceIds Filters (w_reservations w)))),
     record_call (DescribeInstances InstanceIds Filters) w).

Definition describe_volumes (conn : EC2Client) (Filters : list Filter)
  : M DescribeVolumesResult :=
  fun w =>
    (Ok (mkDescribeVolumesResult (Some (select_volumes Filters (w_volumes w)))),
     record_call (DescribeVolumes Filters) w).

Definition describe_key_pairs (conn : EC2Client) : M DescribeKeyPairsResult :=
  fun w => (Ok (mkDescribeKeyPairsResult (w_key_pairs w)),
            record_call DescribeKeyPairs w).

(** [d.get(key, [])] *)
Definition get_or_empty {A} (o : option (list A)) : list A :=
  match o with Some l => l | None => [] end.

(** ** [list.sort(key=..., reverse=True)]

    CPython's sort is stable, and with [reverse=True] elements of equal
    key still keep their original relative order.  Insertion from the
    right end gives exactly that order: an element is placed before the
    first later element whose key is not greater than its own. *)
Section Sort.
Context {A : Type} (key : A -> Z).

Fixpoint insert_desc (x : A) (l : list A) : list A :=
  match l with
  | [] => [x]
  | y :: l' => if key y <=? key x then x :: y :: l'
               else y :: insert_desc x l'
  end.

Fixpoint sort_reverse (l : list A) : list A :=
  match l with
  | [] => []
  | x :: l' => insert_desc x (sort_reverse l')
  end.

(** Newest first: every element's key bounds the keys after it. *)
Definition Descending (l : list A) : Prop :=
  StronglySorted (fun a b => key b <= key a) l.

(** Elements of one key, in the order the list has them. *)
Definition of_key (k : Z) (l : list A) : list A :=
  filter (fun a => key a =? k) l.

(** [l'] keeps ties in the order of [l]. *)
Definition Stable (l l' : list A) : Prop :=
  forall k, of_key k l' = of_key k l.
End Sort.

(** [key=lambda x: x["StartTime"]]: two UTC datetimes compare as the
    instants they name. *)
Definition StartTime_key (x : Snapshot.t) : Z := instant (Snapshot.StartTime x).

(** ** The module *)

Definition generate_description : M string :=
  now <- datetime_now ;;
  ret ("osc-bsu-backup: Automated volume snapshot - " ++ strftime now)%string.

Definition OLD_DESCRIPTION : list string :=
  ["osc-bsu-backup 0.1"; "osc-bsu-backup 0.0.2"; "osc-bsu-backup 0.0.1"].

Definition default_region : list string :=
  ["us-east-2"; "eu-west-2"; "ap-northeast-1"; "us-west-1";
   "cloudgouv-eu-west-1"].

(** Truth value of an [Optional[str]]: [None] and the empty string are
    false. *)
Definition truthy (o : option string) : bool :=
  match o with
  | Some s => negb (String.eqb s "")
  | None => false
  end.

(** [region in default_region] for an [Optional[str]]. *)
Definition region_in (region : option string) (l : list string) : bool :=
  match region with
  | Some r => str_in r l
  | None => false
  end.

(** [f"{region}"] *)
Definition str_opt (o : option string) : string :=
  match o with Some s => s | None => "None" end.

Definition InputError_message : string :=
  "You must specify an endpoint when the region is not in: ['us-east-2', 'eu-west-2', 'ap-northeast-1', 'us-west-1', 'cloudgouv-eu-west-1']".

(** The client asked for, from the arguments of [auth]. *)
Definition client_request (profile region endpoint client_cert : option string)
  : EC2Client :=
  mkEC2Client profile region endpoint
              (if truthy client_cert then client_cert else None).

(** [boto3.Session(profile_name=profile).client("ec2", ...)]: building
    the client issues no API call, and boto3 may refuse to build it (an
    unknown profile, no region given nor configured). *)
Definition session_client (profile region endpoint client_cert : option string)
  : M EC2Client :=
  fun w =>
    let conn := client_request profile region endpoint client_cert in
    match w_client_fault w conn with
    | Some name => (Raise (BotoCoreError name), w)
    | None => (Ok conn, w)
    end.

Definition auth (profile region client_cert endpoint : option string)
  : M EC2Client :=
  endpoint <-
    (if negb (truthy endpoint) && region_in region default_region
     then ret (Some ("https://fcu." ++ str_opt region ++ ".outscale.com")%string)
     else if negb (truthy endpoint) && negb (region_in region default_region)
     then raise (InputError InputError_message)
     else ret endpoint) ;;
  logger_info "region: %s" ;;;
  logger_info "endpoint: %s" ;;;
  logger_info "profile: %s" ;;;
  conn <- session_client profile region endpoint client_cert ;;
  key_pairs <- describe_key_pairs conn ;;
  first <- getitem (KeyPairs key_pairs) 0 ;;
  logger_info_object first ;;;
  ret conn.

(** The dictionary built for one tag of a tag query. *)
Definition tag_filter (tag : string) : M Filter :=
  k <- getitem (split ":" tag) 0 ;;
  v <- getitem (split ":" tag) 1 ;;
  ret (mkFilter ("tag:" ++ k)%string [v]).

Definition find_instance_by_id (conn : EC2Client) (instance_id : string)
  : M (list string) :=
  logger_info "find the instance by id: %s" ;;;
  let volumes := [] in
  reservations <- describe_instances conn [instance_id] [] ;;
  for_acc (get_or_empty (Reservations reservations)) volumes
    (fun volumes reservation =>
       for_acc (Reservation.Instances reservation) volumes
         (fun volumes instance =>
            logger_info "instance found: %s %s" ;;;
            for_acc (Instance.BlockDeviceMappings instance) volumes
              (fun volumes vol =>
                 logger_info "volume found: %s %s" ;;;
                 ret (volumes ++ [Ebs.VolumeId (BlockDeviceMapping.Ebs vol)])))).

Definition find_volumes_by_tags (conn : EC2Client) (tags : list string)
  : M (list string) :=
  logger_info "find the volume by tags: %s" ;;;
  let volumes := [] in
  filters <- list_comp tag_filter tags ;;
  vol <- describe_volumes conn filters ;;
  for_acc (get_or_empty (Volumes vol)) volumes
    (fun volumes v =>
       logger_info "volume found: %s %s" ;;;
       ret (volumes ++ [Volume.VolumeId v])).

(** The [try ... except ClientError] around one deletion, as both
    rotation loops write it. *)
Definition delete_tolerating_in_use (conn : EC2Client) (snap : Snapshot.t)
  : M unit :=
  try_except (delete_snapshot conn (Snapshot.SnapshotId snap))
    (fun e => match e with
              | ClientError code =>
                  if String.eqb code "InvalidSnapshot.InUse"
                  then logger_error e
                  else raise e
              | _ => raise e
              end).

Definition volume_filters (vol : string) (rotate_only : bool) : list Filter :=
  let filters := [mkFilter "volume-id" [vol]] in
  if rotate_only then filters ++ [mkFilter "description" OLD_DESCRIPTION]
  else filters.

(** Body of [for vol in volumes] in [rotate_snapshots]. *)
Definition rotate_snapshots_volume (conn : EC2Client) (rotate : Z)
    (rotate_only : bool) (vol : string) : M unit :=
  let filters := volume_filters vol rotate_only in
  snaps <- describe_snapshots conn filters ;;
  if Z.of_nat (List.length (Snapshots snaps)) >=? rotate then
    let snaps := sort_reverse StartTime_key (Snapshots snaps) in
    for_each (enumerate snaps)
      (fun '(i, snap) =>
         if i >=? rotate then
           logger_info "deleting snapshot: %s %s %s" ;;;
           delete_tolerating_in_use conn snap
         else ret tt)
  else ret tt.

Definition rotate_snapshots (conn : EC2Client) (volumes : list string)
    (rotate : Z) (rotate_only : bool) : M unit :=
  logger_info "rotate_snapshot: %d" ;;;
  for_each volumes (rotate_snapshots_volume conn rotate rotate_only).

(** Body of [for vol in volumes] in [rotate_days_snapshots]. *)
Definition rotate_days_snapshots_volume (conn : EC2Client) (rotate : Z)
    (rotate_only : bool) (vol : string) : M unit :=
  let filters := volume_filters vol rotate_only in
  snaps <- describe_snapshots conn filters ;;
  for_each (Snapshots snaps)
    (fun snap =>
       now <- datetime_now ;;
       if days (datetime_sub now (Snapshot.StartTime snap)) >=? rotate then
         logger_info "deleting snapshot: %s %s %s" ;;;
         delete_tolerating_in_use conn snap
       else ret tt).

Definition rotate_days_snapshots (conn : EC2Client) (volumes : list string)
    (rotate : Z) (rotate_only : bool) : M unit :=
  logger_info "rotate_snapshot: older than %d days" ;;;
  for_each volumes (rotate_days_snapshots_volume conn rotate rotate_only).

Definition find_instances_by_tags (conn : EC2Client) (tags : list string)
  : M (list string) :=
  logger_info "find the instance by tags: %s" ;;;
  let volumes := [] in
  let filters := [mkFilter "instance-state-name" ["running"; "stopped"]] in
  extension <- list_comp tag_filter tags ;;
  let filters := filters ++ extension in
  reservations <- describe_instances conn [] filters ;;
  for_acc (get_or_empty (Reservations reservations)) volumes
    (fun volumes reservation =>
       for_acc (Reservation.Instances reservation) volumes
         (fun volumes instance =>
            logger_info "instance found: %s %s" ;;;
            for_acc (Instance.BlockDeviceMappings instance) volumes
              (fun volumes vol =>
                 logger_info "volume found: %s %s" ;;;
                 ret (volumes ++ [Ebs.VolumeId (BlockDeviceMapping.Ebs vol)])))).

(** * Vocabulary of the properties *)

(** ** Deletions and their answers *)

Definition in_use (code : string) : bool :=
  String.eqb code "InvalidSnapshot.InUse".

Section Faults.
Variable fault : string -> option string.

(** How the service answers the deletion of a snapshot. *)
Definition deletable (s : Snapshot.t) : bool :=
  match fault (Snapshot.SnapshotId s) with None => true | Some _ => false end.

Definition busy (s : Snapshot.t) : bool :=
  match fault (Snapshot.SnapshotId s) with
  | Some c => in_use c
  | None => false
  end.

Definition fatal (s : Snapshot.t) : bool :=
  match fault (Snapshot.SnapshotId s) with
  | Some c => negb (in_use c)
  | None => false
  end.

(** [s] is left in the account by successful deletions among [l]. *)
Definition survives (l : list Snapshot.t) (s : Snapshot.t) : bool :=
  negb (existsb (fun d => String.eqb (Snapshot.SnapshotId s) (Snapshot.SnapshotId d)
                          && deletable d) l).
End Faults.

(** What the loops do with one marked snapshot. *)
Definition attempt (conn : EC2Client) (snap : Snapshot.t) : M unit :=
  logger_info "deleting snapshot: %s %s %s" ;;;
  delete_tolerating_in_use conn snap.

Definition attempts (conn : EC2Client) (l : list Snapshot.t) : M unit :=
  for_each l (attempt conn).

Definition delete_call (s : Snapshot.t) : ApiCall :=
  DeleteSnapshot (Snapshot.SnapshotId s).

Definition logged_errors (w : World) : list Exception :=
  flat_map (fun r => match r with ERROR e => [e] | _ => [] end) (w_log w).

(** The account apart from its snapshots, and the clock, are the same. *)
Definition same_env (w w' : World) : Prop :=
  w_reservations w' = w_reservations w /\
  w_volumes w' = w_volumes w /\
  w_key_pairs w' = w_key_pairs w /\
  w_delete_fault w' = w_delete_fault w /\
  w_clock w' = w_clock w.

(** ** Listings and marked snapshots *)

(** The snapshots [describe_snapshots] lists for a volume. *)
Definition fetched (vol : string) (rotate_only : bool) (w : World)
  : list Snapshot.t :=
  filter (fun s => forallb (snapshot_matches s) (volume_filters vol rotate_only))
         (w_snapshots w).

(** The snapshots at positions [rotate] and later of the sorted listing,
    when the listing has at least [rotate] entries. *)
Definition count_marked (rotate : Z) (l : list Snapshot.t) : list Snapshot.t :=
  if Z.of_nat (List.length l) >=? rotate
  then skipn (Z.to_nat rotate) (sort_reverse StartTime_key l)
  else [].

Definition listed (vol : string) (rotate_only : bool) (w : World) : World :=
  record_call (DescribeSnapshots (volume_filters vol rotate_only)) w.

(** [(now - snap["StartTime"]).days] *)
Definition age_days (now : datetime) (s : Snapshot.t) : Z :=
  days (datetime_sub now (Snapshot.StartTime s)).

(** The snapshots of a listing whose age, at the clock reading taken
    when the loop reaches them, is at least [rotate] days.  The loop
    reads the clock once per snapshot, starting from reading [t]. *)
Fixpoint days_marked (rotate : Z) (clock : nat -> datetime) (t : nat)
    (l : list Snapshot.t) : list Snapshot.t :=
  match l with
  | [] => []
  | s :: l' =>
      if age_days (clock t) s >=? rotate
      then s :: days_marked rotate clock (S t) l'
      else days_marked rotate clock (S t) l'
  end.

Definition set_ticks (n : nat) (w : World) : World :=
  mkWorld (w_reservations w) (w_volumes w) (w_snapshots w) (w_key_pairs w)
          (w_delete_fault w) (w_clock w) n (w_calls w) (w_log w)
          (w_client_fault w).

Definition days_loop (conn : EC2Client) (rotate : Z) (l : list Snapshot.t)
  : M unit :=
  for_each l
    (fun snap =>
       now <- datetime_now ;;
       if days (datetime_sub now (Snapshot.StartTime snap)) >=? rotate
       then attempt conn snap
       else ret tt).

(** ** The two policies *)

Inductive Policy :=
| CountPolicy (keep : Z)
| AgePolicy (maxAgeDays : Z).

(** The loop body and the entry point that implement a policy. *)
Definition rotate_volume (p : Policy) (conn : EC2Client) (rotate_only : bool)
    (vol : string) : M unit :=
  match p with
  | CountPolicy keep => rotate_snapshots_volume conn keep rotate_only vol
  | AgePolicy d => rotate_days_snapshots_volume conn d rotate_only vol
  end.

Definition rotation (p : Policy) (conn : EC2Client) (volumes : list string)
    (rotate_only : bool) : M unit :=
  match p with
  | CountPolicy keep => rotate_snapshots conn volumes keep rotate_only
  | AgePolicy d => rotate_days_snapshots conn volumes d rotate_only
  end.

(** The snapshots a policy marks for a volume in a given world. *)
Definition marked (p : Policy) (rotate_only : bool) (vol : string) (w : World)
  : list Snapshot.t :=
  match p with
  | CountPolicy keep => count_marked keep (fetched vol rotate_only w)
  | AgePolicy d =>
      days_marked d (w_clock w) (w_ticks w) (fetched vol rotate_only w)
  end.

(** The first log line of an entry point. *)
Definition banner (p : Policy) (w : World) : World :=
  match p with
  | CountPolicy _ => record_log (INFO "rotate_snapshot: %d") w
  | AgePolicy _ => record_log (INFO "rotate_snapshot: older than %d days") w
  end.

(** No deletion is ever answered with an error other than in-use. *)
Definition only_in_use_faults (w : World) : Prop :=
  forall id c, w_delete_fault w id = Some c -> in_use c = true.

(** ** Descriptions, locator, tag queries, authentication *)

(** Written from the specification's words: the elapsed time, truncated
    to an integer number of days. *)
Definition spec_age_days (now : datetime) (s : Snapshot.t) : Z :=
  Z.quot (instant now - instant (Snapshot.StartTime s)) DAY_US.

(** The description [create_snapshots] gives a snapshot at time [now]. *)
Definition current_description (now : datetime) : string :=
  ("osc-bsu-backup: Automated volume snapshot - " ++ strftime now)%string.

Definition mapped_volumes (i : Instance.t) : list string :=
  map (fun m => Ebs.VolumeId (BlockDeviceMapping.Ebs m))
      (Instance.BlockDeviceMappings i).

(** The volume of every block-device mapping of every instance of a
    response, in response order. *)
Definition attached_volumes (rs : list Reservation.t) : list string :=
  flat_map (fun r => flat_map mapped_volumes (Reservation.Instances r)) rs.

(** The filters a tag query builds, when every tag has a colon. *)
Fixpoint tag_filters (tags : list string) : option (list Filter) :=
  match tags with
  | [] => Some []
  | tag :: tags' =>
      match split ":" tag, tag_filters tags' with
      | k :: v :: _, Some fs => Some (mkFilter ("tag:" ++ k)%string [v] :: fs)
      | _, _ => None
      end
  end.

Definition state_filter : Filter :=
  mkFilter "instance-state-name" ["running"; "stopped"].

Fixpoint contains (c : ascii) (s : string) : bool :=
  match s with
  | EmptyString => false
  | String a s' => Ascii.eqb a c || contains c s'
  end.

(** Written from the specification's words: the text before the first
    separator and the whole text after it. *)
Fixpoint partition_first (sep : ascii) (s : string) : option (string * string) :=
  match s with
  | EmptyString => None
  | String c s' =>
      if Ascii.eqb c sep then Some (EmptyString, s')
      else match partition_first sep s' with
           | Some (k, v) => Some (String c k, v)
           | None => None
           end
  end.

Definition spec_tag_filter (tag : string) : option Filter :=
  match partition_first ":" tag with
  | Some (k, v) => Some (mkFilter ("tag:" ++ k)%string [v])
  | None => None
  end.

(** The endpoint the handle is built with, once the check has passed. *)
Definition resolved_endpoint (region endpoint : option string) : option string :=
  if truthy endpoint then endpoint
  else Some ("https://fcu." ++ str_opt region ++ ".outscale.com")%string.

(** The world once the three log lines are written. *)
Definition auth_logged (w : World) : World :=
  record_log (INFO "profile: %s")
    (record_log (INFO "endpoint: %s")
       (record_log (INFO "region: %s") w)).

(** The world once the key pairs have been asked for as well. *)
Definition key_pairs_listed (w : World) : World :=
  record_call DescribeKeyPairs (auth_logged w).

(** ** What a rotation may ask of the service *)

(** A call a rotation over [volumes] may issue on an account holding the
    snapshots [before]: the listing of one of the volumes, or the
    deletion of a snapshot of the account that belongs to one of the
    volumes (and, with [rotate_only], is described by an entry of
    [OLD_DESCRIPTION]). *)
Definition rotation_call (rotate_only : bool) (volumes : list string)
    (before : list Snapshot.t) (c : ApiCall) : Prop :=
  match c with
  | DescribeSnapshots fs =>
      exists vol, In vol volumes /\ fs = volume_filters vol rotate_only
  | DeleteSnapshot id =>
      exists s, In s before /\ Snapshot.SnapshotId s = id /\
                In (Snapshot.VolumeId s) volumes /\
                (rotate_only = true ->
                 In (Snapshot.Description s) OLD_DESCRIPTION)
  | _ => False
  end.

(** Only the log differs. *)
Definition only_logged (w w' : World) : Prop :=
  same_env w w' /\
  w_snapshots w' = w_snapshots w /\
  w_ticks w' = w_ticks w /\
  w_calls w' = w_calls w.

(** * Snapshot creation ([create_snapshots])

    [create_snapshots] uses four operations of the service that no other
    function of the module uses.  What they need is kept beside the
    world: the identifier and start time the service gives to the n-th
    snapshot it creates, the error code it answers to a [CreateSnapshot]
    on a volume (if any), and the trace of these requests.  Tagging and
    the wait for completion are taken to succeed. *)

Module Creation.

Inductive Request :=
| CreateSnapshot (Description VolumeId : string)
| DescribeVolumesById (VolumeIds : list string)
| CreateTags (Resources : list string) (Tags : list Tag)
| WaitSnapshotCompleted (SnapshotIds : list string).

Record Cloud := mkCloud {
  c_world : World;
  c_assign : nat -> string * datetime;
  c_created : nat;
  c_create_fault : string -> option string;
  c_requests : list Request
}.

Record DescribeVolumesByIdResult :=
  mkDescribeVolumesByIdResult { VolumesListed : list Volume.t }.

Definition set_world (w : World) (c : Cloud) : Cloud :=
  mkCloud w (c_assign c) (c_created c) (c_create_fault c) (c_requests c).

Definition record_request (r : Request) (c : Cloud) : Cloud :=
  mkCloud (c_world c) (c_assign c) (c_created c) (c_create_fault c)
          (c_requests c ++ [r]).

(** The service stores a new snapshot, after those it has. *)
Definition store_snapshot (s : Snapshot.t) (c : Cloud) : Cloud :=
  mkCloud (set_snapshots (w_snapshots (c_world c) ++ [s]) (c_world c))
          (c_assign c) (S (c_created c)) (c_create_fault c) (c_requests c).

(** The state-and-exception monad over the extended state. *)
Definition MC (A : Type) : Type := Cloud -> result A * Cloud.

Definition retC {A} (a : A) : MC A := fun c => (Ok a, c).

Definition bindC {A B} (m : MC A) (k : A -> MC B) : MC B :=
  fun c => match m c with
           | (Ok a, c') => k a c'
           | (Raise e, c') => (Raise e, c')
           end.

(** An action on the world, run inside the extended state. *)
Definition lift {A} (m : M A) : MC A :=
  fun c => (fst (m (c_world c)), set_world (snd (m (c_world c))) c).

Declare Scope creation_scope.
Notation "x <- m ;; k" := (bindC m (fun x => k))
  (at level 100, m at next level, right associativity) : creation_scope.
Notation "m ;;; k" := (bindC m (fun _ => k))
  (at level 100, right associativity) : creation_scope.
Local Open Scope creation_scope.

Fixpoint for_accC {A B} (l : list A) (acc : B) (body : B -> A -> MC B) : MC B :=
  match l with
  | [] => retC acc
  | x :: l' => acc' <- body acc x ;; for_accC l' acc' body
  end.

(** [conn.create_snapshot(Description=..., VolumeId=...)] *)
Definition create_snapshot (conn : EC2Client) (Description VolumeId : string)
  : MC Snapshot.t :=
  fun c =>
    let c := record_request (CreateSnapshot Description VolumeId) c in
    match c_create_fault c VolumeId with
    | Some code => (Raise (ClientError code), c)
    | None =>
        let snap := Snapshot.mk (fst (c_assign c (c_created c))) VolumeId
                                (snd (c_assign c (c_created c))) Description in
        (Ok snap, store_snapshot snap c)
    end.

(** [conn.describe_volumes(VolumeIds=...)]: the volumes of the account
    among those asked for. *)
Definition describe_volumes_by_id (conn : EC2Client) (VolumeIds : list string)
  : MC DescribeVolumesByIdResult :=
  fun c =>
    (Ok (mkDescribeVolumesByIdResult
           (filter (fun v => str_in (Volume.VolumeId v) VolumeIds)
                   (w_volumes (c_world c)))),
     record_request (DescribeVolumesById VolumeIds) c).

(** [conn.create_tags(Resources=..., Tags=...)] *)
Definition create_tags (conn : EC2Client) (Resources : list string)
    (Tags : list Tag) : MC unit :=
  fun c => (Ok tt, record_request (CreateTags Resources Tags) c).

(** [conn.get_waiter("snapshot_completed").wait(SnapshotIds=...)] *)
Definition wait_snapshot_completed (conn : EC2Client) (SnapshotIds : list string)
  : MC unit :=
  fun c => (Ok tt, record_request (WaitSnapshotCompleted SnapshotIds) c).

(** Body of [for vol in volumes] in [create_snapshots]. *)
Definition create_snapshots_volume (conn : EC2Client) (copy_tags : bool)
    (snaps : list Snapshot.t) (vol : string) : MC (list Snapshot.t) :=
  description <- lift generate_description ;;
  snap <- create_snapshot conn description vol ;;
  lift (logger_info "snap create: %s %s") ;;;
  let snaps := snaps ++ [snap] in
  (if copy_tags then
     listing <- describe_volumes_by_id conn [vol] ;;
     first <- lift (getitem (VolumesListed listing) 0) ;;
     let vol_tags := Volume.Tags first in
     match vol_tags with
     | [] => retC tt
     | _ :: _ =>
         create_tags conn [Snapshot.SnapshotId snap] vol_tags ;;;
         lift (logger_info "copy of %s tags to %s")
     end
   else retC tt) ;;;
  retC snaps.

Definition create_snapshots (conn : EC2Client) (volumes : list string)
    (copy_tags : bool) : MC unit :=
  lift (logger_info "create_snapshot") ;;;
  let snaps := [] in
  snaps <- for_accC volumes snaps (create_snapshots_volume conn copy_tags) ;;
  lift (logger_info "wait for snapshots: %s") ;;;
  wait_snapshot_completed conn (map Snapshot.SnapshotId snaps).

(** *** Vocabulary *)

(** The description generated at the [i]-th clock reading from now. *)
Definition description_at (c : Cloud) (i : nat) : string :=
  current_description (w_clock (c_world c) (i + w_ticks (c_world c))%nat).

(** The snapshot the [i]-th creation from now gives volume [vol]. *)
Definition new_snapshot (c : Cloud) (i : nat) (vol : string) : Snapshot.t :=
  Snapshot.mk (fst (c_assign c (i + c_created c)%nat)) vol
              (snd (c_assign c (i + c_created c)%nat)) (description_at c i).

Fixpoint new_snapshots (c : Cloud) (i : nat) (volumes : list string)
  : list Snapshot.t :=
  match volumes with
  | [] => []
  | vol :: volumes' => new_snapshot c i vol :: new_snapshots c (S i) volumes'
  end.

(** The tags of the first volume the service lists for [vol], if it
    lists one. *)
Definition tags_listed (c : Cloud) (vol : string) : option (list Tag) :=
  match filter (fun v => str_in (Volume.VolumeId v) [vol])
               (w_volumes (c_world c)) with
  | first :: _ => Some (Volume.Tags first)
  | [] => None
  end.

(** The requests one iteration issues for the snapshot it creates. *)
Definition requests_for (copy_tags : bool) (c : Cloud) (s : Snapshot.t)
  : list Request :=
  CreateSnapshot (Snapshot.Description s) (Snapshot.VolumeId s)
  :: (if copy_tags
      then DescribeVolumesById [Snapshot.VolumeId s]
           :: match tags_listed c (Snapshot.VolumeId s) with
              | Some (t :: ts) => [CreateTags [Snapshot.SnapshotId s] (t :: ts)]
              | _ => []
              end
      else []).

(** An iteration on [vol] goes through: the creation is not refused and,
    when tags are copied, the service lists the volume. *)
Definition ready (copy_tags : bool) (c : Cloud) (vol : string) : bool :=
  match c_create_fault c vol with
  | Some _ => false
  | None =>
      if copy_tags
      then match tags_listed c vol with Some _ => true | None => false end
      else true
  end.

(** What an iteration leaves as it was. *)
Definition frame (c c' : Cloud) : Prop :=
  c_assign c' = c_assign c /\
  c_create_fault c' = c_create_fault c /\
  same_env (c_world c) (c_world c') /\
  w_calls (c_world c') = w_calls (c_world c).

(** [n] more snapshots created, [n] more clock readings taken. *)
Definition advanced_by (n : nat) (c c' : Cloud) : Prop :=
  frame c c' /\
  c_created c' = (n + c_created c)%nat /\
  w_ticks (c_world c') = (n + w_ticks (c_world c))%nat.

End Creation.

(** * Sample accounts *)

(** Six snapshots on two volumes; the local clock reads
    2024-03-10 10:00:00 UTC throughout. *)
Definition utc (y mo d h mi s : Z) : datetime := mkdatetime y mo d h mi s 0.

Definition sample_conn : EC2Client :=
  mkEC2Client None (Some "eu-west-2")
              (Some "https://fcu.eu-west-2.outscale.com") None.

Definition snap_a : Snapshot.t :=
  Snapshot.mk "snap-a" "vol-1" (utc 2024 3 1 10 0 0) "osc-bsu-backup 0.1".
Definition snap_b : Snapshot.t :=
  Snapshot.mk "snap-b" "vol-1" (utc 2024 3 3 10 0 0) "manual".
Definition snap_c : Snapshot.t :=
  Snapshot.mk "snap-c" "vol-1" (utc 2024 3 2 10 0 0) "osc-bsu-backup 0.0.2".
Definition snap_d : Snapshot.t :=
  Snapshot.mk "snap-d" "vol-1" (utc 2024 3 3 10 0 0)
    "osc-bsu-backup: Automated volume snapshot - 2024-03-03 10:00:00 UTC".
Definition snap_e : Snapshot.t :=
  Snapshot.mk "snap-e" "vol-2" (utc 2024 3 1 9 0 0) "osc-bsu-backup 0.1".
Definition snap_f : Snapshot.t :=
  Snapshot.mk "snap-f" "vol-2" (utc 2024 3 5 9 0 0) "osc-bsu-backup 0.1".

Definition no_faults : string -> option string := fun _ => None.

(** [snap-c] is referenced elsewhere. *)
Definition fault_c_in_use : string -> option string :=
  fun id => if String.eqb id "snap-c" then Some "InvalidSnapshot.InUse" else None.

(** Deleting [snap-c] fails with an internal error of the service. *)
Definition fault_c_internal : string -> option string :=
  fun id => if String.eqb id "snap-c" then Some "InternalError" else None.

Definition sample_world (fault : string -> option string) : World :=
  mkWorld [] [] [snap_a; snap_b; snap_c; snap_d; snap_e; snap_f] []
          fault (fun _ => utc 2024 3 10 10 0 0) 0 [] [] (fun _ => None).

(** A snapshot dated one second after the local clock reads. *)
Definition snap_g : Snapshot.t :=
  Snapshot.mk "snap-g" "vol-3" (utc 2024 3 10 10 0 1) "osc-bsu-backup 0.1".

Definition skewed_world : World :=
  mkWorld [] [] [snap_g] [] no_faults (fun _ => utc 2024 3 10 10 0 0) 0 [] []
          (fun _ => None).

(** Two snapshots of [vol-4], described as [generate_description] does at
    their creation time. *)
Definition snap_h : Snapshot.t :=
  Snapshot.mk "snap-h" "vol-4" (utc 2024 3 8 10 0 0)
              (current_description (utc 2024 3 8 10 0 0)).
Definition snap_i : Snapshot.t :=
  Snapshot.mk "snap-i" "vol-4" (utc 2024 3 9 10 0 0)
              (current_description (utc 2024 3 9 10 0 0)).

Definition created_world : World :=
  mkWorld [] [] [snap_h; snap_i] [] no_faults
          (fun _ => utc 2024 3 10 10 0 0) 0 [] [] (fun _ => None).

(** An account with two instances sharing a multi-attach volume. *)
Definition on_device (v : string) : BlockDeviceMapping.t :=
  BlockDeviceMapping.mk "/dev/sda1" (Ebs.mk v).

Definition fleet_world : World :=
  mkWorld
    [Reservation.mk
       [Instance.mk "i-1" "running" [mkTag "Name" "web"]
                    [on_device "vol-1"; on_device "vol-9"];
        Instance.mk "i-2" "stopped" [mkTag "Name" "web"; mkTag "env" "a:b"]
                    [on_device "vol-2"; on_device "vol-9"]];
     Reservation.mk
       [Instance.mk "i-3" "terminated" [mkTag "Name" "web"]
                    [on_device "vol-3"]]]
    [Volume.mk "vol-1" [mkTag "Name" "web"];
     Volume.mk "vol-2" [mkTag "Name" "web"; mkTag "env" "a:b"];
     Volume.mk "vol-3" [mkTag "Name" "db"];
     Volume.mk "vol-9" []]
    [] [mkKeyPair "deploy" "aa:bb:cc"] no_faults
    (fun _ => utc 2024 3 10 10 0 0) 0 [] [] (fun _ => None).

(** A machine with no region configured: boto3 builds no client unless
    a region is given.  The account has no key pair. *)
Definition unconfigured_world : World :=
  mkWorld [] [] [] [] no_faults (fun _ => utc 2024 3 10 10 0 0) 0 [] []
          (fun conn => match region_name conn with
                       | None => Some "NoRegionError"
                       | Some _ => None
                       end).

(** The fleet account as [create_snapshots] sees it: the service names
    the snapshots it creates [snap-n0], [snap-n1], ... and refuses to
    snapshot [vol-bad]. *)
Definition sample_cloud : Creation.Cloud :=
  Creation.mkCloud fleet_world
    (fun n => (match n with
               | O => "snap-n0"
               | S O => "snap-n1"
               | _ => "snap-n2"
               end, utc 2024 3 10 10 0 5))
    0
    (fun vol => if String.eqb vol "vol-bad"
                then Some "InvalidVolume.NotFound" else None)
    [].

(** The six-snapshot account as [create_snapshots] sees it. *)
Definition stocked_cloud : Creation.Cloud :=
  Creation.mkCloud (sample_world no_faults)
    (fun n => (match n with
               | O => "snap-n0"
               | _ => "snap-n1"
               end, utc 2024 3 10 10 0 5))
    0 (fun _ => None) [].

(** * Properties *)

(** ** The model on concrete values

    The values on the right are those CPython gives. *)

Example toordinal_2024_03_10 : toordinal (utc 2024 3 10 0 0 0) = 738955.
Proof. reflexivity. Qed.

Example toordinal_leap_day : toordinal (utc 2000 2 29 0 0 0) = 730179.
Proof. reflexivity. Qed.

Example toordinal_1900_03_01 : toordinal (utc 1900 3 1 0 0 0) = 693655.
Proof. reflexivity. Qed.

Example datetime_sub_one_second_ahead :
  datetime_sub (utc 2024 3 10 10 0 0) (utc 2024 3 10 10 0 1)
  = mktimedelta (-1) 86399 0.
Proof. reflexivity. Qed.

Example datetime_sub_eight_days :
  days (datetime_sub (utc 2024 3 10 10 0 0) (utc 2024 3 2 10 0 0)) = 8.
Proof. reflexivity. Qed.

Example strftime_sample :
  strftime (utc 2024 3 10 10 0 0) = "2024-03-10 10:00:00 UTC".
Proof. reflexivity. Qed.

Example split_three : split ":" "env:a:b" = ["env"; "a"; "b"].
Proof. reflexivity. Qed.

Example split_no_separator : split ":" "abc" = ["abc"].
Proof. reflexivity. Qed.

Example split_empty : split ":" "" = [""].
Proof. reflexivity. Qed.

Example split_only_separator : split ":" ":" = [""; ""].
Proof. reflexivity. Qed.

(** ** The sort: a stable descending permutation *)

Section SortFacts.
Context {A : Type} (key : A -> Z).

Lemma insert_desc_perm x l : Permutation (insert_desc key x l) (x :: l).
Proof.
  induction l as [|y l IH]; simpl.
  - apply Permutation_refl.
  - destruct (key y <=? key x).
    + apply Permutation_refl.
    + eapply perm_trans; [apply perm_skip, IH | apply perm_swap].
Qed.

Lemma sort_reverse_perm l : Permutation (sort_reverse key l) l.
Proof.
  induction l as [|x l IH]; simpl.
  - constructor.
  - eapply perm_trans; [apply insert_desc_perm | apply perm_skip, IH].
Qed.

Lemma sort_reverse_length l : List.length (sort_reverse key l) = List.length l.
Proof. apply Permutation_length, sort_reverse_perm. Qed.

Lemma insert_desc_sorted x l :
  Descending key l -> Descending key (insert_desc key x l).
Proof.
  unfold Descending.
  induction l as [|y l IH]; intros Hs; simpl.
  - constructor; constructor.
  - inversion Hs as [|? ? Hl Hy]; subst.
    destruct (key y <=? key x) eqn:E.
    + apply Z.leb_le in E.
      constructor; [exact Hs|].
      constructor; [exact E|].
      rewrite Forall_forall in *. intros b Hb.
      specialize (Hy b Hb). lia.
    + apply Z.leb_gt in E.
      constructor; [apply IH, Hl|].
      rewrite Forall_forall in *. intros b Hb.
      apply (Permutation_in _ (insert_desc_perm x l)) in Hb.
      destruct Hb as [<-|Hb]; [lia | apply Hy, Hb].
Qed.

Lemma sort_reverse_sorted l : Descending key (sort_reverse key l).
Proof.
  induction l as [|x l IH]; simpl.
  - constructor.
  - apply insert_desc_sorted, IH.
Qed.

Lemma insert_desc_of_key k x l :
  of_key key k (insert_desc key x l) = of_key key k (x :: l).
Proof.
  unfold of_key.
  induction l as [|y l IH]; simpl; [reflexivity|].
  destruct (key y <=? key x) eqn:E; [reflexivity|].
  apply Z.leb_gt in E. simpl in *. rewrite IH.
  destruct (key x =? k) eqn:Ex, (key y =? k) eqn:Ey; try reflexivity.
  apply Z.eqb_eq in Ex, Ey. lia.
Qed.

Lemma sort_reverse_stable l : Stable key l (sort_reverse key l).
Proof.
  intros k. induction l as [|x l IH]; simpl; [reflexivity|].
  rewrite insert_desc_of_key. unfold of_key in *. simpl. rewrite IH.
  reflexivity.
Qed.

Lemma of_key_In k a l : In a (of_key key k l) <-> In a l /\ key a = k.
Proof.
  unfold of_key. rewrite filter_In, Z.eqb_eq. reflexivity.
Qed.

(** Two descending lists with the same elements of every key, in the
    same order, are the same list: the three properties above determine
    the result of the sort. *)
Lemma descending_stable_unique l1 :
  forall l2, Descending key l1 -> Descending key l2 ->
             (forall k, of_key key k l1 = of_key key k l2) -> l1 = l2.
Proof.
  unfold Descending.
  induction l1 as [|a l1 IH]; intros l2 H1 H2 Hk.
  - destruct l2 as [|b l2]; [reflexivity|].
    specialize (Hk (key b)). unfold of_key in Hk. simpl in Hk.
    rewrite Z.eqb_refl in Hk. discriminate.
  - destruct l2 as [|b l2].
    + specialize (Hk (key a)). unfold of_key in Hk. simpl in Hk.
      rewrite Z.eqb_refl in Hk. discriminate.
    + inversion H1 as [|? ? H1l H1a]; inversion H2 as [|? ? H2l H2b]; subst.
      rewrite Forall_forall in H1a, H2b.
      assert (Hab : key a = key b).
      { assert (Ha : In a (b :: l2)).
        { apply (of_key_In (key a)). rewrite <- Hk. apply of_key_In.
          split; [left; reflexivity | reflexivity]. }
        assert (Hb : In b (a :: l1)).
        { apply (of_key_In (key b)). rewrite Hk. apply of_key_In.
          split; [left; reflexivity | reflexivity]. }
        destruct Ha as [Ha|Ha]; [subst; reflexivity|].
        destruct Hb as [Hb|Hb]; [subst; reflexivity|].
        specialize (H1a b Hb). specialize (H2b a Ha). lia. }
      assert (a = b).
      { specialize (Hk (key a)). unfold of_key in Hk. simpl in Hk.
        rewrite <- Hab, Z.eqb_refl in Hk. congruence. }
      subst b. f_equal. apply IH; try assumption.
      intros k. specialize (Hk k). unfold of_key in *. simpl in Hk.
      destruct (key a =? k); congruence.
Qed.

Lemma sort_reverse_unique l l' :
  Descending key l' -> Stable key l l' -> l' = sort_reverse key l.
Proof.
  intros Hd Hs. apply descending_stable_unique.
  - exact Hd.
  - apply sort_reverse_sorted.
  - intros k. rewrite Hs. symmetry. apply sort_reverse_stable.
Qed.
End SortFacts.

(** ** Loops *)

Lemma for_each_app {A} (l1 l2 : list A) (body : A -> M unit) w :
  for_each (l1 ++ l2) body w =
  match for_each l1 body w with
  | (Ok _, w1) => for_each l2 body w1
  | (Raise e, w1) => (Raise e, w1)
  end.
Proof.
  revert w. induction l1 as [|x l1 IH]; intros w; simpl; [reflexivity|].
  unfold bind. destruct (body x w) as [[[]|e] w1]; [apply IH | reflexivity].
Qed.

Lemma for_each_ext {A} (l : list A) (f g : A -> M unit) :
  (forall x w, f x w = g x w) -> forall w, for_each l f w = for_each l g w.
Proof.
  intros H. induction l as [|x l IH]; intros w; simpl; [reflexivity|].
  unfold bind. rewrite H. destruct (g x w) as [[[]|e] w1]; [apply IH | reflexivity].
Qed.

(** [for i, x in enumerate(l): if i >= n: f x] runs [f] on the elements
    from position [n] on, and on nothing else. *)
Lemma for_each_enumerate_from {A} (f : A -> M unit) (n : Z) (l : list A) :
  forall i w,
    for_each (enumerate_from i l)
             (fun '(j, x) => if j >=? n then f x else ret tt) w
    = for_each (skipn (Z.to_nat (n - i)) l) f w.
Proof.
  induction l as [|x l IH]; intros i w; simpl.
  - destruct (Z.to_nat (n - i)); reflexivity.
  - destruct (i >=? n) eqn:E.
    + apply Z.geb_le in E.
      replace (Z.to_nat (n - i)) with 0%nat by lia. simpl.
      unfold bind. destruct (f x w) as [[[]|e] w1]; [|reflexivity].
      rewrite IH. replace (Z.to_nat (n - (i + 1))) with 0%nat by lia.
      reflexivity.
    + assert (i < n) by (rewrite Z.geb_leb in E; apply Z.leb_gt in E; lia).
      replace (Z.to_nat (n - i)) with (S (Z.to_nat (n - (i + 1)))) by lia.
      simpl. unfold bind, ret. apply IH.
Qed.

(** ** One deletion and a run of deletions *)

Lemma same_env_refl w : same_env w w.
Proof. repeat split. Qed.

Lemma same_env_trans w1 w2 w3 :
  same_env w1 w2 -> same_env w2 w3 -> same_env w1 w3.
Proof.
  unfold same_env. intros (A1 & A2 & A3 & A4 & A5) (B1 & B2 & B3 & B4 & B5).
  repeat split; congruence.
Qed.

Lemma attempt_step conn s w :
  attempt conn s w =
  let w1 := record_call (delete_call s)
              (record_log (INFO "deleting snapshot: %s %s %s") w) in
  match w_delete_fault w (Snapshot.SnapshotId s) with
  | None =>
      (Ok tt,
       set_snapshots
         (filter (fun x => negb (String.eqb (Snapshot.SnapshotId x)
                                            (Snapshot.SnapshotId s)))
                 (w_snapshots w)) w1)
  | Some c =>
      if in_use c then (Ok tt, record_log (ERROR (ClientError c)) w1)
      else (Raise (ClientError c), w1)
  end.
Proof.
  unfold attempt, delete_tolerating_in_use, try_except, delete_snapshot,
    bind, logger_info, logger_error, raise, in_use, delete_call. simpl.
  destruct (w_delete_fault w (Snapshot.SnapshotId s)) as [c|]; [|reflexivity].
  destruct (String.eqb c "InvalidSnapshot.InUse"); reflexivity.
Qed.

Lemma logged_errors_log w r :
  logged_errors (record_log r w) =
  logged_errors w ++ match r with ERROR e => [e] | _ => [] end.
Proof.
  unfold logged_errors. simpl. rewrite flat_map_app. simpl.
  rewrite app_nil_r. reflexivity.
Qed.

Lemma logged_errors_call w c : logged_errors (record_call c w) = logged_errors w.
Proof. reflexivity. Qed.

Lemma logged_errors_snapshots w l :
  logged_errors (set_snapshots l w) = logged_errors w.
Proof. reflexivity. Qed.

Lemma in_use_eq c : in_use c = true -> c = "InvalidSnapshot.InUse".
Proof. apply String.eqb_eq. Qed.

Lemma survives_nil fault s : survives fault [] s = true.
Proof. reflexivity. Qed.

Lemma survives_cons fault d l s :
  survives fault (d :: l) s =
  negb (String.eqb (Snapshot.SnapshotId s) (Snapshot.SnapshotId d)
        && deletable fault d)
  && survives fault l s.
Proof. unfold survives. simpl. apply negb_orb. Qed.

Lemma survives_own fault l s :
  In s l -> deletable fault s = true -> survives fault l s = false.
Proof.
  intros Hin Hd. unfold survives. apply negb_false_iff, existsb_exists.
  exists s. split; [exact Hin|]. rewrite String.eqb_refl, Hd. reflexivity.
Qed.

Lemma filter_true {A} (l : list A) : filter (fun _ => true) l = l.
Proof. induction l; simpl; congruence. Qed.

Lemma filter_filter {A} (p q : A -> bool) (l : list A) :
  filter p (filter q l) = filter (fun x => q x && p x) l.
Proof.
  induction l as [|x l IH]; simpl; [reflexivity|].
  destruct (q x); simpl; [destruct (p x)|]; congruence.
Qed.

(** A run over snapshots none of which answers with a fatal error:
    every one is attempted, in order; each busy one is logged; each
    deletable one leaves the account; the run returns. *)
Lemma attempts_tolerated conn l :
  forall w,
    (forall s, In s l -> fatal (w_delete_fault w) s = false) ->
    exists w',
      attempts conn l w = (Ok tt, w') /\
      same_env w w' /\
      w_ticks w' = w_ticks w /\
      w_calls w' = w_calls w ++ map delete_call l /\
      logged_errors w' =
        logged_errors w
        ++ map (fun _ => ClientError "InvalidSnapshot.InUse")
               (filter (busy (w_delete_fault w)) l) /\
      w_snapshots w' = filter (survives (w_delete_fault w) l) (w_snapshots w).
Proof.
  induction l as [|s l IH]; intros w Hl.
  - exists w. simpl. unfold ret.
    rewrite !app_nil_r, (filter_ext _ _ (survives_nil _)), filter_true.
    repeat split.
  - unfold attempts in *. simpl. unfold bind. rewrite attempt_step.
    pose proof (Hl s (or_introl eq_refl)) as Hs.
    unfold fatal in Hs. cbv zeta.
    destruct (w_delete_fault w (Snapshot.SnapshotId s)) as [c|] eqn:Ef.
    + apply negb_false_iff in Hs. rewrite Hs.
      edestruct (IH (record_log (ERROR (ClientError c))
                       (record_call (delete_call s)
                          (record_log (INFO "deleting snapshot: %s %s %s") w))))
        as (w' & Hrun & Henv & Ht & Hc & He & Hsn).
      { intros x Hx. simpl. apply Hl. right. exact Hx. }
      rewrite !logged_errors_log, logged_errors_call, logged_errors_log in He.
      simpl in Ht, Hc, He, Hsn.
      exists w'. rewrite Hrun. split; [reflexivity|].
      split; [exact Henv|]. split; [exact Ht|].
      split; [rewrite Hc, <- app_assoc; reflexivity|].
      split.
      * rewrite He. unfold busy at 2. rewrite Ef, Hs. simpl.
        rewrite (in_use_eq c Hs), app_nil_r, <- app_assoc. reflexivity.
      * rewrite Hsn. apply filter_ext. intros x.
        rewrite survives_cons. unfold deletable. rewrite Ef.
        rewrite andb_false_r. reflexivity.
    + edestruct (IH (set_snapshots
                       (filter (fun x => negb (String.eqb (Snapshot.SnapshotId x)
                                                          (Snapshot.SnapshotId s)))
                               (w_snapshots w))
                       (record_call (delete_call s)
                          (record_log (INFO "deleting snapshot: %s %s %s") w))))
        as (w' & Hrun & Henv & Ht & Hc & He & Hsn).
      { intros x Hx. simpl. apply Hl. right. exact Hx. }
      rewrite logged_errors_snapshots, logged_errors_call, logged_errors_log in He.
      simpl in Ht, Hc, He, Hsn.
      exists w'. rewrite Hrun. split; [reflexivity|].
      split; [exact Henv|]. split; [exact Ht|].
      split; [rewrite Hc, <- app_assoc; reflexivity|].
      split.
      * rewrite He. unfold busy at 2. rewrite Ef, app_nil_r. reflexivity.
      * rewrite Hsn, filter_filter. apply filter_ext. intros x.
        rewrite survives_cons. unfold deletable. rewrite Ef.
        rewrite andb_true_r. reflexivity.
Qed.

Lemma no_fatal_forall fault l :
  existsb (fatal fault) l = false ->
  forall s, In s l -> fatal fault s = false.
Proof.
  intros H s Hs. destruct (fatal fault s) eqn:E; [|reflexivity].
  rewrite <- H. symmetry. apply existsb_exists. exists s. split; assumption.
Qed.

(** A run that meets a fatal answer stops there: the snapshots before it
    were handled as above, the failing deletion is the last call, nothing
    after it is attempted, and the error is raised. *)
Lemma attempts_fatal conn l1 s l2 c w :
  existsb (fatal (w_delete_fault w)) l1 = false ->
  w_delete_fault w (Snapshot.SnapshotId s) = Some c ->
  in_use c = false ->
  exists w',
    attempts conn (l1 ++ s :: l2) w = (Raise (ClientError c), w') /\
    same_env w w' /\
    w_ticks w' = w_ticks w /\
    w_calls w' = w_calls w ++ map delete_call (l1 ++ [s]) /\
    w_snapshots w' = filter (survives (w_delete_fault w) l1) (w_snapshots w).
Proof.
  intros H1 Hc Hu.
  destruct (attempts_tolerated conn l1 w (no_fatal_forall _ _ H1))
    as (w1 & Hrun & Henv & Ht & Hcalls & _ & Hsn).
  unfold attempts in *. rewrite for_each_app, Hrun. simpl. unfold bind.
  rewrite attempt_step. cbv zeta.
  destruct Henv as (E1 & E2 & E3 & E4 & E5).
  rewrite E4, Hc, Hu.
  eexists. split; [reflexivity|]. simpl.
  split; [repeat split; assumption|].
  split; [exact Ht|].
  split; [rewrite Hcalls, map_app, app_assoc; reflexivity | exact Hsn].
Qed.

(** ** Count-based rotation of one volume *)

Lemma rotate_snapshots_volume_eq conn rotate rotate_only vol w :
  rotate_snapshots_volume conn rotate rotate_only vol w =
  attempts conn (count_marked rotate (fetched vol rotate_only w))
           (listed vol rotate_only w).
Proof.
  unfold rotate_snapshots_volume, count_marked, bind, describe_snapshots.
  simpl. fold (fetched vol rotate_only w). fold (listed vol rotate_only w).
  destruct (Z.of_nat (List.length (fetched vol rotate_only w)) >=? rotate).
  - unfold enumerate, attempts.
    replace (Z.to_nat rotate) with (Z.to_nat (rotate - 0)) by (f_equal; lia).
    rewrite <- (for_each_enumerate_from (attempt conn)).
    apply for_each_ext. intros [j x] w'. destruct (j >=? rotate); reflexivity.
  - reflexivity.
Qed.

(** ** Age-based rotation of one volume *)

Lemma set_ticks_same w : set_ticks (w_ticks w) w = w.
Proof. destruct w; reflexivity. Qed.

(** Deleting does not look at the clock. *)
Lemma attempt_set_ticks conn s n w :
  attempt conn s (set_ticks n w) =
  (fst (attempt conn s w), set_ticks n (snd (attempt conn s w))).
Proof.
  rewrite !attempt_step. cbv zeta. simpl.
  destruct (w_delete_fault w (Snapshot.SnapshotId s)) as [c|]; [|reflexivity].
  destruct (in_use c); reflexivity.
Qed.

Lemma attempts_set_ticks conn l n :
  forall w,
    attempts conn l (set_ticks n w) =
    (fst (attempts conn l w), set_ticks n (snd (attempts conn l w))).
Proof.
  unfold attempts.
  induction l as [|s l IH]; intros w; simpl; [reflexivity|].
  unfold bind. rewrite attempt_set_ticks.
  destruct (attempt conn s w) as [[[]|e] w1]; simpl; [apply IH | reflexivity].
Qed.

Lemma for_each_cons {A} (x : A) (l : list A) (body : A -> M unit) w :
  for_each (x :: l) body w =
  match body x w with
  | (Ok _, w') => for_each l body w'
  | (Raise e, w') => (Raise e, w')
  end.
Proof. reflexivity. Qed.

Lemma attempt_same_clock conn s w r w' :
  attempt conn s w = (r, w') -> w_clock w' = w_clock w.
Proof.
  rewrite attempt_step. cbv zeta.
  destruct (w_delete_fault w (Snapshot.SnapshotId s)) as [c|];
    [destruct (in_use c)|]; intros [= <- <-]; reflexivity.
Qed.

(** The age loop is a run of deletions over the marked snapshots; only
    the number of clock readings taken differs. *)
Lemma days_loop_attempts conn rotate l :
  forall w, exists n,
    let run := attempts conn (days_marked rotate (w_clock w) (w_ticks w) l) w in
    days_loop conn rotate l w = (fst run, set_ticks n (snd run)).
Proof.
  unfold days_loop.
  induction l as [|s l IH]; intros w; cbv zeta.
  - exists (w_ticks w). cbn [for_each days_marked attempts]. unfold ret.
    cbn [fst snd]. rewrite set_ticks_same. reflexivity.
  - rewrite for_each_cons. cbn [days_marked].
    unfold bind at 1. unfold datetime_now at 1.
    fold (age_days (w_clock w (w_ticks w)) s).
    change (tick w) with (set_ticks (S (w_ticks w)) w).
    destruct (age_days (w_clock w (w_ticks w)) s >=? rotate).
    + rewrite attempt_set_ticks. unfold attempts. rewrite for_each_cons.
      destruct (attempt conn s w) as [[[]|e] w1] eqn:Ea; cbn [fst snd].
      * destruct (IH (set_ticks (S (w_ticks w)) w1)) as (n & Hn).
        cbv zeta in Hn. exists n. rewrite Hn.
        change (w_clock (set_ticks (S (w_ticks w)) w1)) with (w_clock w1).
        change (w_ticks (set_ticks (S (w_ticks w)) w1)) with (S (w_ticks w)).
        rewrite (attempt_same_clock _ _ _ _ _ Ea), attempts_set_ticks.
        reflexivity.
      * exists (S (w_ticks w)). reflexivity.
    + unfold ret at 1.
      destruct (IH (set_ticks (S (w_ticks w)) w)) as (n & Hn).
      cbv zeta in Hn. exists n. rewrite Hn.
      change (w_clock (set_ticks (S (w_ticks w)) w)) with (w_clock w).
      change (w_ticks (set_ticks (S (w_ticks w)) w)) with (S (w_ticks w)).
      rewrite attempts_set_ticks. reflexivity.
Qed.

Lemma rotate_days_snapshots_volume_eq conn rotate rotate_only vol w :
  rotate_days_snapshots_volume conn rotate rotate_only vol w =
  days_loop conn rotate (fetched vol rotate_only w) (listed vol rotate_only w).
Proof. reflexivity. Qed.

(** ** Both policies *)

Lemma rotation_eq p conn volumes rotate_only w :
  rotation p conn volumes rotate_only w =
  for_each volumes (rotate_volume p conn rotate_only) (banner p w).
Proof. destruct p; reflexivity. Qed.

Lemma rotate_volume_attempts p conn rotate_only vol w :
  exists n,
    let run := attempts conn (marked p rotate_only vol w)
                        (listed vol rotate_only w) in
    rotate_volume p conn rotate_only vol w = (fst run, set_ticks n (snd run)).
Proof.
  destruct p as [keep|d]; simpl.
  - rewrite rotate_snapshots_volume_eq.
    exists (w_ticks (snd (attempts conn
                            (count_marked keep (fetched vol rotate_only w))
                            (listed vol rotate_only w)))).
    rewrite set_ticks_same. apply surjective_pairing.
  - rewrite rotate_days_snapshots_volume_eq.
    apply (days_loop_attempts conn d (fetched vol rotate_only w)
                              (listed vol rotate_only w)).
Qed.

Lemma only_in_use_no_fatal w l :
  only_in_use_faults w -> existsb (fatal (w_delete_fault w)) l = false.
Proof.
  intros H. induction l as [|s l IH]; simpl; [reflexivity|].
  rewrite IH, orb_false_r. unfold fatal.
  destruct (w_delete_fault w (Snapshot.SnapshotId s)) as [c|] eqn:E;
    [|reflexivity].
  rewrite (H _ _ E). reflexivity.
Qed.

Lemma rotate_volume_tolerated p conn rotate_only vol w :
  existsb (fatal (w_delete_fault w)) (marked p rotate_only vol w) = false ->
  exists w',
    rotate_volume p conn rotate_only vol w = (Ok tt, w') /\
    same_env w w' /\
    w_calls w' =
      w_calls w ++ DescribeSnapshots (volume_filters vol rotate_only)
                :: map delete_call (marked p rotate_only vol w) /\
    logged_errors w' =
      logged_errors w
      ++ map (fun _ => ClientError "InvalidSnapshot.InUse")
             (filter (busy (w_delete_fault w)) (marked p rotate_only vol w)) /\
    w_snapshots w' =
      filter (survives (w_delete_fault w) (marked p rotate_only vol w))
             (w_snapshots w).
Proof.
  intros H.
  destruct (rotate_volume_attempts p conn rotate_only vol w) as (n & Hn).
  destruct (attempts_tolerated conn (marked p rotate_only vol w)
              (listed vol rotate_only w) (no_fatal_forall _ _ H))
    as (w1 & Hrun & Henv & _ & Hc & He & Hsn).
  cbv zeta in Hn. rewrite Hrun in Hn. cbn [fst snd] in Hn.
  exists (set_ticks n w1). split; [exact Hn|].
  split; [exact Henv|].
  split; [cbn [set_ticks w_calls]; rewrite Hc; simpl; rewrite <- app_assoc;
          reflexivity|].
  split; [exact He | exact Hsn].
Qed.

Lemma rotate_volume_fatal p conn rotate_only vol w l1 s l2 c :
  marked p rotate_only vol w = l1 ++ s :: l2 ->
  existsb (fatal (w_delete_fault w)) l1 = false ->
  w_delete_fault w (Snapshot.SnapshotId s) = Some c ->
  in_use c = false ->
  exists w',
    rotate_volume p conn rotate_only vol w = (Raise (ClientError c), w') /\
    same_env w w' /\
    w_calls w' =
      w_calls w ++ DescribeSnapshots (volume_filters vol rotate_only)
                :: map delete_call (l1 ++ [s]) /\
    w_snapshots w' = filter (survives (w_delete_fault w) l1) (w_snapshots w).
Proof.
  intros Hm H1 Hc Hu.
  destruct (rotate_volume_attempts p conn rotate_only vol w) as (n & Hn).
  destruct (attempts_fatal conn l1 s l2 c (listed vol rotate_only w) H1 Hc Hu)
    as (w1 & Hrun & Henv & _ & Hcalls & Hsn).
  cbv zeta in Hn. rewrite Hm, Hrun in Hn. cbn [fst snd] in Hn.
  exists (set_ticks n w1). split; [exact Hn|].
  split; [exact Henv|].
  split; [cbn [set_ticks w_calls]; rewrite Hcalls; simpl; rewrite <- app_assoc;
          reflexivity | exact Hsn].
Qed.

Lemma same_env_only_in_use w w' :
  same_env w w' -> only_in_use_faults w -> only_in_use_faults w'.
Proof.
  intros (_ & _ & _ & E & _) H id c. rewrite E. apply H.
Qed.

Lemma for_each_volumes_tolerated p conn rotate_only volumes :
  forall w,
    only_in_use_faults w ->
    exists w',
      for_each volumes (rotate_volume p conn rotate_only) w = (Ok tt, w') /\
      same_env w w'.
Proof.
  induction volumes as [|vol volumes IH]; intros w H.
  - exists w. split; [reflexivity | apply same_env_refl].
  - destruct (rotate_volume_tolerated p conn rotate_only vol w
                (only_in_use_no_fatal _ _ H))
      as (w1 & Hrun & Henv & _).
    destruct (IH w1 (same_env_only_in_use _ _ Henv H)) as (w' & Hrest & Henv').
    exists w'. rewrite for_each_cons, Hrun.
    split; [exact Hrest | eapply same_env_trans; eassumption].
Qed.

(** ** Age in whole days *)

(** [timedelta.days] is the floor of the elapsed time in days. *)
Lemma age_days_floor now s :
  age_days now s = (instant now - instant (Snapshot.StartTime s)) / DAY_US.
Proof.
  unfold age_days, datetime_sub, timedelta_new, instant, DAY_US. cbn [days].
  set (b := Snapshot.StartTime s).
  set (d := toordinal now - toordinal b).
  set (sd := second now + minute now * 60 + hour now * 3600
             - (second b + minute b * 60 + hour b * 3600)).
  set (u := microsecond now - microsecond b).
  replace ((toordinal now * 86400
            + (second now + minute now * 60 + hour now * 3600)) * 1000000
           + microsecond now
           - ((toordinal b * 86400
               + (second b + minute b * 60 + hour b * 3600)) * 1000000
              + microsecond b))
    with ((d * 86400 + sd) * 1000000 + u) by (unfold d, sd, u; ring).
  replace (86400 * 1000000) with (1000000 * 86400) by reflexivity.
  rewrite <- Z.div_div by lia.
  rewrite Z.div_add_l by lia.
  replace (d * 86400 + sd + u / 1000000)
    with (d * 86400 + (sd + u / 1000000)) by ring.
  rewrite Z.div_add_l by lia. reflexivity.
Qed.

Lemma age_days_truncated now s :
  instant (Snapshot.StartTime s) <= instant now ->
  age_days now s = spec_age_days now s.
Proof.
  intros H. rewrite age_days_floor. unfold spec_age_days.
  symmetry. apply Z.quot_div_nonneg; [lia | reflexivity].
Qed.

Lemma age_days_exact now s d :
  instant now - instant (Snapshot.StartTime s) = d * DAY_US ->
  age_days now s = d.
Proof.
  intros H. rewrite age_days_floor, H. apply Z.div_mul. discriminate.
Qed.

Lemma age_days_nonneg now s :
  0 <= age_days now s <-> instant (Snapshot.StartTime s) <= instant now.
Proof.
  rewrite age_days_floor. unfold DAY_US. split; intros H.
  - destruct (Z.lt_ge_cases (instant now - instant (Snapshot.StartTime s)) 0)
      as [Hneg|Hpos]; [|lia].
    apply (Z.div_lt_upper_bound _ (86400 * 1000000) 0) in Hneg; lia.
  - apply Z.div_pos; lia.
Qed.

Lemma days_marked_In rotate clock l :
  forall t s,
    In s (days_marked rotate clock t l) <->
    exists j, nth_error l j = Some s /\
              rotate <= age_days (clock (t + j)%nat) s.
Proof.
  induction l as [|x l IH]; intros t s; cbn [days_marked].
  - split; [intros [] | intros ([|j] & Hj & _); discriminate Hj].
  - destruct (age_days (clock t) x >=? rotate) eqn:E.
    + split.
      * intros [<-|Hin].
        -- exists 0%nat. rewrite Nat.add_0_r. split; [reflexivity|].
           apply Z.geb_le, E.
        -- apply IH in Hin. destruct Hin as (j & Hj & Ha).
           exists (S j). rewrite Nat.add_succ_r. split; assumption.
      * intros ([|j] & Hj & Ha).
        -- left. inversion Hj. reflexivity.
        -- right. apply IH. exists j. rewrite Nat.add_succ_r in Ha.
           split; assumption.
    + split.
      * intros Hin. apply IH in Hin. destruct Hin as (j & Hj & Ha).
        exists (S j). rewrite Nat.add_succ_r. split; assumption.
      * intros ([|j] & Hj & Ha).
        -- inversion Hj; subst. rewrite Nat.add_0_r in Ha.
           rewrite Z.geb_leb in E. apply Z.leb_gt in E. lia.
        -- apply IH. exists j. rewrite Nat.add_succ_r in Ha.
           split; assumption.
Qed.

Lemma days_marked_all rotate clock l :
  forall t,
    (forall j s, nth_error l j = Some s ->
                 rotate <= age_days (clock (t + j)%nat) s) ->
    days_marked rotate clock t l = l.
Proof.
  induction l as [|x l IH]; intros t H; cbn [days_marked]; [reflexivity|].
  pose proof (H 0%nat x eq_refl) as H0. rewrite Nat.add_0_r in H0.
  replace (age_days (clock t) x >=? rotate) with true
    by (symmetry; apply Z.geb_le; exact H0).
  f_equal. apply IH. intros j s Hj.
  specialize (H (S j) s Hj). rewrite Nat.add_succ_r in H. exact H.
Qed.

(** ** Listings *)

(** With [rotate_only], a snapshot is listed for a volume exactly when it
    belongs to the volume and its description is one of the entries of
    [OLD_DESCRIPTION]. *)
Lemma fetched_rotate_only vol w s :
  In s (fetched vol true w) <->
  In s (w_snapshots w) /\
  Snapshot.VolumeId s = vol /\
  In (Snapshot.Description s) OLD_DESCRIPTION.
Proof.
  unfold fetched. rewrite filter_In. unfold volume_filters. simpl.
  unfold snapshot_matches. simpl. rewrite !andb_true_r, !orb_false_r.
  rewrite andb_true_iff, String.eqb_eq, !orb_true_iff, !String.eqb_eq.
  intuition (subst; auto).
Qed.

Lemma fetched_all vol w s :
  In s (fetched vol false w) <->
  In s (w_snapshots w) /\ Snapshot.VolumeId s = vol.
Proof.
  unfold fetched. rewrite filter_In. unfold volume_filters. simpl.
  unfold snapshot_matches. simpl. rewrite andb_true_r, orb_false_r.
  rewrite String.eqb_eq. reflexivity.
Qed.

Lemma skipn_In {A} (n : nat) (l : list A) x : In x (skipn n l) -> In x l.
Proof.
  intros H. rewrite <- (firstn_skipn n l). apply in_or_app. right. exact H.
Qed.

(** Only listed snapshots are marked. *)
Lemma marked_fetched p rotate_only vol w s :
  In s (marked p rotate_only vol w) -> In s (fetched vol rotate_only w).
Proof.
  destruct p as [keep|d]; simpl.
  - unfold count_marked.
    destruct (Z.of_nat (List.length (fetched vol rotate_only w)) >=? keep);
      [|intros []].
    intros H. apply skipn_In in H.
    apply (Permutation_in _ (sort_reverse_perm StartTime_key _)), H.
  - intros H. apply days_marked_In in H. destruct H as (j & Hj & _).
    eapply nth_error_In, Hj.
Qed.

(** ** A rotation, whatever the answers *)

(** A run of deletions, whatever the answers: the deletions issued are
    those of an initial segment of the list, the rest of the account is
    untouched, and the snapshots left are those the successful deletions
    did not remove. *)
Lemma attempts_general conn l :
  forall w, exists r w' done rest,
    attempts conn l w = (r, w') /\
    l = done ++ rest /\
    same_env w w' /\
    w_calls w' = w_calls w ++ map delete_call done /\
    w_snapshots w' = filter (survives (w_delete_fault w) done) (w_snapshots w).
Proof.
  induction l as [|s l IH]; intros w.
  - exists (Ok tt), w, [], []. simpl. unfold ret.
    rewrite app_nil_r, (filter_ext _ _ (survives_nil _)), filter_true.
    repeat split.
  - unfold attempts in *. rewrite for_each_cons, attempt_step. cbv zeta.
    destruct (w_delete_fault w (Snapshot.SnapshotId s)) as [c|] eqn:Ef.
    + destruct (in_use c) eqn:Eu.
      * match goal with |- context [for_each l _ ?w1] =>
          destruct (IH w1) as (r & w' & done & rest & Hrun & Hl & Henv & Hc & Hsn)
        end.
        simpl in Hc, Hsn.
        exists r, w', (s :: done), rest. rewrite Hrun, Hl.
        split; [reflexivity|]. split; [reflexivity|]. split; [exact Henv|].
        split; [rewrite Hc, <- app_assoc; reflexivity|].
        rewrite Hsn. apply filter_ext. intros x. rewrite survives_cons.
        unfold deletable. rewrite Ef, andb_false_r. reflexivity.
      * eexists _, _, [s], l. split; [reflexivity|]. split; [reflexivity|].
        split; [repeat split|]. split; [reflexivity|]. simpl.
        rewrite <- (filter_true (w_snapshots w)) at 1.
        apply filter_ext. intros x. rewrite survives_cons.
        unfold deletable. rewrite Ef, andb_false_r. reflexivity.
    + match goal with |- context [for_each l _ ?w1] =>
        destruct (IH w1) as (r & w' & done & rest & Hrun & Hl & Henv & Hc & Hsn)
      end.
      simpl in Hc, Hsn.
      exists r, w', (s :: done), rest. rewrite Hrun, Hl.
      split; [reflexivity|]. split; [reflexivity|]. split; [exact Henv|].
      split; [rewrite Hc, <- app_assoc; reflexivity|].
      rewrite Hsn, filter_filter. apply filter_ext. intros x.
      rewrite survives_cons. unfold deletable. rewrite Ef, andb_true_r.
      reflexivity.
Qed.

Lemma rotate_volume_general p conn rotate_only vol w :
  exists r w' done rest,
    rotate_volume p conn rotate_only vol w = (r, w') /\
    marked p rotate_only vol w = done ++ rest /\
    same_env w w' /\
    w_calls w' =
      w_calls w ++ DescribeSnapshots (volume_filters vol rotate_only)
                :: map delete_call done /\
    w_snapshots w' = filter (survives (w_delete_fault w) done) (w_snapshots w).
Proof.
  destruct (rotate_volume_attempts p conn rotate_only vol w) as (n & Hn).
  destruct (attempts_general conn (marked p rotate_only vol w)
              (listed vol rotate_only w))
    as (r & w' & done & rest & Hrun & Hl & Henv & Hc & Hsn).
  cbv zeta in Hn. rewrite Hrun in Hn. cbn [fst snd] in Hn.
  exists r, (set_ticks n w'), done, rest.
  split; [exact Hn|]. split; [exact Hl|]. split; [exact Henv|].
  split; [|exact Hsn].
  cbn [set_ticks w_calls]. rewrite Hc. simpl. rewrite <- app_assoc. reflexivity.
Qed.

Lemma fetched_In vol rotate_only w s :
  In s (fetched vol rotate_only w) ->
  In s (w_snapshots w) /\ Snapshot.VolumeId s = vol /\
  (rotate_only = true -> In (Snapshot.Description s) OLD_DESCRIPTION).
Proof.
  destruct rotate_only; intros H.
  - apply fetched_rotate_only in H. destruct H as (H1 & H2 & H3).
    repeat split; auto.
  - apply fetched_all in H. destruct H as (H1 & H2).
    repeat split; auto. discriminate.
Qed.

Lemma rotation_call_more rotate_only volumes before c vol :
  rotation_call rotate_only volumes before c ->
  rotation_call rotate_only (vol :: volumes) before c.
Proof.
  destruct c; simpl; try tauto.
  - intros (v & Hv & ->). exists v. split; [right; exact Hv | reflexivity].
  - intros (s & H1 & H2 & H3 & H4). exists s.
    repeat split; try assumption. right. exact H3.
Qed.

Lemma for_each_volumes_general p conn rotate_only before volumes :
  forall w,
    (forall s, In s (w_snapshots w) -> In s before) ->
    exists r w' added keep,
      for_each volumes (rotate_volume p conn rotate_only) w = (r, w') /\
      same_env w w' /\
      w_snapshots w' = filter keep (w_snapshots w) /\
      w_calls w' = w_calls w ++ added /\
      Forall (rotation_call rotate_only volumes before) added /\
      (forall s, In s (w_snapshots w) ->
                 ~ In (DeleteSnapshot (Snapshot.SnapshotId s)) added ->
                 In s (w_snapshots w')).
Proof.
  induction volumes as [|vol volumes IH]; intros w Hsub.
  - exists (Ok tt), w, [], (fun _ => true). simpl. unfold ret.
    rewrite app_nil_r, filter_true.
    repeat split; try constructor. intros s Hs _. exact Hs.
  - destruct (rotate_volume_general p conn rotate_only vol w)
      as (r1 & w1 & done & rest & Hrun & Hm & Henv & Hc & Hsn).
    assert (Hstep : Forall (rotation_call rotate_only (vol :: volumes) before)
                           (DescribeSnapshots (volume_filters vol rotate_only)
                              :: map delete_call done)).
    { constructor.
      - exists vol. split; [left; reflexivity | reflexivity].
      - apply Forall_forall. intros c Hin. apply in_map_iff in Hin.
        destruct Hin as (s & <- & Hs).
        assert (Hmk : In s (marked p rotate_only vol w))
          by (rewrite Hm; apply in_or_app; left; exact Hs).
        apply marked_fetched, fetched_In in Hmk.
        destruct Hmk as (H1 & H2 & H3).
        exists s. split; [apply Hsub, H1|]. split; [reflexivity|].
        split; [left; symmetry; exact H2 | exact H3]. }
    assert (Hkept : forall s, In s (w_snapshots w) ->
                      ~ In (DeleteSnapshot (Snapshot.SnapshotId s))
                           (map delete_call done) ->
                      In s (w_snapshots w1)).
    { intros s Hs Hnot. rewrite Hsn. apply filter_In. split; [exact Hs|].
      unfold survives. apply negb_true_iff.
      destruct (existsb _ done) eqn:Ex; [|reflexivity].
      exfalso. apply Hnot. apply existsb_exists in Ex.
      destruct Ex as (d & Hd & Heq). apply andb_true_iff in Heq.
      destruct Heq as [Heq _]. apply String.eqb_eq in Heq.
      apply in_map_iff. exists d. split; [|exact Hd].
      unfold delete_call. rewrite Heq. reflexivity. }
    rewrite for_each_cons, Hrun. destruct r1 as [[]|e].
    + destruct (IH w1)
        as (r & w' & added & keep & Hrest & Henv' & Hsn' & Hc' & Hall & Hkept').
      { intros s Hs. rewrite Hsn in Hs. apply filter_In in Hs.
        apply Hsub, Hs. }
      exists r, w', (DescribeSnapshots (volume_filters vol rotate_only)
                       :: map delete_call done ++ added),
        (fun x => survives (w_delete_fault w) done x && keep x).
      split; [exact Hrest|].
      split; [eapply same_env_trans; eassumption|].
      split; [rewrite Hsn', Hsn, filter_filter; reflexivity|].
      split; [rewrite Hc', Hc, <- app_assoc; reflexivity|].
      change (DescribeSnapshots (volume_filters vol rotate_only)
                :: map delete_call done ++ added)
        with ((DescribeSnapshots (volume_filters vol rotate_only)
                 :: map delete_call done) ++ added).
      split.
      { apply Forall_app. split; [exact Hstep|].
        eapply Forall_impl; [|exact Hall].
        intros c. apply rotation_call_more. }
      intros s Hs Hnot. apply Hkept'.
      * apply Hkept; [exact Hs|]. intros Hin. apply Hnot.
        apply in_or_app. left. right. exact Hin.
      * intros Hin. apply Hnot. apply in_or_app. right. exact Hin.
    + exists (Raise e), w1,
        (DescribeSnapshots (volume_filters vol rotate_only)
           :: map delete_call done),
        (survives (w_delete_fault w) done).
      split; [reflexivity|]. split; [exact Henv|]. split; [exact Hsn|].
      split; [exact Hc|]. split; [exact Hstep|].
      intros s Hs Hnot. apply Hkept; [exact Hs|]. intros Hin. apply Hnot.
      right. exact Hin.
Qed.

(** ** The entry points, volume by volume *)

(** The loop body on one volume, whatever the answers: the deletions
    issued are those of an initial segment of the marked snapshots, and
    of all of them when none answers with a fatal error. *)
Lemma rotate_volume_outcome p conn rotate_only vol w :
  exists r w' done rest,
    rotate_volume p conn rotate_only vol w = (r, w') /\
    marked p rotate_only vol w = done ++ rest /\
    same_env w w' /\
    w_calls w' =
      w_calls w ++ DescribeSnapshots (volume_filters vol rotate_only)
                :: map delete_call done /\
    w_snapshots w' = filter (survives (w_delete_fault w) done) (w_snapshots w) /\
    (existsb (fatal (w_delete_fault w)) (marked p rotate_only vol w) = false ->
     r = Ok tt /\ rest = []).
Proof.
  destruct (existsb (fatal (w_delete_fault w)) (marked p rotate_only vol w))
    eqn:Ef.
  - destruct (rotate_volume_general p conn rotate_only vol w)
      as (r & w' & done & rest & Hrun & Hm & Henv & Hc & Hsn).
    exists r, w', done, rest.
    split; [exact Hrun|]. split; [exact Hm|]. split; [exact Henv|].
    split; [exact Hc|]. split; [exact Hsn | discriminate].
  - destruct (rotate_volume_tolerated p conn rotate_only vol w Ef)
      as (w' & Hrun & Henv & Hc & _ & Hsn).
    exists (Ok tt), w', (marked p rotate_only vol w), [].
    split; [exact Hrun|]. split; [rewrite app_nil_r; reflexivity|].
    split; [exact Henv|]. split; [exact Hc|]. split; [exact Hsn|].
    intros _. split; reflexivity.
Qed.

Lemma rotation_nil p conn rotate_only w :
  rotation p conn [] rotate_only w = (Ok tt, banner p w).
Proof. destruct p; reflexivity. Qed.

(** Once the volumes [pre] have gone through, the call goes on with the
    next volume, from the world they left. *)
Lemma rotation_app p conn rotate_only pre post w w1 :
  rotation p conn pre rotate_only w = (Ok tt, w1) ->
  rotation p conn (pre ++ post) rotate_only w
  = for_each post (rotate_volume p conn rotate_only) w1.
Proof.
  rewrite !rotation_eq. intros H. rewrite for_each_app, H. reflexivity.
Qed.

Lemma rotation_snoc p conn rotate_only pre vol w w1 :
  rotation p conn pre rotate_only w = (Ok tt, w1) ->
  rotation p conn (pre ++ [vol]) rotate_only w
  = rotate_volume p conn rotate_only vol w1.
Proof.
  intros H. rewrite (rotation_app _ _ _ _ _ _ _ H), for_each_cons.
  destruct (rotate_volume p conn rotate_only vol w1) as [[[]|e] w2];
    reflexivity.
Qed.

Lemma rotation_single p conn rotate_only vol w :
  rotation p conn [vol] rotate_only w
  = rotate_volume p conn rotate_only vol (banner p w).
Proof.
  exact (rotation_snoc p conn rotate_only [] vol w _
           (rotation_nil p conn rotate_only w)).
Qed.

Lemma rotation_same_env p conn rotate_only volumes w r w' :
  rotation p conn volumes rotate_only w = (r, w') -> same_env w w'.
Proof.
  rewrite rotation_eq. intros H.
  destruct (for_each_volumes_general p conn rotate_only (w_snapshots w) volumes
              (banner p w))
    as (r0 & w0 & added & keep & Hrun & Henv & _).
  { destruct p; intros s Hs; exact Hs. }
  rewrite Hrun in H. inversion H; subst. destruct p; exact Henv.
Qed.

(** A call over [pre ++ vol :: post], once [pre] has gone through: the
    listing of [vol] and the deletions of an initial segment of its
    marked snapshots come next, then calls on the volumes of [post]
    only. *)
Lemma rotation_through p conn rotate_only pre vol post w w1 :
  rotation p conn pre rotate_only w = (Ok tt, w1) ->
  exists r w3 done rest more,
    rotation p conn (pre ++ vol :: post) rotate_only w = (r, w3) /\
    marked p rotate_only vol w1 = done ++ rest /\
    w_calls w3 =
      w_calls w1 ++ DescribeSnapshots (volume_filters vol rotate_only)
                 :: map delete_call done ++ more /\
    Forall (rotation_call rotate_only post (w_snapshots w1)) more /\
    (forall b, In b done -> deletable (w_delete_fault w1) b = true ->
               ~ In b (w_snapshots w3)) /\
    (existsb (fatal (w_delete_fault w1)) (marked p rotate_only vol w1) = false ->
     rest = [] /\ (only_in_use_faults w1 -> r = Ok tt)).
Proof.
  intros H. rewrite (rotation_app _ _ _ _ _ _ _ H), for_each_cons.
  destruct (rotate_volume_outcome p conn rotate_only vol w1)
    as (r1 & w2 & done & rest & Hrun & Hm & Henv & Hc & Hsn & Hok).
  rewrite Hrun.
  assert (Hgone : forall b, In b done ->
                    deletable (w_delete_fault w1) b = true ->
                    ~ In b (w_snapshots w2)).
  { intros b Hb Hd Hin. rewrite Hsn in Hin. apply filter_In in Hin.
    destruct Hin as [_ Hs]. rewrite (survives_own _ _ _ Hb Hd) in Hs.
    discriminate. }
  destruct r1 as [[]|e].
  - destruct (for_each_volumes_general p conn rotate_only (w_snapshots w1)
                post w2)
      as (r & w3 & added & keep & Hrest & _ & Hsn' & Hc' & Hall & _).
    { intros s Hs. rewrite Hsn in Hs. apply filter_In in Hs. apply Hs. }
    exists r, w3, done, rest, added.
    split; [exact Hrest|]. split; [exact Hm|].
    split; [rewrite Hc', Hc, <- app_assoc; reflexivity|].
    split; [exact Hall|].
    split.
    { intros b Hb Hd Hin. rewrite Hsn' in Hin. apply filter_In in Hin.
      exact (Hgone b Hb Hd (proj1 Hin)). }
    intros Hf. destruct (Hok Hf) as [_ Hr]. split; [exact Hr|].
    intros Hall'.
    destruct (for_each_volumes_tolerated p conn rotate_only post w2
                (same_env_only_in_use _ _ Henv Hall'))
      as (w' & Hrun' & _).
    rewrite Hrun' in Hrest. inversion Hrest. reflexivity.
  - exists (Raise e), w2, done, rest, [].
    split; [reflexivity|]. split; [exact Hm|].
    split; [rewrite app_nil_r; exact Hc|].
    split; [constructor|]. split; [exact Hgone|].
    intros Hf. destruct (Hok Hf) as [Habs _]. discriminate Habs.
Qed.

(** A snapshot whose identifier none of the deleted ones bears is still
    in the account. *)
Lemma survives_other_ids fault done s :
  (forall d, In d done -> Snapshot.SnapshotId d <> Snapshot.SnapshotId s) ->
  survives fault done s = true.
Proof.
  intros H. unfold survives. apply negb_true_iff.
  destruct (existsb _ done) eqn:Ex; [|reflexivity].
  apply existsb_exists in Ex. destruct Ex as (d & Hd & Heq).
  apply andb_true_iff in Heq. destruct Heq as [Heq _].
  apply String.eqb_eq in Heq. exfalso. apply (H d Hd). symmetry. exact Heq.
Qed.

(** ** Claims on the rotation loops *)

Lemma descending_last_least {A} (key : A -> Z) (l : list A) (x : A) :
  Descending key (l ++ [x]) -> forall a, In a (l ++ [x]) -> key x <= key a.
Proof.
  unfold Descending. induction l as [|b l IH]; simpl; intros Hs a Ha.
  - destruct Ha as [<-|[]]. lia.
  - inversion Hs as [|? ? Hl Hb]; subst.
    destruct Ha as [<-|Ha]; [|apply IH; assumption].
    rewrite Forall_forall in Hb. apply Hb, in_or_app. right. left. reflexivity.
Qed.

(** At one snapshot over the threshold, the single marked snapshot is an
    oldest one. *)
Lemma count_marked_one_over keep l :
  0 <= keep -> Z.of_nat (List.length l) = keep + 1 ->
  exists oldest,
    count_marked keep l = [oldest] /\
    In oldest l /\
    forall s, In s l -> StartTime_key oldest <= StartTime_key s.
Proof.
  intros Hk Hl. unfold count_marked.
  replace (Z.of_nat (List.length l) >=? keep) with true
    by (symmetry; apply Z.geb_le; lia).
  pose proof (sort_reverse_length StartTime_key l) as Hlen.
  pose proof (firstn_skipn (Z.to_nat keep) (sort_reverse StartTime_key l)) as Hsplit.
  assert (Hm : List.length (skipn (Z.to_nat keep) (sort_reverse StartTime_key l)) = 1%nat)
    by (rewrite length_skipn; lia).
  destruct (skipn (Z.to_nat keep) (sort_reverse StartTime_key l)) as [|x [|y m]];
    try discriminate.
  exists x. split; [reflexivity|].
  pose proof (sort_reverse_sorted StartTime_key l) as Hs. rewrite <- Hsplit in Hs.
  assert (Hin : forall s, In s l ->
                In s (firstn (Z.to_nat keep) (sort_reverse StartTime_key l) ++ [x])).
  { intros s Hs'. rewrite Hsplit.
    apply (Permutation_in _ (Permutation_sym (sort_reverse_perm StartTime_key l))).
    exact Hs'. }
  split.
  - apply (Permutation_in _ (sort_reverse_perm StartTime_key l)).
    rewrite <- Hsplit. apply in_or_app. right. left. reflexivity.
  - intros s Hs'. apply (descending_last_least _ _ _ Hs), Hin, Hs'.
Qed.

(** C1.  Count-based rotation, on [rotate_snapshots]: when the call has
    gone through the volumes before [vol] and the listing of [vol] has
    at least [keep] snapshots, the listing is sorted newest first by a
    stable sort (the result is a permutation, descending in creation
    time, with ties in the listing's order); the call lists [vol] and
    then goes through the deletions of exactly the snapshots at
    positions [keep] and later, in order: the deletions issued are an
    initial segment of those, and all of them when no fatal answer
    interrupts; the snapshots at the first [keep] positions are passed
    to no deletion, and stay in the account unless a marked snapshot
    bears their identifier.  In a call with further volumes, the calls
    that follow are on those volumes only. *)
Theorem count_rotation_selection conn rotate rotate_only pre vol post w w1 :
  let snaps := fetched vol rotate_only w1 in
  let sorted := sort_reverse StartTime_key snaps in
  let kept := firstn (Z.to_nat rotate) sorted in
  let excess := skipn (Z.to_nat rotate) sorted in
  rotate_snapshots conn pre rotate rotate_only w = (Ok tt, w1) ->
  rotate <= Z.of_nat (List.length snaps) ->
  (Permutation sorted snaps /\
   Descending StartTime_key sorted /\
   Stable StartTime_key snaps sorted) /\
  sorted = kept ++ excess /\
  (exists r w2 done rest,
     rotate_snapshots conn (pre ++ [vol]) rotate rotate_only w = (r, w2) /\
     excess = done ++ rest /\
     w_calls w2 =
       w_calls w1 ++ DescribeSnapshots (volume_filters vol rotate_only)
                  :: map delete_call done /\
     w_snapshots w2 =
       filter (survives (w_delete_fault w1) done) (w_snapshots w1) /\
     (existsb (fatal (w_delete_fault w1)) excess = false ->
      r = Ok tt /\ rest = []) /\
     (forall s, In s kept ->
        (forall d, In d excess ->
                   Snapshot.SnapshotId d <> Snapshot.SnapshotId s) ->
        In s (w_snapshots w2))) /\
  (exists r w3 done rest more,
     rotate_snapshots conn (pre ++ vol :: post) rotate rotate_only w = (r, w3) /\
     excess = done ++ rest /\
     w_calls w3 =
       w_calls w1 ++ DescribeSnapshots (volume_filters vol rotate_only)
                  :: map delete_call done ++ more /\
     Forall (rotation_call rotate_only post (w_snapshots w1)) more /\
     (existsb (fatal (w_delete_fault w1)) excess = false -> rest = [])).
Proof.
  intros snaps sorted kept excess Hpre Hlen.
  assert (Hm : marked (CountPolicy rotate) rotate_only vol w1 = excess).
  { cbn [marked]. unfold count_marked. fold snaps.
    replace (Z.of_nat (List.length snaps) >=? rotate) with true
      by (symmetry; apply Z.geb_le; lia).
    reflexivity. }
  split.
  { split; [apply sort_reverse_perm|].
    split; [apply sort_reverse_sorted | apply sort_reverse_stable]. }
  split; [symmetry; apply firstn_skipn|].
  split.
  - destruct (rotate_volume_outcome (CountPolicy rotate) conn rotate_only vol w1)
      as (r & w2 & done & rest & Hrun & Hsplit & _ & Hc & Hsn & Hok).
    rewrite Hm in Hsplit, Hok.
    exists r, w2, done, rest.
    split.
    { rewrite <- Hrun.
      exact (rotation_snoc (CountPolicy rotate) conn rotate_only pre vol w w1
               Hpre). }
    split; [exact Hsplit|]. split; [exact Hc|]. split; [exact Hsn|].
    split; [exact Hok|].
    intros s Hs Hids. rewrite Hsn. apply filter_In. split.
    + assert (Hin : In s snaps).
      { apply (Permutation_in _ (sort_reverse_perm StartTime_key snaps)).
        fold sorted. rewrite <- (firstn_skipn (Z.to_nat rotate) sorted).
        apply in_or_app. left. exact Hs. }
      unfold snaps, fetched in Hin. apply filter_In in Hin. apply Hin.
    + apply survives_other_ids. intros d Hd. apply Hids.
      rewrite Hsplit. apply in_or_app. left. exact Hd.
  - destruct (rotation_through (CountPolicy rotate) conn rotate_only pre vol
                post w w1 Hpre)
      as (r & w3 & done & rest & more & Hrun & Hsplit & Hc & Hall & _ & Hok).
    rewrite Hm in Hsplit, Hok.
    exists r, w3, done, rest, more.
    split; [exact Hrun|]. split; [exact Hsplit|]. split; [exact Hc|].
    split; [exact Hall|]. intros Hf. apply (Hok Hf).
Qed.

Lemma count_rotation_selection_witness :
  let w := sample_world no_faults in
  let w1 := snd (rotate_snapshots sample_conn ["vol-2"] 2 false w) in
  rotate_snapshots sample_conn ["vol-2"] 2 false w = (Ok tt, w1) /\
  2 <= Z.of_nat (List.length (fetched "vol-1" false w1)) /\
  exists w2,
    rotate_snapshots sample_conn ["vol-2"; "vol-1"] 2 false w = (Ok tt, w2) /\
    w_calls w2 =
      [DescribeSnapshots (volume_filters "vol-2" false);
       DescribeSnapshots (volume_filters "vol-1" false);
       DeleteSnapshot "snap-c"; DeleteSnapshot "snap-a"] /\
    In snap_b (w_snapshots w2) /\ In snap_d (w_snapshots w2).
Proof.
  intros w w1.
  assert (H : 2 <= Z.of_nat (List.length (fetched "vol-1" false w1)))
    by (vm_compute; discriminate).
  split; [reflexivity|]. split; [exact H|].
  destruct (count_rotation_selection sample_conn 2 false ["vol-2"] "vol-1" []
              w w1 eq_refl H)
    as (_ & _ & (r & w2 & done & rest & Hrun & Hsplit & Hc & _ & Hok & Hkept)
        & _).
  destruct (Hok eq_refl) as [-> ->].
  exists w2. split; [exact Hrun|].
  rewrite app_nil_r in Hsplit. split; [rewrite Hc, <- Hsplit; reflexivity|].
  split; apply Hkept.
  - left. reflexivity.
  - intros d Hd. vm_compute in Hd.
    destruct Hd as [<-|[<-|[]]]; vm_compute; discriminate.
  - right. left. reflexivity.
  - intros d Hd. vm_compute in Hd.
    destruct Hd as [<-|[<-|[]]]; vm_compute; discriminate.
Defined.



Example sort_reverse_keeps_ties :
  sort_reverse StartTime_key [snap_a; snap_b; snap_c; snap_d]
  = [snap_b; snap_d; snap_c; snap_a].
Proof. reflexivity. Qed.

(** C3.  In-use tolerance, for either policy, on the rotation call: when
    the call has gone through the volumes before [vol] and no marked
    snapshot of [vol] answers with an error other than in-use, the call
    over the volumes up to [vol] returns without raising; it has listed
    [vol] and issued the deletion of every marked snapshot in order,
    logged one error per snapshot in use, and every marked snapshot
    whose deletion succeeds has left the account, whether it comes
    before or after a snapshot in use.  When in-use is the only error
    deletions can meet, the call with further volumes goes on after
    those deletions and returns without raising, and so does a call
    over any volumes. *)
Theorem in_use_tolerance p conn rotate_only pre vol post w w1 :
  rotation p conn pre rotate_only w = (Ok tt, w1) ->
  existsb (fatal (w_delete_fault w1)) (marked p rotate_only vol w1) = false ->
  (exists w2,
     rotation p conn (pre ++ [vol]) rotate_only w = (Ok tt, w2) /\
     w_calls w2 =
       w_calls w1 ++ DescribeSnapshots (volume_filters vol rotate_only)
                  :: map delete_call (marked p rotate_only vol w1) /\
     logged_errors w2 =
       logged_errors w1
       ++ map (fun _ => ClientError "InvalidSnapshot.InUse")
              (filter (busy (w_delete_fault w1)) (marked p rotate_only vol w1)) /\
     (forall b, In b (marked p rotate_only vol w1) ->
                deletable (w_delete_fault w1) b = true ->
                In (delete_call b) (w_calls w2) /\ ~ In b (w_snapshots w2))) /\
  (only_in_use_faults w ->
   (exists w3 more,
      rotation p conn (pre ++ vol :: post) rotate_only w = (Ok tt, w3) /\
      w_calls w3 =
        w_calls w1 ++ DescribeSnapshots (volume_filters vol rotate_only)
                   :: map delete_call (marked p rotate_only vol w1) ++ more /\
      (forall b, In b (marked p rotate_only vol w1) ->
                 deletable (w_delete_fault w1) b = true ->
                 ~ In b (w_snapshots w3))) /\
   (forall volumes,
      exists w', rotation p conn volumes rotate_only w = (Ok tt, w'))).
Proof.
  intros Hpre H. split.
  - destruct (rotate_volume_tolerated p conn rotate_only vol w1 H)
      as (w2 & Hrun & _ & Hc & He & Hsn).
    exists w2. split; [rewrite (rotation_snoc _ _ _ _ _ _ _ Hpre); exact Hrun|].
    split; [exact Hc|]. split; [exact He|].
    intros b Hb Hd. split.
    + rewrite Hc. apply in_or_app. right. right. apply in_map, Hb.
    + rewrite Hsn. intros Hin. apply filter_In in Hin. destruct Hin as [_ Hs].
      rewrite (survives_own _ _ _ Hb Hd) in Hs. discriminate.
  - intros Hall. split.
    + pose proof (same_env_only_in_use _ _
                    (rotation_same_env _ _ _ _ _ _ _ Hpre) Hall) as Hall1.
      destruct (rotation_through p conn rotate_only pre vol post w w1 Hpre)
        as (r & w3 & done & rest & more & Hrun & Hsplit & Hc & _ & Hgone & Hok).
      destruct (Hok H) as [-> Hr]. rewrite (Hr Hall1) in Hrun.
      rewrite app_nil_r in Hsplit. rewrite <- Hsplit in Hc, Hgone.
      exists w3, more. split; [exact Hrun|]. split; [exact Hc | exact Hgone].
    + intros volumes. rewrite rotation_eq.
      destruct (for_each_volumes_tolerated p conn rotate_only volumes
                  (banner p w))
        as (w' & Hrun & _).
      * destruct p; exact Hall.
      * exists w'. exact Hrun.
Qed.

Lemma in_use_tolerance_witness :
  let w := sample_world fault_c_in_use in
  let p := CountPolicy 1 in
  let w1 := snd (rotation p sample_conn ["vol-2"] false w) in
  rotation p sample_conn ["vol-2"] false w = (Ok tt, w1) /\
  existsb (fatal (w_delete_fault w1)) (marked p false "vol-1" w1) = false /\
  (exists w2,
     rotation p sample_conn ["vol-2"; "vol-1"] false w = (Ok tt, w2) /\
     w_calls w2 =
       [DescribeSnapshots (volume_filters "vol-2" false);
        DeleteSnapshot "snap-e";
        DescribeSnapshots (volume_filters "vol-1" false);
        DeleteSnapshot "snap-d"; DeleteSnapshot "snap-c"; DeleteSnapshot "snap-a"] /\
     logged_errors w2 = [ClientError "InvalidSnapshot.InUse"] /\
     ~ In snap_a (w_snapshots w2)) /\
  (exists w3,
     rotation p sample_conn ["vol-2"; "vol-1"; "vol-2"] false w = (Ok tt, w3) /\
     ~ In snap_a (w_snapshots w3)).
Proof.
  intros w p w1.
  split; [reflexivity|]. split; [reflexivity|].
  destruct (in_use_tolerance p sample_conn false ["vol-2"] "vol-1" ["vol-2"]
              w w1 eq_refl eq_refl)
    as ((w2 & Hrun & Hc & He & Hdel) & Hcall).
  split.
  - exists w2. split; [exact Hrun|].
    split; [rewrite Hc; reflexivity|]. split; [rewrite He; reflexivity|].
    apply (Hdel snap_a); [right; right; left; reflexivity | reflexivity].
  - destruct Hcall as ((w3 & more & Hrun3 & _ & Hgone) & _).
    { intros id c. unfold w, sample_world, fault_c_in_use. simpl.
      destruct (String.eqb id "snap-c"); intros E; inversion E. reflexivity. }
    exists w3. split; [exact Hrun3|].
    apply (Hgone snap_a); [right; right; left; reflexivity | reflexivity].
Defined.

(** C4, as the code has it.  A deletion answered with an error other than
    in-use, on a marked snapshot of volume [X], is raised out of the whole
    rotation call: the volumes that come before [X] in the input have
    completed, the remaining deletions of [X] are not attempted, and no
    volume that comes after [X] is processed (the failing deletion is the
    last API call). *)
Theorem fatal_error_aborts_call p conn rotate_only pre X post w w1 l1 s l2 c :
  for_each pre (rotate_volume p conn rotate_only) (banner p w) = (Ok tt, w1) ->
  marked p rotate_only X w1 = l1 ++ s :: l2 ->
  existsb (fatal (w_delete_fault w1)) l1 = false ->
  w_delete_fault w1 (Snapshot.SnapshotId s) = Some c ->
  in_use c = false ->
  exists w2,
    rotation p conn (pre ++ X :: post) rotate_only w
      = (Raise (ClientError c), w2) /\
    w_calls w2 =
      w_calls w1 ++ DescribeSnapshots (volume_filters X rotate_only)
                 :: map delete_call (l1 ++ [s]) /\
    w_snapshots w2 = filter (survives (w_delete_fault w1) l1) (w_snapshots w1).
Proof.
  intros Hpre Hm H1 Hc Hu.
  destruct (rotate_volume_fatal p conn rotate_only X w1 l1 s l2 c Hm H1 Hc Hu)
    as (w2 & Hrun & _ & Hcalls & Hsn).
  exists w2. rewrite rotation_eq, for_each_app, Hpre, for_each_cons, Hrun.
  split; [reflexivity|]. split; [exact Hcalls | exact Hsn].
Qed.

Lemma fatal_error_aborts_call_witness :
  let w := sample_world fault_c_internal in
  let p := CountPolicy 1 in
  let w1 := snd (for_each ["vol-2"] (rotate_volume p sample_conn false)
                          (banner p w)) in
  for_each ["vol-2"] (rotate_volume p sample_conn false) (banner p w)
    = (Ok tt, w1) /\
  marked p false "vol-1" w1 = [snap_d] ++ snap_c :: [snap_a] /\
  existsb (fatal (w_delete_fault w1)) [snap_d] = false /\
  w_delete_fault w1 (Snapshot.SnapshotId snap_c) = Some "InternalError" /\
  in_use "InternalError" = false /\
  exists w2,
    rotation p sample_conn (["vol-2"] ++ "vol-1" :: ["vol-2"]) false w
      = (Raise (ClientError "InternalError"), w2) /\
    w_calls w2 =
      [DescribeSnapshots (volume_filters "vol-2" false);
       DeleteSnapshot "snap-e";
       DescribeSnapshots (volume_filters "vol-1" false);
       DeleteSnapshot "snap-d"; DeleteSnapshot "snap-c"] /\
    map Snapshot.SnapshotId (w_snapshots w2) =
      ["snap-a"; "snap-b"; "snap-c"; "snap-f"].
Proof.
  intros w p w1.
  repeat (split; [reflexivity|]).
  destruct (fatal_error_aborts_call p sample_conn false ["vol-2"] "vol-1"
              ["vol-2"] w w1 [snap_d] snap_c [snap_a] "InternalError"
              eq_refl eq_refl eq_refl eq_refl eq_refl)
    as (w2 & Hrun & Hc & Hsn).
  exists w2. split; [exact Hrun|].
  split; [rewrite Hc | rewrite Hsn]; reflexivity.
Defined.

(** C4, as stated, fails: with ["vol-1"; "vol-2"] to rotate and a fatal
    answer on a marked snapshot of [vol-1], the call raises and [vol-2],
    which comes after, is never rotated: its marked snapshot [snap-e] is
    not deleted, though rotating [vol-2] alone deletes it. *)
Lemma fatal_error_skips_later_volume :
  let w := sample_world fault_c_internal in
  let run := rotate_snapshots sample_conn ["vol-1"; "vol-2"] 1 false w in
  marked (CountPolicy 1) false "vol-2" w = [snap_e] /\
  fst run = Raise (ClientError "InternalError") /\
  ~ In (DeleteSnapshot "snap-e") (w_calls (snd run)) /\
  In snap_e (w_snapshots (snd run)) /\
  ~ In snap_e (w_snapshots (snd (rotate_snapshots sample_conn ["vol-2"] 1
                                                  false w))).
Proof.
  cbv zeta. split; [reflexivity|]. split; [reflexivity|].
  split; [|split].
  - vm_compute. intros H.
    repeat (destruct H as [H|H]; [discriminate H|]). exact H.
  - vm_compute. auto 10.
  - vm_compute. intros H.
    repeat (destruct H as [H|H]; [discriminate H|]). exact H.
Qed.

(** A snapshot that holds its identifier alone in a listing and fails
    the age test at its reading is not marked, and neither is any
    snapshot bearing its identifier. *)
Lemma days_marked_spared rotate clock t l j s :
  nth_error l j = Some s ->
  age_days (clock (t + j)%nat) s < rotate ->
  (forall j' s', nth_error l j' = Some s' ->
                 Snapshot.SnapshotId s' = Snapshot.SnapshotId s -> j' = j) ->
  forall d, In d (days_marked rotate clock t l) ->
            Snapshot.SnapshotId d <> Snapshot.SnapshotId s.
Proof.
  intros Hj Hage Huniq d Hd Hid.
  apply days_marked_In in Hd. destruct Hd as (j' & Hj' & Ha).
  pose proof (Huniq j' d Hj' Hid) as ->.
  rewrite Hj in Hj'. inversion Hj'; subst. lia.
Qed.

(** C2, as the code has it, on [rotate_days_snapshots].  Age-based
    rotation: when the call has gone through the volumes before [vol],
    a snapshot of the listing of [vol] is marked if and only if its age
    in whole days, at the clock reading taken when the loop reaches it,
    is at least [maxAgeDays].  The age is [timedelta.days]: the elapsed
    time divided by one day and rounded down, which is the truncated age
    whenever the snapshot is not dated after the reading.  There is no
    count floor: with [maxAgeDays = 0] every snapshot not dated after
    its reading is marked.  The call lists [vol] and issues the
    deletions of an initial segment of the marked snapshots, in order,
    and of all of them when no fatal answer interrupts.  A snapshot
    created exactly [maxAgeDays] days before its reading is marked, and
    once all the marked deletions are issued its deletion is among them
    and, if the service accepts it, the snapshot has left the account; a
    snapshot created exactly [maxAgeDays - 1] days before its reading,
    alone in the listing with its identifier, is not marked: no deletion
    names it and it is still in the account.  In a call with further
    volumes, the calls that follow are on those volumes only. *)
Theorem days_rotation_selection conn rotate rotate_only pre vol post w w1 :
  let snaps := fetched vol rotate_only w1 in
  let reading j := w_clock w1 (w_ticks w1 + j)%nat in
  let aged := days_marked rotate (w_clock w1) (w_ticks w1) snaps in
  let alone j s :=
    forall j' s', nth_error snaps j' = Some s' ->
                  Snapshot.SnapshotId s' = Snapshot.SnapshotId s -> j' = j in
  rotate_days_snapshots conn pre rotate rotate_only w = (Ok tt, w1) ->
  (forall s, In s aged <->
             exists j, nth_error snaps j = Some s /\
                       rotate <= age_days (reading j) s) /\
  (forall now s,
     age_days now s = (instant now - instant (Snapshot.StartTime s)) / DAY_US /\
     (instant (Snapshot.StartTime s) <= instant now ->
      age_days now s = spec_age_days now s)) /\
  (rotate = 0 ->
   (forall j s, nth_error snaps j = Some s ->
                instant (Snapshot.StartTime s) <= instant (reading j)) ->
   aged = snaps) /\
  (forall j s, nth_error snaps j = Some s ->
     (instant (reading j) - instant (Snapshot.StartTime s) = rotate * DAY_US ->
      In s aged) /\
     (instant (reading j) - instant (Snapshot.StartTime s)
        = (rotate - 1) * DAY_US ->
      alone j s -> ~ In s aged)) /\
  (exists r w2 done rest,
     rotate_days_snapshots conn (pre ++ [vol]) rotate rotate_only w = (r, w2) /\
     aged = done ++ rest /\
     w_calls w2 =
       w_calls w1 ++ DescribeSnapshots (volume_filters vol rotate_only)
                  :: map delete_call done /\
     w_snapshots w2 =
       filter (survives (w_delete_fault w1) done) (w_snapshots w1) /\
     (existsb (fatal (w_delete_fault w1)) aged = false ->
      r = Ok tt /\ rest = []) /\
     (forall j s, nth_error snaps j = Some s ->
        instant (reading j) - instant (Snapshot.StartTime s) = rotate * DAY_US ->
        rest = [] ->
        In (delete_call s) (w_calls w2) /\
        (deletable (w_delete_fault w1) s = true -> ~ In s (w_snapshots w2))) /\
     (forall j s, nth_error snaps j = Some s ->
        instant (reading j) - instant (Snapshot.StartTime s)
          = (rotate - 1) * DAY_US ->
        alone j s ->
        ~ In (delete_call s) (map delete_call done) /\
        In s (w_snapshots w2))) /\
  (exists r w3 done rest more,
     rotate_days_snapshots conn (pre ++ vol :: post) rotate rotate_only w
       = (r, w3) /\
     aged = done ++ rest /\
     w_calls w3 =
       w_calls w1 ++ DescribeSnapshots (volume_filters vol rotate_only)
                  :: map delete_call done ++ more /\
     Forall (rotation_call rotate_only post (w_snapshots w1)) more /\
     (existsb (fatal (w_delete_fault w1)) aged = false -> rest = [])).
Proof.
  intros snaps reading aged alone Hpre.
  assert (Hm : marked (AgePolicy rotate) rotate_only vol w1 = aged)
    by reflexivity.
  assert (Hat : forall j s, nth_error snaps j = Some s ->
            instant (reading j) - instant (Snapshot.StartTime s)
              = rotate * DAY_US -> In s aged).
  { intros j s Hj Hage. apply days_marked_In. exists j. split; [exact Hj|].
    unfold reading in Hage. rewrite (age_days_exact _ _ _ Hage). lia. }
  assert (Hbelow : forall j s, nth_error snaps j = Some s ->
            instant (reading j) - instant (Snapshot.StartTime s)
              = (rotate - 1) * DAY_US ->
            alone j s ->
            forall d, In d aged ->
                      Snapshot.SnapshotId d <> Snapshot.SnapshotId s).
  { intros j s Hj Hage Hal.
    apply (days_marked_spared rotate (w_clock w1) (w_ticks w1) snaps j s Hj);
      [|exact Hal].
    unfold reading in Hage. rewrite (age_days_exact _ _ _ Hage). lia. }
  split; [intros s; apply days_marked_In|].
  split; [intros now s; split;
          [apply age_days_floor | apply age_days_truncated]|].
  split.
  { intros -> Hpast. apply days_marked_all. intros j s Hj.
    apply age_days_nonneg, Hpast, Hj. }
  split.
  { intros j s Hj. split; [apply (Hat j s Hj)|].
    intros Hage Hal Hin. exact (Hbelow j s Hj Hage Hal s Hin eq_refl). }
  split.
  - destruct (rotate_volume_outcome (AgePolicy rotate) conn rotate_only vol w1)
      as (r & w2 & done & rest & Hrun & Hsplit & _ & Hc & Hsn & Hok).
    rewrite Hm in Hsplit, Hok.
    exists r, w2, done, rest.
    split.
    { rewrite <- Hrun.
      exact (rotation_snoc (AgePolicy rotate) conn rotate_only pre vol w w1
               Hpre). }
    split; [exact Hsplit|]. split; [exact Hc|]. split; [exact Hsn|].
    split; [exact Hok|]. split.
    + intros j s Hj Hage Hrest.
      assert (Hin : In s done).
      { rewrite Hrest, app_nil_r in Hsplit. rewrite <- Hsplit.
        exact (Hat j s Hj Hage). }
      split.
      * rewrite Hc. apply in_or_app. right. right. apply in_map, Hin.
      * intros Hd Hleft. rewrite Hsn in Hleft. apply filter_In in Hleft.
        destruct Hleft as [_ Hs]. rewrite (survives_own _ _ _ Hin Hd) in Hs.
        discriminate.
    + intros j s Hj Hage Hal.
      assert (Hids : forall d, In d done ->
                Snapshot.SnapshotId d <> Snapshot.SnapshotId s).
      { intros d Hd. apply (Hbelow j s Hj Hage Hal).
        rewrite Hsplit. apply in_or_app. left. exact Hd. }
      split.
      * intros Hin. apply in_map_iff in Hin. destruct Hin as (d & Heq & Hd).
        apply (Hids d Hd). unfold delete_call in Heq. inversion Heq.
        reflexivity.
      * rewrite Hsn. apply filter_In. split.
        -- apply nth_error_In in Hj. unfold snaps, fetched in Hj.
           apply filter_In in Hj. apply Hj.
        -- apply survives_other_ids, Hids.
  - destruct (rotation_through (AgePolicy rotate) conn rotate_only pre vol
                post w w1 Hpre)
      as (r & w3 & done & rest & more & Hrun & Hsplit & Hc & Hall & _ & Hok).
    rewrite Hm in Hsplit, Hok.
    exists r, w3, done, rest, more.
    split; [exact Hrun|]. split; [exact Hsplit|]. split; [exact Hc|].
    split; [exact Hall|]. intros Hf. apply (Hok Hf).
Qed.

Lemma days_rotation_selection_witness :
  let w := sample_world no_faults in
  let w1 := snd (rotate_days_snapshots sample_conn ["vol-2"] 8 false w) in
  rotate_days_snapshots sample_conn ["vol-2"] 8 false w = (Ok tt, w1) /\
  nth_error (fetched "vol-1" false w1) 2 = Some snap_c /\
  instant (w_clock w1 (w_ticks w1 + 2)%nat) - instant (Snapshot.StartTime snap_c)
    = 8 * DAY_US /\
  nth_error (fetched "vol-1" false w1) 1 = Some snap_b /\
  instant (w_clock w1 (w_ticks w1 + 1)%nat) - instant (Snapshot.StartTime snap_b)
    = (8 - 1) * DAY_US /\
  In snap_c (marked (AgePolicy 8) false "vol-1" w1) /\
  ~ In snap_b (marked (AgePolicy 8) false "vol-1" w1) /\
  exists w2,
    rotate_days_snapshots sample_conn ["vol-2"; "vol-1"] 8 false w
      = (Ok tt, w2) /\
    w_calls w2 =
      [DescribeSnapshots (volume_filters "vol-2" false);
       DeleteSnapshot "snap-e";
       DescribeSnapshots (volume_filters "vol-1" false);
       DeleteSnapshot "snap-a"; DeleteSnapshot "snap-c"] /\
    In snap_b (w_snapshots w2).
Proof.
  intros w w1.
  split; [reflexivity|]. split; [reflexivity|]. split; [reflexivity|].
  split; [reflexivity|]. split; [reflexivity|].
  assert (Halone : forall j' s',
            nth_error (fetched "vol-1" false w1) j' = Some s' ->
            Snapshot.SnapshotId s' = Snapshot.SnapshotId snap_b -> j' = 1%nat).
  { intros j' s' Hj' Hid.
    destruct j' as [|[|[|[|[|j']]]]]; vm_compute in Hj';
      try discriminate Hj'; try reflexivity;
      injection Hj' as Hs'; subst s'; vm_compute in Hid; discriminate Hid. }
  destruct (days_rotation_selection sample_conn 8 false ["vol-2"] "vol-1" []
              w w1 eq_refl)
    as (_ & _ & _ & Hedge
        & (r & w2 & done & rest & Hrun & Hsplit & Hc & _ & Hok & _ & Hspared)
        & _).
  split; [apply (proj1 (Hedge 2%nat snap_c eq_refl)); reflexivity|].
  split; [apply (proj2 (Hedge 1%nat snap_b eq_refl)); [reflexivity | exact Halone]|].
  destruct (Hok eq_refl) as [-> ->]. exists w2. split; [exact Hrun|].
  rewrite app_nil_r in Hsplit.
  split; [rewrite Hc, <- Hsplit; reflexivity|].
  apply (Hspared 1%nat snap_b eq_refl); [reflexivity | exact Halone].
Defined.

(** C2, as stated, fails: with [maxAgeDays = 0] a snapshot dated one
    second after the clock reading has truncated age 0, which is not
    below 0, yet the loop does not mark it: [timedelta.days] is -1. *)
Lemma age_zero_keeps_snapshot_dated_ahead :
  let run := rotate_days_snapshots sample_conn ["vol-3"] 0 false skewed_world in
  fetched "vol-3" false skewed_world = [snap_g] /\
  spec_age_days (w_clock skewed_world 0%nat) snap_g = 0 /\
  age_days (w_clock skewed_world 0%nat) snap_g = -1 /\
  marked (AgePolicy 0) false "vol-3" skewed_world = [] /\
  fst run = Ok tt /\
  w_calls (snd run) = [DescribeSnapshots (volume_filters "vol-3" false)] /\
  w_snapshots (snd run) = [snap_g].
Proof. cbv zeta. repeat split. Qed.

(** ** The scope filter *)

Lemma generate_description_eq w :
  generate_description w = (Ok (current_description (w_clock w (w_ticks w))), tick w).
Proof. reflexivity. Qed.

(** No description the module generates is in [OLD_DESCRIPTION]. *)
Lemma current_description_not_old now :
  str_in (current_description now) OLD_DESCRIPTION = false.
Proof. reflexivity. Qed.

(** Hence a snapshot carrying a generated description is never marked
    when [rotate_only] is set, under either policy. *)
Lemma rotate_only_never_marks_current p vol w s now :
  Snapshot.Description s = current_description now ->
  ~ In s (marked p true vol w).
Proof.
  intros Hd Hm. apply marked_fetched, fetched_rotate_only in Hm.
  destruct Hm as (_ & _ & Hold). rewrite Hd in Hold.
  pose proof (current_description_not_old now) as Hnot.
  assert (Hin : str_in (current_description now) OLD_DESCRIPTION = true).
  { apply existsb_exists. exists (current_description now).
    split; [exact Hold | apply String.eqb_refl]. }
  congruence.
Qed.

(** A snapshot that matches no entry of [OLD_DESCRIPTION] is never
    marked when [rotate_only] is set, whatever its age or rank. *)
Lemma rotate_only_never_marks_unmatched p vol w s :
  ~ In (Snapshot.Description s) OLD_DESCRIPTION ->
  ~ In s (marked p true vol w).
Proof.
  intros Hd Hm. apply marked_fetched, fetched_rotate_only in Hm.
  apply Hd, Hm.
Qed.

(** C5, at the failing input.  The two snapshots of [vol-4] carry the
    description the module generates today.  With [rotate_only] the
    description filter sent to the service holds only the three entries
    of [OLD_DESCRIPTION]; neither snapshot is listed, and rotation with
    [keep = 1] deletes nothing, while without [rotate_only] the same
    rotation deletes the older one. *)
Theorem rotate_only_misses_current_description :
  Snapshot.Description snap_i
    = "osc-bsu-backup: Automated volume snapshot - 2024-03-09 10:00:00 UTC" /\
  volume_filters "vol-4" true
    = [mkFilter "volume-id" ["vol-4"];
       mkFilter "description"
                ["osc-bsu-backup 0.1"; "osc-bsu-backup 0.0.2";
                 "osc-bsu-backup 0.0.1"]] /\
  fetched "vol-4" true created_world = [] /\
  rotate_snapshots sample_conn ["vol-4"] 1 true created_world
    = (Ok tt,
       record_call (DescribeSnapshots (volume_filters "vol-4" true))
                   (record_log (INFO "rotate_snapshot: %d") created_world)) /\
  w_calls (snd (rotate_snapshots sample_conn ["vol-4"] 1 false created_world))
    = [DescribeSnapshots (volume_filters "vol-4" false);
       DeleteSnapshot "snap-h"].
Proof. repeat split. Qed.

(** ** The locator *)

(** A loop whose body appends [g x] to the accumulator appends
    [flat_map g l] in all. *)
Lemma for_acc_collect {A B} (g : A -> list B) (body : list B -> A -> M (list B))
    (l : list A) :
  (forall acc x w, exists w', body acc x w = (Ok (acc ++ g x), w')) ->
  forall acc w, exists w', for_acc l acc body w = (Ok (acc ++ flat_map g l), w').
Proof.
  intros Hbody. induction l as [|x l IH]; intros acc w; simpl.
  - exists w. rewrite app_nil_r. reflexivity.
  - unfold bind. destruct (Hbody acc x w) as (w1 & ->).
    destruct (IH (acc ++ g x) w1) as (w' & ->).
    exists w'. rewrite app_assoc. reflexivity.
Qed.

Lemma flat_map_singleton {A B} (f : A -> B) (l : list A) :
  flat_map (fun x => [f x]) l = map f l.
Proof. induction l; simpl; congruence. Qed.

Lemma collect_reservations (rs : list Reservation.t) acc w :
  exists w',
    for_acc rs acc
      (fun volumes reservation =>
         for_acc (Reservation.Instances reservation) volumes
           (fun volumes instance =>
              logger_info "instance found: %s %s" ;;;
              for_acc (Instance.BlockDeviceMappings instance) volumes
                (fun volumes vol =>
                   logger_info "volume found: %s %s" ;;;
                   ret (volumes ++ [Ebs.VolumeId (BlockDeviceMapping.Ebs vol)]))))
      w
    = (Ok (acc ++ attached_volumes rs), w').
Proof.
  unfold attached_volumes.
  apply (for_acc_collect
           (fun r => flat_map mapped_volumes (Reservation.Instances r))).
  intros acc1 r w1. apply (for_acc_collect mapped_volumes).
  intros acc2 i w2. unfold bind at 1, logger_info at 1. unfold mapped_volumes.
  rewrite <- flat_map_singleton.
  apply (for_acc_collect
           (fun m => [Ebs.VolumeId (BlockDeviceMapping.Ebs m)])).
  intros acc3 m w3. eexists. reflexivity.
Qed.

Lemma tag_filter_eq tag w :
  tag_filter tag w =
  match split ":" tag with
  | k :: v :: _ => (Ok (mkFilter ("tag:" ++ k)%string [v]), w)
  | _ => (Raise IndexError, w)
  end.
Proof.
  unfold tag_filter, bind, getitem.
  destruct (split ":" tag) as [|k [|v l]]; reflexivity.
Qed.

Lemma list_comp_tag_filters tags fs w :
  tag_filters tags = Some fs -> list_comp tag_filter tags w = (Ok fs, w).
Proof.
  revert fs. induction tags as [|tag tags IH]; intros fs; simpl.
  - intros [= <-]. reflexivity.
  - unfold bind. rewrite tag_filter_eq.
    destruct (split ":" tag) as [|k [|v l]]; try discriminate.
    destruct (tag_filters tags) as [fs'|]; [|discriminate].
    intros [= <-]. rewrite (IH fs' eq_refl). reflexivity.
Qed.

Lemma find_instance_by_id_eq conn instance_id w :
  exists w',
    find_instance_by_id conn instance_id w
    = (Ok (attached_volumes
             (select_reservations [instance_id] [] (w_reservations w))), w').
Proof.
  unfold find_instance_by_id, bind at 1 2.
  unfold logger_info at 1, describe_instances. cbn [Reservations get_or_empty].
  apply (collect_reservations _ []).
Qed.

Lemma find_instances_by_tags_eq conn tags filters w :
  tag_filters tags = Some filters ->
  exists w',
    find_instances_by_tags conn tags w
    = (Ok (attached_volumes
             (select_reservations [] (state_filter :: filters)
                                  (w_reservations w))), w').
Proof.
  intros Hf. unfold find_instances_by_tags, bind at 1 2.
  unfold logger_info at 1.
  rewrite (list_comp_tag_filters _ _ _ Hf). unfold bind at 1.
  unfold describe_instances. cbn [Reservations get_or_empty].
  apply (collect_reservations _ []).
Qed.

Lemma find_volumes_by_tags_eq conn tags filters w :
  tag_filters tags = Some filters ->
  exists w',
    find_volumes_by_tags conn tags w
    = (Ok (map Volume.VolumeId (select_volumes filters (w_volumes w))), w').
Proof.
  intros Hf. unfold find_volumes_by_tags, bind at 1 2.
  unfold logger_info at 1.
  rewrite (list_comp_tag_filters _ _ _ Hf). unfold bind at 1.
  unfold describe_volumes. cbn [Volumes get_or_empty].
  rewrite <- flat_map_singleton.
  apply (for_acc_collect (fun v => [Volume.VolumeId v]) _ _) with (acc := []).
  intros acc v w1. eexists. reflexivity.
Qed.

(** C7, as the code has it.  Each locator returns the volume identifiers
    of the service's answer, in the answer's order and one per entry
    (per block-device mapping of each listed instance, or per listed
    volume); nothing is removed, so the result has a repeated identifier
    exactly when the answer has one. *)
Theorem locator_lists_every_entry conn tags filters w :
  tag_filters tags = Some filters ->
  (forall instance_id, exists w',
     find_instance_by_id conn instance_id w
     = (Ok (attached_volumes
              (select_reservations [instance_id] [] (w_reservations w))), w')) /\
  (exists w',
     find_instances_by_tags conn tags w
     = (Ok (attached_volumes
              (select_reservations [] (state_filter :: filters)
                                   (w_reservations w))), w')) /\
  (exists w',
     find_volumes_by_tags conn tags w
     = (Ok (map Volume.VolumeId (select_volumes filters (w_volumes w))), w')).
Proof.
  intros Hf. split; [|split].
  - intros instance_id. apply find_instance_by_id_eq.
  - apply find_instances_by_tags_eq, Hf.
  - apply find_volumes_by_tags_eq, Hf.
Qed.

Lemma locator_lists_every_entry_witness :
  tag_filters ["Name:web"] = Some [mkFilter "tag:Name" ["web"]] /\
  (exists w',
     find_instance_by_id sample_conn "i-1" fleet_world
     = (Ok ["vol-1"; "vol-9"], w')) /\
  (exists w',
     find_volumes_by_tags sample_conn ["Name:web"] fleet_world
     = (Ok ["vol-1"; "vol-2"], w')).
Proof.
  split; [reflexivity|].
  destruct (locator_lists_every_entry sample_conn ["Name:web"]
              [mkFilter "tag:Name" ["web"]] fleet_world eq_refl)
    as (Hid & _ & w2 & Hvol).
  destruct (Hid "i-1") as (w1 & Hinst).
  split; [exists w1; exact Hinst | exists w2; exact Hvol].
Defined.

(** C7, as stated, fails: two listed instances share a volume, and the
    locator returns its identifier twice. *)
Lemma locator_returns_shared_volume_twice :
  fst (find_instances_by_tags sample_conn ["Name:web"] fleet_world)
    = Ok ["vol-1"; "vol-9"; "vol-2"; "vol-9"] /\
  ~ NoDup ["vol-1"; "vol-9"; "vol-2"; "vol-9"].
Proof.
  split; [reflexivity|].
  intros H. inversion H as [|? ? _ H1]. inversion H1 as [|? ? Hnot _].
  apply Hnot. right. left. reflexivity.
Qed.

(** ** Tag queries *)

Lemma split_not_nil sep s : split sep s <> [].
Proof.
  destruct s as [|c s]; simpl; [discriminate|].
  destruct (Ascii.eqb c sep); [discriminate|].
  destruct (split sep s); discriminate.
Qed.

Lemma split_without sep s : contains sep s = false -> split sep s = [s].
Proof.
  induction s as [|c s IH]; simpl; [reflexivity|].
  intros H. apply orb_false_iff in H. destruct H as [Hc Hs].
  rewrite Hc, (IH Hs). reflexivity.
Qed.

Lemma split_first sep k rest :
  contains sep k = false ->
  split sep (k ++ String sep rest) = k :: split sep rest.
Proof.
  induction k as [|c k IH]; simpl; intros H.
  - rewrite Ascii.eqb_refl. reflexivity.
  - apply orb_false_iff in H. destruct H as [Hc Hk].
    rewrite Hc, (IH Hk). reflexivity.
Qed.

Lemma partition_first_at sep k rest :
  contains sep k = false ->
  partition_first sep (k ++ String sep rest) = Some (k, rest).
Proof.
  induction k as [|c k IH]; simpl; intros H.
  - rewrite Ascii.eqb_refl. reflexivity.
  - apply orb_false_iff in H. destruct H as [Hc Hk].
    rewrite Hc, (IH Hk). reflexivity.
Qed.

Lemma tag_filters_length tags :
  forall fs, tag_filters tags = Some fs -> List.length fs = List.length tags.
Proof.
  induction tags as [|tag tags IH]; simpl; intros fs.
  - intros [= <-]. reflexivity.
  - destruct (split ":" tag) as [|k [|v l]]; try discriminate.
    destruct (tag_filters tags) as [fs'|]; [|discriminate].
    intros [= <-]. simpl. rewrite (IH fs' eq_refl). reflexivity.
Qed.

Lemma volume_matches_tag v k x :
  volume_matches v (mkFilter ("tag:" ++ k)%string [x])
  = existsb (fun t => String.eqb (Key t) k && String.eqb (Value t) x)
            (Volume.Tags v).
Proof.
  unfold volume_matches, has_tag, str_in. simpl.
  induction (Volume.Tags v) as [|t ts IH]; simpl; [reflexivity|].
  rewrite IH, orb_false_r. reflexivity.
Qed.

Lemma select_volumes_In filters vs x :
  In x (map Volume.VolumeId (select_volumes filters vs)) <->
  exists v, In v vs /\ Volume.VolumeId v = x /\
            forall f, In f filters -> volume_matches v f = true.
Proof.
  rewrite in_map_iff. unfold select_volumes. split.
  - intros (v & Hx & Hin). apply filter_In in Hin. destruct Hin as [Hin Hall].
    exists v. split; [exact Hin|]. split; [exact Hx|].
    apply forallb_forall, Hall.
  - intros (v & Hin & Hx & Hall). exists v. split; [exact Hx|].
    apply filter_In. split; [exact Hin | apply forallb_forall, Hall].
Qed.

Lemma instance_selected_by_tags filters i :
  instance_selected [] (state_filter :: filters) i = true <->
  str_in (Instance.State i) ["running"; "stopped"] = true /\
  forall f, In f filters -> instance_matches i f = true.
Proof.
  unfold instance_selected. cbn [forallb andb].
  rewrite andb_true_iff, forallb_forall. reflexivity.
Qed.

Lemma attached_selected_In filters rs x :
  In x (attached_volumes (select_reservations [] (state_filter :: filters) rs))
  <->
  exists r i,
    In r rs /\ In i (Reservation.Instances r) /\
    str_in (Instance.State i) ["running"; "stopped"] = true /\
    (forall f, In f filters -> instance_matches i f = true) /\
    In x (mapped_volumes i).
Proof.
  unfold attached_volumes, select_reservations. rewrite in_flat_map. split.
  - intros (r' & Hr' & Hx). apply filter_In in Hr'. destruct Hr' as [Hr' _].
    apply in_map_iff in Hr'. destruct Hr' as (r & <- & Hr).
    cbn [Reservation.Instances] in Hx. apply in_flat_map in Hx.
    destruct Hx as (i & Hi & Hx). apply filter_In in Hi.
    destruct Hi as [Hi Hsel]. apply instance_selected_by_tags in Hsel.
    destruct Hsel as [Hstate Hall].
    exists r, i. repeat split; assumption.
  - intros (r & i & Hr & Hi & Hstate & Hall & Hx).
    assert (Hin : In i (filter (instance_selected [] (state_filter :: filters))
                               (Reservation.Instances r))).
    { apply filter_In. split; [exact Hi|].
      apply instance_selected_by_tags. split; assumption. }
    exists (Reservation.mk
              (filter (instance_selected [] (state_filter :: filters))
                      (Reservation.Instances r))).
    split.
    + apply filter_In. split.
      * apply in_map_iff. exists r. split; [reflexivity | exact Hr].
      * cbn [Reservation.Instances].
        destruct (filter (instance_selected [] (state_filter :: filters))
                         (Reservation.Instances r)); [destruct Hin | reflexivity].
    + cbn [Reservation.Instances]. apply in_flat_map. exists i.
      split; assumption.
Qed.

(** C8, as the code has it.  The filter built from a tag has for key the
    text before the first colon and for value the text between the first
    colon and the next one: the whole remainder when the value holds no
    colon, and only its first segment otherwise.  A query builds one
    single-valued filter per entry, and the service lists a resource only
    if it satisfies every filter: a volume is found when it carries every
    tag asked for, and the volumes of an instance when the instance is
    running or stopped and carries every tag asked for. *)
Theorem tag_filter_fields conn key value rest tags filters w :
  contains ":" key = false ->
  contains ":" value = false ->
  tag_filters tags = Some filters ->
  tag_filter (key ++ ":" ++ value) w
    = (Ok (mkFilter ("tag:" ++ key) [value]), w) /\
  spec_tag_filter (key ++ ":" ++ value)
    = Some (mkFilter ("tag:" ++ key) [value]) /\
  tag_filter (key ++ ":" ++ value ++ ":" ++ rest) w
    = (Ok (mkFilter ("tag:" ++ key) [value]), w) /\
  (forall v, volume_matches v (mkFilter ("tag:" ++ key) [value])
             = existsb (fun t => String.eqb (Key t) key
                                 && String.eqb (Value t) value)
                       (Volume.Tags v)) /\
  List.length filters = List.length tags /\
  (exists found w',
     find_volumes_by_tags conn tags w = (Ok found, w') /\
     forall x, In x found <->
               exists v, In v (w_volumes w) /\ Volume.VolumeId v = x /\
                         forall f, In f filters -> volume_matches v f = true) /\
  (exists found w',
     find_instances_by_tags conn tags w = (Ok found, w') /\
     forall x, In x found <->
               exists r i,
                 In r (w_reservations w) /\ In i (Reservation.Instances r) /\
                 str_in (Instance.State i) ["running"; "stopped"] = true /\
                 (forall f, In f filters -> instance_matches i f = true) /\
                 In x (mapped_volumes i)).
Proof.
  intros Hk Hv Hf.
  split.
  { rewrite tag_filter_eq. change (":" ++ value)%string with (String ":" value).
    rewrite (split_first _ _ _ Hk), (split_without _ _ Hv). reflexivity. }
  split.
  { unfold spec_tag_filter. change (":" ++ value)%string with (String ":" value).
    rewrite (partition_first_at _ _ _ Hk). reflexivity. }
  split.
  { rewrite tag_filter_eq.
    change (":" ++ value ++ ":" ++ rest)%string
      with (String ":" (value ++ String ":" rest)).
    rewrite (split_first _ _ _ Hk), (split_first _ _ _ Hv). reflexivity. }
  split; [intros v; apply volume_matches_tag|].
  split; [apply tag_filters_length, Hf|].
  split.
  - destruct (find_volumes_by_tags_eq conn tags filters w Hf) as (w' & Hrun).
    eexists _, w'. split; [exact Hrun|]. intros x. apply select_volumes_In.
  - destruct (find_instances_by_tags_eq conn tags filters w Hf) as (w' & Hrun).
    eexists _, w'. split; [exact Hrun|]. intros x. apply attached_selected_In.
Qed.

Lemma tag_filter_fields_witness :
  contains ":" "env" = false /\
  contains ":" "a" = false /\
  tag_filters ["Name:web"; "env:a:b"]
    = Some [mkFilter "tag:Name" ["web"]; mkFilter "tag:env" ["a"]] /\
  tag_filter "env:a" fleet_world = (Ok (mkFilter "tag:env" ["a"]), fleet_world) /\
  tag_filter "env:a:b" fleet_world = (Ok (mkFilter "tag:env" ["a"]), fleet_world).
Proof.
  split; [reflexivity|]. split; [reflexivity|]. split; [reflexivity|].
  destruct (tag_filter_fields sample_conn "env" "a" "b" ["Name:web"; "env:a:b"]
              [mkFilter "tag:Name" ["web"]; mkFilter "tag:env" ["a"]]
              fleet_world eq_refl eq_refl eq_refl)
    as (Hone & _ & Htwo & _).
  split; [exact Hone | exact Htwo].
Defined.

(** C8, as stated, fails: the value of ["env:a:b"] is cut at its colon.
    The filter asks for [env = a], where the text after the first colon
    is [a:b], and the volume tagged [env = a:b] is not found. *)
Lemma tag_value_cut_at_second_colon :
  fst (tag_filter "env:a:b" fleet_world) = Ok (mkFilter "tag:env" ["a"]) /\
  spec_tag_filter "env:a:b" = Some (mkFilter "tag:env" ["a:b"]) /\
  fst (find_volumes_by_tags sample_conn ["env:a:b"] fleet_world) = Ok [] /\
  map Volume.VolumeId
      (select_volumes [mkFilter "tag:env" ["a:b"]] (w_volumes fleet_world))
    = ["vol-2"].
Proof. repeat split. Qed.

(** ** Authentication setup *)

Lemma auth_rejected profile region client_cert endpoint w :
  truthy endpoint = false ->
  region_in region default_region = false ->
  auth profile region client_cert endpoint w
  = (Raise (InputError InputError_message), w).
Proof.
  intros He Hr. unfold auth, bind. rewrite He, Hr. reflexivity.
Qed.

Lemma auth_checked profile region client_cert endpoint w :
  truthy endpoint = true \/ region_in region default_region = true ->
  auth profile region client_cert endpoint w =
  match w_client_fault w
          (client_request profile region (resolved_endpoint region endpoint)
                          client_cert) with
  | Some name => (Raise (BotoCoreError name), auth_logged w)
  | None =>
      match w_key_pairs w with
      | [] => (Raise IndexError, key_pairs_listed w)
      | first :: _ =>
          (Ok (client_request profile region
                              (resolved_endpoint region endpoint) client_cert),
           record_log (INFO_object first) (key_pairs_listed w))
      end
  end.
Proof.
  intros H. unfold auth, resolved_endpoint, key_pairs_listed, auth_logged.
  destruct (truthy endpoint) eqn:He, (region_in region default_region) eqn:Hr;
    try (destruct H; discriminate);
    unfold bind, getitem, describe_key_pairs, logger_info, logger_info_object,
      session_client, ret, raise; simpl;
    (match goal with |- context [w_client_fault w ?c] =>
       destruct (w_client_fault w c) end; [reflexivity|]);
    cbn [w_key_pairs record_log record_call KeyPairs nth_error];
    destruct (w_key_pairs w); reflexivity.
Qed.

(** C9.  Configuration error: when no endpoint is given (it is [None] or
    empty) and the region is unspecified or not one of the canonical
    regions, [auth] raises [InputError] at once, leaving the world as it
    was: no API call has been issued, and nothing logged.  When an
    endpoint is given or the region is canonical, [auth] raises no
    [InputError]. *)
Theorem auth_fails_fast profile region client_cert endpoint w :
  (truthy endpoint = false /\ region_in region default_region = false ->
   auth profile region client_cert endpoint w
   = (Raise (InputError InputError_message), w)) /\
  (truthy endpoint = true \/ region_in region default_region = true ->
   forall msg,
     fst (auth profile region client_cert endpoint w) <> Raise (InputError msg)) /\
  region_in None default_region = false.
Proof.
  split; [intros [He Hr]; apply auth_rejected; assumption|].
  split; [|reflexivity].
  intros H msg. rewrite (auth_checked _ _ _ _ _ H).
  destruct (w_client_fault w _); [discriminate|].
  destruct (w_key_pairs w); discriminate.
Qed.

Lemma auth_fails_fast_witness :
  (truthy None = false /\ region_in (Some "mars-1") default_region = false) /\
  auth None (Some "mars-1") None None fleet_world
    = (Raise (InputError InputError_message), fleet_world) /\
  (truthy None = true \/ region_in (Some "eu-west-2") default_region = true) /\
  fst (auth None (Some "eu-west-2") None None fleet_world)
    <> Raise (InputError InputError_message).
Proof.
  destruct (auth_fails_fast None (Some "mars-1") None None fleet_world)
    as (Hbad & _).
  destruct (auth_fails_fast None (Some "eu-west-2") None None fleet_world)
    as (_ & Hgood & _).
  split; [split; reflexivity|].
  split; [apply Hbad; split; reflexivity|].
  split; [right; reflexivity|].
  apply Hgood. right. reflexivity.
Defined.

(** C10, as the code has it.  Once the endpoint check has passed, [auth]
    has boto3 build the client.  When boto3 builds it, [auth] asks the
    service for the key pairs, exactly once, and indexes the first one:
    it raises [IndexError] when the account has no key pair, and returns
    the client when it has one.  When boto3 refuses to build the client,
    its error is raised after the three log lines and no request is
    sent, whatever key pairs the account has. *)
Theorem auth_indexes_first_key_pair profile region client_cert endpoint w :
  truthy endpoint = true \/ region_in region default_region = true ->
  let conn := client_request profile region (resolved_endpoint region endpoint)
                             client_cert in
  (w_client_fault w conn = None ->
   w_calls (snd (auth profile region client_cert endpoint w))
     = w_calls w ++ [DescribeKeyPairs] /\
   (w_key_pairs w = [] ->
    fst (auth profile region client_cert endpoint w) = Raise IndexError) /\
   (w_key_pairs w <> [] ->
    fst (auth profile region client_cert endpoint w) = Ok conn)) /\
  (forall name,
     w_client_fault w conn = Some name ->
     auth profile region client_cert endpoint w
     = (Raise (BotoCoreError name), auth_logged w)).
Proof.
  intros H conn. rewrite (auth_checked _ _ _ _ _ H). fold conn. split.
  - intros ->. destruct (w_key_pairs w) as [|first rest].
    + split; [reflexivity|]. split; [reflexivity|]. intros Hne. contradiction.
    + split; [reflexivity|]. split; [discriminate|]. reflexivity.
  - intros name ->. reflexivity.
Qed.

Lemma auth_indexes_first_key_pair_witness :
  (truthy None = true \/ region_in (Some "eu-west-2") default_region = true) /\
  w_client_fault (sample_world no_faults)
    (client_request None (Some "eu-west-2")
       (resolved_endpoint (Some "eu-west-2") None) None) = None /\
  w_key_pairs (sample_world no_faults) = [] /\
  fst (auth None (Some "eu-west-2") None None (sample_world no_faults))
    = Raise IndexError /\
  w_calls (snd (auth None (Some "eu-west-2") None None (sample_world no_faults)))
    = [DescribeKeyPairs].
Proof.
  assert (H : truthy None = true \/
              region_in (Some "eu-west-2") default_region = true)
    by (right; reflexivity).
  destruct (auth_indexes_first_key_pair None (Some "eu-west-2") None None
              (sample_world no_faults) H)
    as (Hbuilt & _).
  destruct (Hbuilt eq_refl) as (Hcalls & Hempty & _).
  split; [exact H|]. split; [reflexivity|]. split; [reflexivity|].
  split; [apply Hempty; reflexivity | exact Hcalls].
Defined.

(** C10, as stated, fails: with an endpoint given, no region given and
    none configured on the machine, the endpoint check passes and the
    account has no key pair, yet [auth] sends no request and raises
    boto3's [NoRegionError], not [IndexError]. *)
Lemma auth_stops_before_key_pairs :
  let run := auth None None None (Some "https://proxy.example")
                  unconfigured_world in
  truthy (Some "https://proxy.example") = true /\
  w_key_pairs unconfigured_world = [] /\
  fst run = Raise (BotoCoreError "NoRegionError") /\
  fst run <> Raise IndexError /\
  w_calls (snd run) = [].
Proof.
  cbv zeta. split; [reflexivity|]. split; [reflexivity|].
  split; [reflexivity|]. split; [discriminate | reflexivity].
Qed.

(** * Further properties of the module *)

(** ** What a rotation never does *)

(** X1.  Whatever the policy, the answers of the service and the outcome
    (return or error), a rotation only ever lists the volumes it was
    given and deletes snapshots of the account that belong to one of
    them (with [rotate_only], only ones described by an entry of
    [OLD_DESCRIPTION]); it creates nothing: the snapshots left are some
    of those that were there, and the rest of the account is as it was. *)
Theorem rotation_stays_within_volumes p conn volumes rotate_only w :
  exists r w' added keep,
    rotation p conn volumes rotate_only w = (r, w') /\
    same_env w w' /\
    w_snapshots w' = filter keep (w_snapshots w) /\
    w_calls w' = w_calls w ++ added /\
    Forall (rotation_call rotate_only volumes (w_snapshots w)) added.
Proof.
  rewrite rotation_eq.
  destruct (for_each_volumes_general p conn rotate_only (w_snapshots w) volumes
              (banner p w))
    as (r & w' & added & keep & Hrun & Henv & Hsn & Hc & Hall & _).
  { destruct p; intros s Hs; exact Hs. }
  exists r, w', added, keep. split; [exact Hrun|].
  split; [destruct p; exact Henv|].
  split; [destruct p; exact Hsn|].
  split; [destruct p; exact Hc | exact Hall].
Qed.

(** ** Count-based rotation at and after the threshold *)

Lemma Permutation_filter {A} (p : A -> bool) (l l' : list A) :
  Permutation l l' -> Permutation (filter p l) (filter p l').
Proof.
  induction 1 as [|x l l' _ IH|x y l|l l' l'' _ IH1 _ IH2]; simpl.
  - constructor.
  - destruct (p x); [apply perm_skip|]; exact IH.
  - destruct (p x), (p y); try apply Permutation_refl. apply perm_swap.
  - eapply perm_trans; eassumption.
Qed.

Lemma filter_length_bound {A} (p : A -> bool) (l : list A) :
  (List.length (filter p l) <= List.length l)%nat.
Proof.
  induction l as [|x l IH]; simpl; [lia|]. destruct (p x); simpl; lia.
Qed.

Lemma filter_none {A} (p : A -> bool) (l : list A) :
  (forall x, In x l -> p x = false) -> filter p l = [].
Proof.
  induction l as [|x l IH]; simpl; intros H; [reflexivity|].
  rewrite (H x (or_introl eq_refl)). apply IH. intros y Hy. apply H. right. exact Hy.
Qed.

(** The listing of a volume after some snapshots have left the account. *)
Lemma fetched_after vol rotate_only w w' keep :
  w_snapshots w' = filter keep (w_snapshots w) ->
  fetched vol rotate_only w' = filter keep (fetched vol rotate_only w).
Proof.
  intros H. unfold fetched. rewrite H, !filter_filter.
  apply filter_ext. intros x. apply andb_comm.
Qed.

Lemma deletable_not_fatal fault l :
  forallb (deletable fault) l = true -> existsb (fatal fault) l = false.
Proof.
  induction l as [|s l IH]; simpl; [reflexivity|].
  intros H. apply andb_true_iff in H. destruct H as [Hs Hl].
  rewrite (IH Hl), orb_false_r. unfold deletable in Hs. unfold fatal.
  destruct (fault (Snapshot.SnapshotId s)); [discriminate | reflexivity].
Qed.

Lemma count_marked_short keep l :
  Z.of_nat (List.length l) <= Z.max 0 keep -> count_marked keep l = [].
Proof.
  intros H. unfold count_marked.
  destruct (Z.of_nat (List.length l) >=? keep) eqn:E; [|reflexivity].
  apply Z.geb_le in E. apply skipn_all2.
  rewrite sort_reverse_length. lia.
Qed.

(** A listing no longer than the threshold allows: the loop body only
    lists. *)
Lemma rotate_snapshots_volume_idle conn keep rotate_only vol w :
  Z.of_nat (List.length (fetched vol rotate_only w)) <= Z.max 0 keep ->
  rotate_snapshots_volume conn keep rotate_only vol w
  = (Ok tt, listed vol rotate_only w).
Proof.
  intros Hlen. rewrite rotate_snapshots_volume_eq, (count_marked_short _ _ Hlen).
  reflexivity.
Qed.

(** Once every marked snapshot is gone, the listing is within the
    threshold. *)
Lemma fetched_within_threshold keep rotate_only vol w w' :
  forallb (deletable (w_delete_fault w))
          (count_marked keep (fetched vol rotate_only w)) = true ->
  w_snapshots w' =
    filter (survives (w_delete_fault w)
              (count_marked keep (fetched vol rotate_only w)))
           (w_snapshots w) ->
  Z.of_nat (List.length (fetched vol rotate_only w')) <= Z.max 0 keep /\
  (forall s, In s (fetched vol rotate_only w') ->
             In s (fetched vol rotate_only w) /\
             ~ In s (count_marked keep (fetched vol rotate_only w))).
Proof.
  intros Hdel Hsn.
  pose proof (fetched_after vol rotate_only w w' _ Hsn) as Hf.
  set (snaps := fetched vol rotate_only w) in *.
  set (gone := count_marked keep snaps) in *.
  assert (Hgone : forall s, In s gone -> survives (w_delete_fault w) gone s = false).
  { intros s Hs. apply survives_own; [exact Hs|].
    apply (proj1 (forallb_forall _ _) Hdel), Hs. }
  split.
  - rewrite Hf. unfold gone, count_marked in *.
    destruct (Z.of_nat (List.length snaps) >=? keep) eqn:E.
    + rewrite (Permutation_length
                 (Permutation_filter _ _ _
                    (Permutation_sym (sort_reverse_perm StartTime_key snaps)))).
      rewrite <- (firstn_skipn (Z.to_nat keep) (sort_reverse StartTime_key snaps))
        at 2.
      rewrite filter_app, (filter_none _ _ Hgone), app_nil_r.
      pose proof (filter_length_bound
                    (survives (w_delete_fault w)
                       (skipn (Z.to_nat keep) (sort_reverse StartTime_key snaps)))
                    (firstn (Z.to_nat keep) (sort_reverse StartTime_key snaps))).
      pose proof (firstn_le_length (Z.to_nat keep)
                    (sort_reverse StartTime_key snaps)).
      lia.
    + rewrite Z.geb_leb in E. apply Z.leb_gt in E.
      pose proof (filter_length_bound (survives (w_delete_fault w) []) snaps).
      lia.
  - intros s Hs. rewrite Hf in Hs. apply filter_In in Hs.
    destruct Hs as [Hin Hsurv]. split; [exact Hin|].
    intros Hg. rewrite (Hgone s Hg) in Hsurv. discriminate.
Qed.

(** X2.  A call of [rotate_snapshots] on a volume in which every marked
    deletion succeeds leaves at most [keep] snapshots in the volume's
    listing (none when [keep <= 0]), all of them unmarked ones of the
    former listing; calling it on the volume again then only lists: it
    deletes nothing. *)
Theorem count_rotation_converges conn keep rotate_only vol w :
  forallb (deletable (w_delete_fault w))
          (count_marked keep (fetched vol rotate_only w)) = true ->
  exists w',
    rotate_snapshots conn [vol] keep rotate_only w = (Ok tt, w') /\
    w_calls w' =
      w_calls w ++ DescribeSnapshots (volume_filters vol rotate_only)
                :: map delete_call
                       (count_marked keep (fetched vol rotate_only w)) /\
    Z.of_nat (List.length (fetched vol rotate_only w')) <= Z.max 0 keep /\
    (forall s, In s (fetched vol rotate_only w') ->
               In s (fetched vol rotate_only w) /\
               ~ In s (count_marked keep (fetched vol rotate_only w))) /\
    exists w'',
      rotate_snapshots conn [vol] keep rotate_only w' = (Ok tt, w'') /\
      w_snapshots w'' = w_snapshots w' /\
      w_calls w'' =
        w_calls w' ++ [DescribeSnapshots (volume_filters vol rotate_only)].
Proof.
  intros Hdel.
  set (w0 := banner (CountPolicy keep) w).
  destruct (rotate_volume_tolerated (CountPolicy keep) conn rotate_only vol w0
              (deletable_not_fatal _ _ Hdel))
    as (w' & Hrun & _ & Hc & _ & Hsn).
  cbn [rotate_volume] in Hrun.
  change (marked (CountPolicy keep) rotate_only vol w0)
    with (count_marked keep (fetched vol rotate_only w)) in Hc, Hsn.
  destruct (fetched_within_threshold keep rotate_only vol w w' Hdel Hsn)
    as (Hlen & Hin).
  exists w'. split.
  { rewrite <- Hrun.
    exact (rotation_single (CountPolicy keep) conn rotate_only vol w). }
  split; [exact Hc|]. split; [exact Hlen|]. split; [exact Hin|].
  exists (listed vol rotate_only (banner (CountPolicy keep) w')). split.
  - rewrite <- (rotate_snapshots_volume_idle conn keep rotate_only vol
                  (banner (CountPolicy keep) w') Hlen).
    exact (rotation_single (CountPolicy keep) conn rotate_only vol w').
  - split; reflexivity.
Qed.

Lemma count_rotation_converges_witness :
  forallb (deletable no_faults)
          (count_marked 2 (fetched "vol-1" false (sample_world no_faults)))
    = true /\
  exists w',
    rotate_snapshots sample_conn ["vol-1"] 2 false (sample_world no_faults)
      = (Ok tt, w') /\
    w_calls w' =
      [DescribeSnapshots (volume_filters "vol-1" false);
       DeleteSnapshot "snap-c"; DeleteSnapshot "snap-a"] /\
    Z.of_nat (List.length (fetched "vol-1" false w')) <= 2.
Proof.
  split; [reflexivity|].
  destruct (count_rotation_converges sample_conn 2 false "vol-1"
              (sample_world no_faults) eq_refl)
    as (w' & Hrun & Hc & Hlen & _).
  exists w'. split; [exact Hrun|]. split; [rewrite Hc; reflexivity | exact Hlen].
Defined.

(** X3.  With exactly [keep + 1] snapshots listed for a volume, a call of
    [rotate_snapshots] on the volume marks a single snapshot, one that no
    listed snapshot is older than, and (unless its deletion meets a
    fatal answer) lists the volume, issues that one deletion and
    returns. *)
Theorem count_rotation_one_over conn keep rotate_only vol w :
  0 <= keep ->
  Z.of_nat (List.length (fetched vol rotate_only w)) = keep + 1 ->
  exists oldest,
    In oldest (fetched vol rotate_only w) /\
    (forall s, In s (fetched vol rotate_only w) ->
               StartTime_key oldest <= StartTime_key s) /\
    count_marked keep (fetched vol rotate_only w) = [oldest] /\
    (fatal (w_delete_fault w) oldest = false ->
     exists w',
       rotate_snapshots conn [vol] keep rotate_only w = (Ok tt, w') /\
       w_calls w' =
         w_calls w ++ [DescribeSnapshots (volume_filters vol rotate_only);
                       delete_call oldest] /\
       (deletable (w_delete_fault w) oldest = true ->
        ~ In oldest (w_snapshots w'))).
Proof.
  intros Hk Hlen.
  destruct (count_marked_one_over keep _ Hk Hlen) as (oldest & Hm & Hin & Hmin).
  exists oldest. split; [exact Hin|]. split; [exact Hmin|]. split; [exact Hm|].
  intros Hf.
  set (w0 := banner (CountPolicy keep) w).
  destruct (rotate_volume_tolerated (CountPolicy keep) conn rotate_only vol w0)
    as (w' & Hrun & _ & Hc & _ & Hsn).
  { change (marked (CountPolicy keep) rotate_only vol w0)
      with (count_marked keep (fetched vol rotate_only w)).
    rewrite Hm. cbn [existsb]. change (w_delete_fault w0) with (w_delete_fault w).
    rewrite Hf. reflexivity. }
  cbn [rotate_volume] in Hrun.
  change (marked (CountPolicy keep) rotate_only vol w0)
    with (count_marked keep (fetched vol rotate_only w)) in Hc, Hsn.
  rewrite Hm in Hc, Hsn.
  exists w'. split.
  { rewrite <- Hrun.
    exact (rotation_single (CountPolicy keep) conn rotate_only vol w). }
  split; [exact Hc|].
  intros Hd Hleft. rewrite Hsn in Hleft. apply filter_In in Hleft.
  destruct Hleft as [_ Hs].
  change (w_delete_fault w0) with (w_delete_fault w) in Hs.
  rewrite (survives_own _ [oldest] oldest (or_introl eq_refl) Hd) in Hs.
  discriminate.
Qed.

Lemma count_rotation_one_over_witness :
  0 <= 3 /\
  Z.of_nat (List.length (fetched "vol-1" false (sample_world no_faults))) = 3 + 1 /\
  exists w',
    rotate_snapshots sample_conn ["vol-1"] 3 false (sample_world no_faults)
      = (Ok tt, w') /\
    w_calls w' = [DescribeSnapshots (volume_filters "vol-1" false);
                  DeleteSnapshot "snap-a"].
Proof.
  split; [lia|]. split; [reflexivity|].
  destruct (count_rotation_one_over sample_conn 3 false "vol-1"
              (sample_world no_faults) ltac:(lia) eq_refl)
    as (oldest & _ & _ & Hm & Hrun).
  assert (Ho : oldest = snap_a) by (vm_compute in Hm; inversion Hm; reflexivity).
  subst oldest. destruct (Hrun eq_refl) as (w' & Hr & Hc & _).
  exists w'. split; [exact Hr | exact Hc].
Defined.

(** ** The locators: malformed tags, read-only listing, empty queries *)

Lemma split_with sep s :
  contains sep s = true -> exists k v rest, split sep s = k :: v :: rest.
Proof.
  induction s as [|c s IH]; simpl; [discriminate|].
  destruct (Ascii.eqb c sep) eqn:E; simpl.
  - intros _. destruct (split sep s) as [|v rest] eqn:Es.
    + destruct (split_not_nil _ _ Es).
    + exists EmptyString, v, rest. reflexivity.
  - intros H. destruct (IH H) as (k & v & rest & ->).
    exists (String c k), v, rest. reflexivity.
Qed.

Lemma tag_filters_none tags :
  tag_filters tags = None <->
  existsb (fun t => negb (contains ":" t)) tags = true.
Proof.
  induction tags as [|tag tags IH]; simpl; [split; discriminate|].
  destruct (contains ":" tag) eqn:E; simpl.
  - destruct (split_with _ _ E) as (k & v & rest & ->).
    rewrite <- IH. destruct (tag_filters tags); split; congruence.
  - rewrite (split_without _ _ E). split; reflexivity.
Qed.

Lemma list_comp_tag_filters_none tags w :
  tag_filters tags = None ->
  list_comp tag_filter tags w = (Raise IndexError, w).
Proof.
  induction tags as [|tag tags IH]; simpl; [discriminate|].
  unfold bind. rewrite tag_filter_eq.
  destruct (split ":" tag) as [|k [|v l]]; try reflexivity.
  destruct (tag_filters tags) as [fs|] eqn:E.
  - discriminate.
  - intros _. rewrite (IH eq_refl). reflexivity.
Qed.

(** X4.  A tag query with an entry that has no colon makes both tag
    locators raise [IndexError] while the filters are built: the only
    effect is the first log line, and no API call is issued, whatever
    the other entries are. *)
Theorem tag_without_colon_raises conn tags w :
  existsb (fun t => negb (contains ":" t)) tags = true ->
  find_volumes_by_tags conn tags w
    = (Raise IndexError,
       record_log (INFO "find the volume by tags: %s") w) /\
  find_instances_by_tags conn tags w
    = (Raise IndexError,
       record_log (INFO "find the instance by tags: %s") w).
Proof.
  intros H. apply tag_filters_none in H.
  unfold find_volumes_by_tags, find_instances_by_tags, bind, logger_info.
  rewrite !(list_comp_tag_filters_none _ _ H). split; reflexivity.
Qed.

Lemma tag_without_colon_raises_witness :
  existsb (fun t => negb (contains ":" t)) ["Name:web"; "env"] = true /\
  fst (find_volumes_by_tags sample_conn ["Name:web"; "env"] fleet_world)
    = Raise IndexError /\
  w_calls (snd (find_instances_by_tags sample_conn ["Name:web"; "env"]
                                       fleet_world)) = [].
Proof.
  split; [reflexivity|].
  destruct (tag_without_colon_raises sample_conn ["Name:web"; "env"]
              fleet_world eq_refl) as [Hv Hi].
  rewrite Hv, Hi. split; reflexivity.
Defined.

Lemma only_logged_refl w : only_logged w w.
Proof. repeat split. Qed.

Lemma only_logged_trans w1 w2 w3 :
  only_logged w1 w2 -> only_logged w2 w3 -> only_logged w1 w3.
Proof.
  intros (E1 & S1 & T1 & C1) (E2 & S2 & T2 & C2).
  split; [eapply same_env_trans; eassumption|].
  repeat split; congruence.
Qed.

Lemma only_logged_log r w : only_logged w (record_log r w).
Proof. repeat split. Qed.

Lemma for_acc_collect_logged {A B} (g : A -> list B)
    (body : list B -> A -> M (list B)) (l : list A) :
  (forall acc x w, exists w',
      body acc x w = (Ok (acc ++ g x), w') /\ only_logged w w') ->
  forall acc w, exists w',
    for_acc l acc body w = (Ok (acc ++ flat_map g l), w') /\ only_logged w w'.
Proof.
  intros Hbody. induction l as [|x l IH]; intros acc w; simpl.
  - exists w. rewrite app_nil_r. split; [reflexivity | apply only_logged_refl].
  - unfold bind. destruct (Hbody acc x w) as (w1 & -> & H1).
    destruct (IH (acc ++ g x) w1) as (w' & -> & H2).
    exists w'. rewrite app_assoc.
    split; [reflexivity | eapply only_logged_trans; eassumption].
Qed.

Lemma collect_reservations_logged (rs : list Reservation.t) acc w :
  exists w',
    for_acc rs acc
      (fun volumes reservation =>
         for_acc (Reservation.Instances reservation) volumes
           (fun volumes instance =>
              logger_info "instance found: %s %s" ;;;
              for_acc (Instance.BlockDeviceMappings instance) volumes
                (fun volumes vol =>
                   logger_info "volume found: %s %s" ;;;
                   ret (volumes ++ [Ebs.VolumeId (BlockDeviceMapping.Ebs vol)]))))
      w
    = (Ok (acc ++ attached_volumes rs), w') /\ only_logged w w'.
Proof.
  unfold attached_volumes.
  apply (for_acc_collect_logged
           (fun r => flat_map mapped_volumes (Reservation.Instances r))).
  intros acc1 r w1. apply (for_acc_collect_logged mapped_volumes).
  intros acc2 i w2. unfold bind at 1, logger_info at 1. unfold mapped_volumes.
  rewrite <- flat_map_singleton.
  destruct (for_acc_collect_logged
              (fun m => [Ebs.VolumeId (BlockDeviceMapping.Ebs m)])
              (fun volumes vol =>
                 logger_info "volume found: %s %s" ;;;
                 ret (volumes ++ [Ebs.VolumeId (BlockDeviceMapping.Ebs vol)]))
              (Instance.BlockDeviceMappings i))
    with (acc := acc2) (w := record_log (INFO "instance found: %s %s") w2)
    as (w' & Hrun & Hlog).
  - intros acc3 m w3. eexists. split; [reflexivity | apply only_logged_log].
  - exists w'. split; [exact Hrun|].
    eapply only_logged_trans; [apply only_logged_log | exact Hlog].
Qed.

Lemma only_logged_after_call c r w w' :
  only_logged (record_call c (record_log r w)) w' ->
  same_env w w' /\ w_snapshots w' = w_snapshots w /\
  w_ticks w' = w_ticks w /\ w_calls w' = w_calls w ++ [c].
Proof.
  intros (E & S & T & C). repeat split; try apply E; assumption.
Qed.

(** X5.  The three locators are read-only: each issues exactly one API
    call, the listing (of the instance asked for; of running or stopped
    instances with the tag filters; of volumes with the tag filters),
    and leaves the account, the clock and the snapshots as they were. *)
Theorem locators_only_list conn instance_id tags filters w :
  tag_filters tags = Some filters ->
  (exists r w',
     find_instance_by_id conn instance_id w = (r, w') /\
     same_env w w' /\ w_snapshots w' = w_snapshots w /\
     w_ticks w' = w_ticks w /\
     w_calls w' = w_calls w ++ [DescribeInstances [instance_id] []]) /\
  (exists r w',
     find_instances_by_tags conn tags w = (r, w') /\
     same_env w w' /\ w_snapshots w' = w_snapshots w /\
     w_ticks w' = w_ticks w /\
     w_calls w' = w_calls w ++ [DescribeInstances [] (state_filter :: filters)]) /\
  (exists r w',
     find_volumes_by_tags conn tags w = (r, w') /\
     same_env w w' /\ w_snapshots w' = w_snapshots w /\
     w_ticks w' = w_ticks w /\
     w_calls w' = w_calls w ++ [DescribeVolumes filters]).
Proof.
  intros Hf. split; [|split].
  - unfold find_instance_by_id, bind at 1 2.
    unfold logger_info at 1, describe_instances. cbn [Reservations get_or_empty].
    match goal with |- context [for_acc ?rs [] _ ?w0] =>
      destruct (collect_reservations_logged rs [] w0) as (w' & Hrun & Hlog) end.
    eexists _, w'. split; [exact Hrun|]. apply (only_logged_after_call _ _ _ _ Hlog).
  - unfold find_instances_by_tags, bind at 1 2. unfold logger_info at 1.
    rewrite (list_comp_tag_filters _ _ _ Hf). unfold bind at 1.
    unfold describe_instances. cbn [Reservations get_or_empty].
    match goal with |- context [for_acc ?rs [] _ ?w0] =>
      destruct (collect_reservations_logged rs [] w0) as (w' & Hrun & Hlog) end.
    eexists _, w'. split; [exact Hrun|]. apply (only_logged_after_call _ _ _ _ Hlog).
  - unfold find_volumes_by_tags, bind at 1 2. unfold logger_info at 1.
    rewrite (list_comp_tag_filters _ _ _ Hf). unfold bind at 1.
    unfold describe_volumes. cbn [Volumes get_or_empty].
    match goal with |- context [for_acc ?vs [] ?body ?w0] =>
      destruct (for_acc_collect_logged (fun v => [Volume.VolumeId v]) body vs)
        with (acc := @nil string) (w := w0) as (w' & Hrun & Hlog) end.
    + intros acc v w1. eexists. split; [reflexivity | apply only_logged_log].
    + eexists _, w'. split; [exact Hrun|].
      apply (only_logged_after_call _ _ _ _ Hlog).
Qed.

Lemma locators_only_list_witness :
  tag_filters ["Name:web"] = Some [mkFilter "tag:Name" ["web"]] /\
  w_calls (snd (find_volumes_by_tags sample_conn ["Name:web"] fleet_world))
    = [DescribeVolumes [mkFilter "tag:Name" ["web"]]] /\
  w_calls (snd (find_instance_by_id sample_conn "i-2" fleet_world))
    = [DescribeInstances ["i-2"] []].
Proof.
  split; [reflexivity|].
  destruct (locators_only_list sample_conn "i-2" ["Name:web"]
              [mkFilter "tag:Name" ["web"]] fleet_world eq_refl)
    as ((r1 & w1 & H1 & _ & _ & _ & C1) & _ & (r3 & w3 & H3 & _ & _ & _ & C3)).
  rewrite H1, H3. split; [exact C3 | exact C1].
Defined.

Lemma select_volumes_all vs : select_volumes [] vs = vs.
Proof. unfold select_volumes. simpl. apply filter_true. Qed.

(** X6.  An empty tag query selects everything: [find_volumes_by_tags]
    returns every volume of the account, and [find_instances_by_tags]
    the volumes of every running or stopped instance. *)
Theorem empty_tag_query_lists_everything conn w :
  (exists w',
     find_volumes_by_tags conn [] w
     = (Ok (map Volume.VolumeId (w_volumes w)), w')) /\
  (exists found w',
     find_instances_by_tags conn [] w = (Ok found, w') /\
     forall x, In x found <->
               exists r i,
                 In r (w_reservations w) /\ In i (Reservation.Instances r) /\
                 str_in (Instance.State i) ["running"; "stopped"] = true /\
                 In x (mapped_volumes i)).
Proof.
  split.
  - destruct (find_volumes_by_tags_eq conn [] [] w eq_refl) as (w' & Hrun).
    exists w'. rewrite Hrun, select_volumes_all. reflexivity.
  - destruct (find_instances_by_tags_eq conn [] [] w eq_refl) as (w' & Hrun).
    eexists _, w'. split; [exact Hrun|]. intros x.
    rewrite attached_selected_In. split.
    + intros (r & i & Hr & Hi & Hs & _ & Hx). exists r, i. repeat split; assumption.
    + intros (r & i & Hr & Hi & Hs & Hx). exists r, i.
      repeat split; try assumption. intros f [].
Qed.

(** ** The handle [auth] returns *)

(** X7.  When boto3 builds the client and the account has a key pair,
    [auth] returns the client built with the profile and the region it
    was given; an endpoint that is given is used as it is, also for a
    canonical region, and otherwise the endpoint is
    [https://fcu.<region>.outscale.com]; a client certificate is kept
    only when it is given. *)
Theorem auth_handle profile region client_cert endpoint w :
  w_key_pairs w <> [] ->
  (truthy endpoint = true ->
   w_client_fault w
     (mkEC2Client profile region endpoint
                  (if truthy client_cert then client_cert else None)) = None ->
   fst (auth profile region client_cert endpoint w)
   = Ok (mkEC2Client profile region endpoint
                     (if truthy client_cert then client_cert else None))) /\
  (forall r,
     truthy endpoint = false -> region = Some r ->
     str_in r default_region = true ->
     w_client_fault w
       (mkEC2Client profile region
                    (Some ("https://fcu." ++ r ++ ".outscale.com")%string)
                    (if truthy client_cert then client_cert else None)) = None ->
     fst (auth profile region client_cert endpoint w)
     = Ok (mkEC2Client profile region
                       (Some ("https://fcu." ++ r ++ ".outscale.com")%string)
                       (if truthy client_cert then client_cert else None))).
Proof.
  intros Hk. split.
  - intros He Hb. rewrite (auth_checked _ _ _ _ _ (or_introl He)).
    unfold resolved_endpoint, client_request. rewrite He, Hb.
    destruct (w_key_pairs w); [contradiction | reflexivity].
  - intros r He -> Hr Hb.
    rewrite (auth_checked profile (Some r) client_cert endpoint w
               (or_intror Hr)).
    unfold resolved_endpoint, client_request. rewrite He. cbn [str_opt].
    rewrite Hb. destruct (w_key_pairs w); [contradiction | reflexivity].
Qed.

Lemma auth_handle_witness :
  w_key_pairs fleet_world <> [] /\
  fst (auth None (Some "eu-west-2") None (Some "https://proxy.example")
            fleet_world)
    = Ok (mkEC2Client None (Some "eu-west-2") (Some "https://proxy.example")
                      None) /\
  fst (auth (Some "backup") (Some "eu-west-2") None None fleet_world)
    = Ok (mkEC2Client (Some "backup") (Some "eu-west-2")
                      (Some "https://fcu.eu-west-2.outscale.com") None).
Proof.
  assert (H : w_key_pairs fleet_world <> []) by discriminate.
  split; [exact H|]. split.
  - apply (proj1 (auth_handle None (Some "eu-west-2") None
                    (Some "https://proxy.example") fleet_world H));
      reflexivity.
  - apply (proj2 (auth_handle (Some "backup") (Some "eu-west-2") None None
                    fleet_world H) "eu-west-2"); reflexivity.
Defined.

(** ** Snapshot creation *)

Import Creation.

Lemma frame_refl c : frame c c.
Proof. repeat split. Qed.

Lemma frame_trans c1 c2 c3 : frame c1 c2 -> frame c2 c3 -> frame c1 c3.
Proof.
  intros (A1 & A2 & A3 & A4) (B1 & B2 & B3 & B4).
  split; [congruence|]. split; [congruence|].
  split; [eapply same_env_trans; eassumption | congruence].
Qed.

Lemma create_step_ok conn copy_tags acc vol c :
  ready copy_tags c vol = true ->
  exists c1,
    create_snapshots_volume conn copy_tags acc vol c
      = (Ok (acc ++ [new_snapshot c 0 vol]), c1) /\
    advanced_by 1 c c1 /\
    w_snapshots (c_world c1)
      = w_snapshots (c_world c) ++ [new_snapshot c 0 vol] /\
    c_requests c1
      = c_requests c ++ requests_for copy_tags c (new_snapshot c 0 vol).
Proof.
  unfold ready. intros H.
  destruct (c_create_fault c vol) eqn:Ef; [discriminate|].
  unfold create_snapshots_volume, bindC, lift, create_snapshot,
    generate_description, bind, datetime_now, ret, logger_info, retC,
    requests_for.
  cbn [c_world set_world record_request c_create_fault fst snd
       new_snapshot Snapshot.VolumeId Snapshot.SnapshotId Snapshot.Description].
  rewrite Ef.
  destruct copy_tags.
  - unfold tags_listed in *. unfold describe_volumes_by_id, getitem.
    cbn [VolumesListed c_world store_snapshot set_world record_request
         w_volumes set_snapshots record_log tick].
    destruct (filter (fun v => str_in (Volume.VolumeId v) [vol])
                     (w_volumes (c_world c))) as [|first rest] eqn:El;
      [discriminate|].
    cbn [nth_error]. unfold ret, create_tags.
    cbn [fst snd c_world set_world].
    destruct (Volume.Tags first) as [|t ts];
      (eexists; split; [reflexivity|];
       split; [repeat split|]; split;
       [reflexivity|];
       cbn [c_requests set_world record_request store_snapshot];
       rewrite <- ?app_assoc; reflexivity).
  - eexists. split; [reflexivity|].
    split; [repeat split|]. split; reflexivity.
Qed.

Lemma create_step_refused conn copy_tags acc vol c code :
  c_create_fault c vol = Some code ->
  exists c1,
    create_snapshots_volume conn copy_tags acc vol c
      = (Raise (ClientError code), c1) /\
    frame c c1 /\
    c_created c1 = c_created c /\
    w_snapshots (c_world c1) = w_snapshots (c_world c) /\
    c_requests c1
      = c_requests c ++ [CreateSnapshot (description_at c 0) vol].
Proof.
  intros Ef.
  unfold create_snapshots_volume, bindC, lift, create_snapshot,
    generate_description, bind, datetime_now, ret.
  cbn [c_world set_world record_request c_create_fault fst snd].
  rewrite Ef. eexists. split; [reflexivity|].
  split; [repeat split|]. split; [reflexivity|]. split; reflexivity.
Qed.

Lemma create_step_unlisted conn acc vol c :
  c_create_fault c vol = None ->
  tags_listed c vol = None ->
  exists c1,
    create_snapshots_volume conn true acc vol c = (Raise IndexError, c1) /\
    advanced_by 1 c c1 /\
    w_snapshots (c_world c1)
      = w_snapshots (c_world c) ++ [new_snapshot c 0 vol] /\
    c_requests c1
      = c_requests c ++ [CreateSnapshot (description_at c 0) vol;
                         DescribeVolumesById [vol]].
Proof.
  intros Ef Hl. unfold tags_listed in Hl.
  unfold create_snapshots_volume, bindC, lift, create_snapshot,
    generate_description, bind, datetime_now, ret, logger_info,
    describe_volumes_by_id, getitem.
  cbn [c_world set_world record_request c_create_fault fst snd
       VolumesListed store_snapshot w_volumes set_snapshots record_log tick].
  rewrite Ef.
  cbn [c_world set_world record_request fst snd
       VolumesListed store_snapshot w_volumes set_snapshots record_log tick].
  destruct (filter (fun v => str_in (Volume.VolumeId v) [vol])
                   (w_volumes (c_world c))) as [|first rest];
    [|discriminate].
  cbn [nth_error]. unfold raise. cbn [fst snd].
  eexists. split; [reflexivity|].
  split; [repeat split|]. split; [reflexivity|].
  cbn [c_requests set_world record_request store_snapshot].
  rewrite <- ?app_assoc. reflexivity.
Qed.

(** Clock readings and assignments seen from a later state. *)
Lemma new_snapshot_shift n c c1 i vol :
  advanced_by n c c1 -> new_snapshot c1 i vol = new_snapshot c (i + n) vol.
Proof.
  intros ((Ha & _ & (_ & _ & _ & _ & Hclock) & _) & Hc & Ht).
  unfold new_snapshot, description_at.
  rewrite Ha, Hc, Ht, Hclock, !Nat.add_assoc. reflexivity.
Qed.

Lemma new_snapshots_shift n c c1 volumes :
  advanced_by n c c1 ->
  forall i, new_snapshots c1 i volumes = new_snapshots c (i + n) volumes.
Proof.
  intros H. induction volumes as [|vol volumes IH]; intros i; simpl;
    [reflexivity|].
  rewrite (new_snapshot_shift _ _ _ _ _ H), (IH (S i)). reflexivity.
Qed.

Lemma tags_listed_frame c c1 vol :
  frame c c1 -> tags_listed c1 vol = tags_listed c vol.
Proof.
  intros (_ & _ & (_ & Hv & _) & _). unfold tags_listed. rewrite Hv.
  reflexivity.
Qed.

Lemma requests_for_frame copy_tags c c1 s :
  frame c c1 -> requests_for copy_tags c1 s = requests_for copy_tags c s.
Proof.
  intros H. unfold requests_for. rewrite (tags_listed_frame _ _ _ H).
  reflexivity.
Qed.

Lemma ready_frame copy_tags c c1 vol :
  frame c c1 -> ready copy_tags c1 vol = ready copy_tags c vol.
Proof.
  intros H. unfold ready. rewrite (tags_listed_frame _ _ _ H).
  destruct H as (_ & -> & _). reflexivity.
Qed.

Lemma forallb_same {A} (f g : A -> bool) (l : list A) :
  (forall x, f x = g x) -> forallb f l = forallb g l.
Proof.
  intros H. induction l as [|x l IH]; simpl; [reflexivity|].
  rewrite H, IH. reflexivity.
Qed.

Lemma advanced_by_trans n m c1 c2 c3 :
  advanced_by n c1 c2 -> advanced_by m c2 c3 -> advanced_by (m + n) c1 c3.
Proof.
  intros (F1 & C1 & T1) (F2 & C2 & T2).
  split; [eapply frame_trans; eassumption|]. split; lia.
Qed.

Lemma for_accC_app {A B} (l1 l2 : list A) (body : B -> A -> MC B) acc c :
  for_accC (l1 ++ l2) acc body c =
  match for_accC l1 acc body c with
  | (Ok a, c1) => for_accC l2 a body c1
  | (Raise e, c1) => (Raise e, c1)
  end.
Proof.
  revert acc c. induction l1 as [|x l1 IH]; intros acc c; simpl;
    [reflexivity|].
  unfold bindC. destruct (body acc x c) as [[a|e] c1]; [apply IH | reflexivity].
Qed.

(** The loop over volumes none of which stops it. *)
Lemma create_loop_ok conn copy_tags volumes :
  forall acc c,
    forallb (ready copy_tags c) volumes = true ->
    exists c',
      for_accC volumes acc (create_snapshots_volume conn copy_tags) c
        = (Ok (acc ++ new_snapshots c 0 volumes), c') /\
      advanced_by (List.length volumes) c c' /\
      w_snapshots (c_world c')
        = w_snapshots (c_world c) ++ new_snapshots c 0 volumes /\
      c_requests c'
        = c_requests c
          ++ flat_map (requests_for copy_tags c) (new_snapshots c 0 volumes).
Proof.
  induction volumes as [|vol volumes IH]; intros acc c Hr.
  - exists c. simpl. unfold retC. rewrite !app_nil_r.
    split; [reflexivity|]. split; [|split; reflexivity].
    split; [apply frame_refl | split; reflexivity].
  - simpl in Hr. apply andb_true_iff in Hr. destruct Hr as [Hv Hrest].
    destruct (create_step_ok conn copy_tags acc vol c Hv)
      as (c1 & Hstep & Hadv & Hsn & Hrq).
    destruct (IH (acc ++ [new_snapshot c 0 vol]) c1) as (c' & Hrun & Hadv' & Hsn' & Hrq').
    { rewrite <- Hrest. apply forallb_same. intros x.
      apply ready_frame, Hadv. }
    exists c'. cbn [for_accC]. unfold bindC. rewrite Hstep, Hrun.
    rewrite (new_snapshots_shift 1 c c1 volumes Hadv 0) in *.
    cbn [new_snapshots Nat.add].
    split; [rewrite <- app_assoc; reflexivity|].
    split.
    { replace (List.length (vol :: volumes))
        with (List.length volumes + 1)%nat by (simpl; lia).
      eapply advanced_by_trans; eassumption. }
    split; [rewrite Hsn', Hsn, <- app_assoc; reflexivity|].
    rewrite Hrq', Hrq. cbn [flat_map]. rewrite <- !app_assoc. f_equal. f_equal.
    apply flat_map_ext. intros s. apply requests_for_frame, Hadv.
Qed.

Lemma new_snapshots_app c volumes more :
  forall i,
    new_snapshots c i (volumes ++ more)
    = new_snapshots c i volumes
      ++ new_snapshots c (List.length volumes + i) more.
Proof.
  induction volumes as [|vol volumes IH]; intros i; simpl; [reflexivity|].
  rewrite (IH (S i)), Nat.add_succ_r. reflexivity.
Qed.

Lemma new_snapshots_In c volumes s :
  forall k,
    In s (new_snapshots c k volumes) <->
    exists i vol, nth_error volumes i = Some vol /\
                  s = new_snapshot c (i + k) vol.
Proof.
  induction volumes as [|v volumes IH]; intros k; simpl.
  - split; [intros [] | intros ([|i] & vol & H & _); discriminate H].
  - rewrite (IH (S k)). split.
    + intros [<-|(i & vol & Hn & ->)].
      * exists 0%nat, v. split; reflexivity.
      * exists (S i), vol. rewrite Nat.add_succ_r. split; [exact Hn | reflexivity].
    + intros ([|i] & vol & Hn & ->).
      * left. inversion Hn. reflexivity.
      * right. exists i, vol. rewrite Nat.add_succ_r. split; [exact Hn | reflexivity].
Qed.

Lemma new_snapshots_volumes c volumes :
  forall i, map Snapshot.VolumeId (new_snapshots c i volumes) = volumes.
Proof.
  induction volumes as [|v volumes IH]; intros i; simpl; [reflexivity|].
  rewrite IH. reflexivity.
Qed.

(** The state once the first log line is written. *)
Lemma create_snapshots_start c :
  advanced_by 0 c (set_world (record_log (INFO "create_snapshot") (c_world c)) c).
Proof. repeat split. Qed.

Lemma create_snapshots_eq conn volumes copy_tags c :
  create_snapshots conn volumes copy_tags c =
  match for_accC volumes [] (create_snapshots_volume conn copy_tags)
                 (set_world (record_log (INFO "create_snapshot") (c_world c)) c)
  with
  | (Ok snaps, c1) =>
      (Ok tt,
       record_request
         (WaitSnapshotCompleted (map Snapshot.SnapshotId snaps))
         (set_world (record_log (INFO "wait for snapshots: %s") (c_world c1))
                    c1))
  | (Raise e, c1) => (Raise e, c1)
  end.
Proof.
  unfold create_snapshots, bindC, lift, logger_info, wait_snapshot_completed.
  cbn [fst snd].
  match goal with |- context [for_accC ?l ?a ?b ?c0] =>
    destruct (for_accC l a b c0) as [[snaps|e] c1] end; reflexivity.
Qed.

Lemma create_snapshots_ok conn volumes copy_tags c :
  forallb (ready copy_tags c) volumes = true ->
  exists c',
    create_snapshots conn volumes copy_tags c = (Ok tt, c') /\
    advanced_by (List.length volumes) c c' /\
    w_snapshots (c_world c')
      = w_snapshots (c_world c) ++ new_snapshots c 0 volumes /\
    c_requests c'
      = c_requests c
        ++ flat_map (requests_for copy_tags c) (new_snapshots c 0 volumes)
        ++ [WaitSnapshotCompleted
              (map Snapshot.SnapshotId (new_snapshots c 0 volumes))].
Proof.
  intros Hr.
  pose proof (create_snapshots_start c) as H0.
  set (c0 := set_world (record_log (INFO "create_snapshot") (c_world c)) c) in *.
  destruct (create_loop_ok conn copy_tags volumes [] c0)
    as (c1 & Hrun & Hadv & Hsn & Hrq).
  { rewrite <- Hr. apply forallb_same. intros x. apply ready_frame, H0. }
  rewrite (new_snapshots_shift 0 c c0 volumes H0 0) in *. cbn [Nat.add] in *.
  rewrite create_snapshots_eq. fold c0. rewrite Hrun. cbn [app].
  eexists. split; [reflexivity|].
  pose proof (advanced_by_trans _ _ _ _ _ H0 Hadv) as Hall.
  rewrite Nat.add_0_r in Hall.
  split; [exact Hall|]. split; [exact Hsn|].
  cbn [c_requests record_request set_world]. rewrite Hrq, <- app_assoc.
  reflexivity.
Qed.

(** The loop stopped at volume [X], after [pre] went through. *)
Lemma create_snapshots_reaches conn pre X post copy_tags c :
  forallb (ready copy_tags c) pre = true ->
  exists c1,
    advanced_by (List.length pre) c c1 /\
    w_snapshots (c_world c1)
      = w_snapshots (c_world c) ++ new_snapshots c 0 pre /\
    c_requests c1
      = c_requests c ++ flat_map (requests_for copy_tags c) (new_snapshots c 0 pre) /\
    forall e c2,
      create_snapshots_volume conn copy_tags (new_snapshots c 0 pre) X c1
        = (Raise e, c2) ->
      create_snapshots conn (pre ++ X :: post) copy_tags c = (Raise e, c2).
Proof.
  intros Hr.
  pose proof (create_snapshots_start c) as H0.
  set (c0 := set_world (record_log (INFO "create_snapshot") (c_world c)) c) in *.
  destruct (create_loop_ok conn copy_tags pre [] c0)
    as (c1 & Hrun & Hadv & Hsn & Hrq).
  { rewrite <- Hr. apply forallb_same. intros x. apply ready_frame, H0. }
  rewrite (new_snapshots_shift 0 c c0 pre H0 0) in *. cbn [Nat.add app] in *.
  pose proof (advanced_by_trans _ _ _ _ _ H0 Hadv) as Hall.
  rewrite Nat.add_0_r in Hall.
  exists c1. split; [exact Hall|]. split; [exact Hsn|].
  split.
  { rewrite Hrq. reflexivity. }
  intros e c2 Hstop.
  rewrite create_snapshots_eq. fold c0.
  rewrite for_accC_app, Hrun. cbn [for_accC app]. unfold bindC at 1.
  rewrite Hstop. reflexivity.
Qed.

Lemma description_at_shift n c c1 i :
  advanced_by n c c1 -> description_at c1 i = description_at c (i + n).
Proof.
  intros ((_ & _ & (_ & _ & _ & _ & Hclock) & _) & _ & Ht).
  unfold description_at. rewrite Hclock, Ht, Nat.add_assoc. reflexivity.
Qed.

Lemma new_snapshots_nth c volumes i vol :
  nth_error volumes i = Some vol ->
  nth_error (new_snapshots c 0 volumes) i = Some (new_snapshot c i vol).
Proof.
  assert (H : forall k, nth_error volumes i = Some vol ->
                        nth_error (new_snapshots c k volumes) i
                        = Some (new_snapshot c (i + k) vol)).
  { revert i. induction volumes as [|v volumes IH]; intros [|i] k Hn;
      try discriminate; simpl in *.
    - inversion Hn. reflexivity.
    - rewrite (IH i (S k) Hn), Nat.add_succ_r. reflexivity. }
  intros Hn. rewrite (H 0%nat Hn), Nat.add_0_r. reflexivity.
Qed.

(** X8.  When no creation is refused, [create_snapshots] without tag
    copy creates one snapshot per volume, in the order of the list: the
    i-th carries the identifier and start time the service assigns to
    its i-th creation and the description generated from the i-th clock
    reading.  The only requests are these creations followed by a single
    wait on all the new identifiers (on an empty list when no volume is
    given); no volume is read, nothing is tagged, nothing is deleted. *)
Theorem create_snapshots_without_tags conn volumes c :
  forallb (ready false c) volumes = true ->
  exists c',
    create_snapshots conn volumes false c = (Ok tt, c') /\
    w_snapshots (c_world c')
      = w_snapshots (c_world c) ++ new_snapshots c 0 volumes /\
    (forall i vol, nth_error volumes i = Some vol ->
                   nth_error (new_snapshots c 0 volumes) i
                   = Some (new_snapshot c i vol)) /\
    c_requests c'
      = c_requests c
        ++ map (fun s => CreateSnapshot (Snapshot.Description s)
                                        (Snapshot.VolumeId s))
               (new_snapshots c 0 volumes)
        ++ [WaitSnapshotCompleted
              (map Snapshot.SnapshotId (new_snapshots c 0 volumes))] /\
    w_calls (c_world c') = w_calls (c_world c) /\
    w_ticks (c_world c') = (List.length volumes + w_ticks (c_world c))%nat.
Proof.
  intros Hr.
  destruct (create_snapshots_ok conn volumes false c Hr)
    as (c' & Hrun & ((_ & _ & _ & Hcalls) & _ & Ht) & Hsn & Hrq).
  exists c'. split; [exact Hrun|]. split; [exact Hsn|].
  split; [intros i vol; apply new_snapshots_nth|].
  split; [|split; [exact Hcalls | exact Ht]].
  rewrite Hrq. f_equal.
Qed.

Lemma create_snapshots_without_tags_witness :
  forallb (ready false sample_cloud) ["vol-1"; "vol-9"] = true /\
  exists c',
    create_snapshots sample_conn ["vol-1"; "vol-9"] false sample_cloud
      = (Ok tt, c') /\
    c_requests c' =
      [CreateSnapshot
         "osc-bsu-backup: Automated volume snapshot - 2024-03-10 10:00:00 UTC"
         "vol-1";
       CreateSnapshot
         "osc-bsu-backup: Automated volume snapshot - 2024-03-10 10:00:00 UTC"
         "vol-9";
       WaitSnapshotCompleted ["snap-n0"; "snap-n1"]].
Proof.
  split; [reflexivity|].
  destruct (create_snapshots_without_tags sample_conn ["vol-1"; "vol-9"]
              sample_cloud eq_refl)
    as (c' & Hrun & _ & _ & Hrq & _).
  exists c'. split; [exact Hrun | exact Hrq].
Defined.

(** X9.  A refused creation stops [create_snapshots] at once, whatever
    the error code: the error is raised, the snapshots already created
    for the volumes before stay in the account, the refused creation is
    the last request, and no wait is issued for the snapshots created so
    far. *)
Theorem create_snapshots_refused conn pre X post copy_tags c code :
  forallb (ready copy_tags c) pre = true ->
  c_create_fault c X = Some code ->
  exists c',
    create_snapshots conn (pre ++ X :: post) copy_tags c
      = (Raise (ClientError code), c') /\
    w_snapshots (c_world c')
      = w_snapshots (c_world c) ++ new_snapshots c 0 pre /\
    c_requests c'
      = c_requests c
        ++ flat_map (requests_for copy_tags c) (new_snapshots c 0 pre)
        ++ [CreateSnapshot (description_at c (List.length pre)) X].
Proof.
  intros Hr Hf.
  destruct (create_snapshots_reaches conn pre X post copy_tags c Hr)
    as (c1 & Hadv & Hsn & Hrq & Hstop).
  destruct (create_step_refused conn copy_tags (new_snapshots c 0 pre) X c1 code)
    as (c2 & Hstep & _ & _ & Hsn2 & Hrq2).
  { destruct Hadv as ((_ & -> & _) & _). exact Hf. }
  exists c2. split; [apply Hstop, Hstep|].
  split; [rewrite Hsn2; exact Hsn|].
  rewrite Hrq2, Hrq, (description_at_shift _ _ _ _ Hadv), <- app_assoc.
  reflexivity.
Qed.

Lemma create_snapshots_refused_witness :
  forallb (ready false sample_cloud) ["vol-1"] = true /\
  c_create_fault sample_cloud "vol-bad" = Some "InvalidVolume.NotFound" /\
  exists c',
    create_snapshots sample_conn (["vol-1"] ++ "vol-bad" :: ["vol-2"]) false
                     sample_cloud
      = (Raise (ClientError "InvalidVolume.NotFound"), c') /\
    map Snapshot.SnapshotId (w_snapshots (c_world c')) = ["snap-n0"] /\
    c_requests c' =
      [CreateSnapshot
         "osc-bsu-backup: Automated volume snapshot - 2024-03-10 10:00:00 UTC"
         "vol-1";
       CreateSnapshot
         "osc-bsu-backup: Automated volume snapshot - 2024-03-10 10:00:00 UTC"
         "vol-bad"].
Proof.
  split; [reflexivity|]. split; [reflexivity|].
  destruct (create_snapshots_refused sample_conn ["vol-1"] "vol-bad" ["vol-2"]
              false sample_cloud "InvalidVolume.NotFound" eq_refl eq_refl)
    as (c' & Hrun & Hsn & Hrq).
  exists c'. split; [exact Hrun|].
  split; [rewrite Hsn | rewrite Hrq]; reflexivity.
Defined.

(** X10.  With tag copy, when every volume is created and listed, each
    iteration issues its creation, then one reading of the volume, then
    (only if the volume has tags) one tagging request; a tagging request
    names a single resource, the snapshot just created for a volume, and
    carries all the tags the service lists for that volume.  The wait
    comes last. *)
Theorem create_snapshots_copies_tags conn volumes c :
  forallb (ready true c) volumes = true ->
  exists c' added,
    create_snapshots conn volumes true c = (Ok tt, c') /\
    c_requests c' = c_requests c ++ added /\
    added = flat_map (requests_for true c) (new_snapshots c 0 volumes)
            ++ [WaitSnapshotCompleted
                  (map Snapshot.SnapshotId (new_snapshots c 0 volumes))] /\
    forall rs ts,
      In (CreateTags rs ts) added <->
      exists i vol,
        nth_error volumes i = Some vol /\
        rs = [Snapshot.SnapshotId (new_snapshot c i vol)] /\
        tags_listed c vol = Some ts /\ ts <> [].
Proof.
  intros Hr.
  destruct (create_snapshots_ok conn volumes true c Hr)
    as (c' & Hrun & _ & _ & Hrq).
  eexists c', _. split; [exact Hrun|]. split; [exact Hrq|].
  split; [reflexivity|].
  intros rs ts. rewrite in_app_iff, in_flat_map. split.
  - intros [(s & Hs & Hin)|[Hw|[]]]; [|discriminate Hw].
    apply new_snapshots_In in Hs. destruct Hs as (i & vol & Hn & ->).
    rewrite Nat.add_0_r in Hin. unfold requests_for in Hin.
    cbn [new_snapshot Snapshot.VolumeId Snapshot.SnapshotId] in Hin.
    destruct Hin as [Hin|[Hin|Hin]]; try discriminate.
    destruct (tags_listed c vol) as [[|t l]|] eqn:Et;
      [destruct Hin | | destruct Hin].
    destruct Hin as [Hin|[]]. inversion Hin; subst. exists i, vol.
    split; [exact Hn|]. split; [reflexivity|]. split; [exact Et | discriminate].
  - intros (i & vol & Hn & -> & Ht & Hne). left.
    exists (new_snapshot c i vol). split.
    + apply new_snapshots_In. exists i, vol. rewrite Nat.add_0_r.
      split; [exact Hn | reflexivity].
    + unfold requests_for.
      cbn [new_snapshot Snapshot.VolumeId Snapshot.SnapshotId].
      rewrite Ht. destruct ts as [|t l]; [contradiction|].
      right. right. left. reflexivity.
Qed.

Lemma create_snapshots_copies_tags_witness :
  forallb (ready true sample_cloud) ["vol-1"; "vol-9"] = true /\
  exists c',
    create_snapshots sample_conn ["vol-1"; "vol-9"] true sample_cloud
      = (Ok tt, c') /\
    c_requests c' =
      [CreateSnapshot
         "osc-bsu-backup: Automated volume snapshot - 2024-03-10 10:00:00 UTC"
         "vol-1";
       DescribeVolumesById ["vol-1"];
       CreateTags ["snap-n0"] [mkTag "Name" "web"];
       CreateSnapshot
         "osc-bsu-backup: Automated volume snapshot - 2024-03-10 10:00:00 UTC"
         "vol-9";
       DescribeVolumesById ["vol-9"];
       WaitSnapshotCompleted ["snap-n0"; "snap-n1"]].
Proof.
  split; [reflexivity|].
  destruct (create_snapshots_copies_tags sample_conn ["vol-1"; "vol-9"]
              sample_cloud eq_refl)
    as (c' & added & Hrun & Hrq & Hadded & _).
  exists c'. split; [exact Hrun|]. rewrite Hrq, Hadded. reflexivity.
Defined.

(** X11.  With tag copy, a volume that the service creates a snapshot
    for but does not list makes [create_snapshots] raise [IndexError]
    when it indexes the empty listing: the snapshot just created stays
    in the account, the reading of the volume is the last request, and
    no wait is issued. *)
Theorem create_snapshots_unlisted_volume conn pre X post c :
  forallb (ready true c) pre = true ->
  c_create_fault c X = None ->
  tags_listed c X = None ->
  exists c',
    create_snapshots conn (pre ++ X :: post) true c = (Raise IndexError, c') /\
    w_snapshots (c_world c')
      = w_snapshots (c_world c) ++ new_snapshots c 0 (pre ++ [X]) /\
    c_requests c'
      = c_requests c
        ++ flat_map (requests_for true c) (new_snapshots c 0 pre)
        ++ [CreateSnapshot (description_at c (List.length pre)) X;
            DescribeVolumesById [X]].
Proof.
  intros Hr Hf Hl.
  destruct (create_snapshots_reaches conn pre X post true c Hr)
    as (c1 & Hadv & Hsn & Hrq & Hstop).
  destruct (create_step_unlisted conn (new_snapshots c 0 pre) X c1)
    as (c2 & Hstep & _ & Hsn2 & Hrq2).
  { destruct Hadv as ((_ & -> & _) & _). exact Hf. }
  { rewrite (tags_listed_frame c c1 X (proj1 Hadv)). exact Hl. }
  exists c2. split; [apply Hstop, Hstep|].
  split.
  - rewrite Hsn2, Hsn, (new_snapshot_shift _ _ _ _ _ Hadv), new_snapshots_app,
      <- app_assoc.
    cbn [new_snapshots Nat.add]. rewrite Nat.add_0_r. reflexivity.
  - rewrite Hrq2, Hrq, (description_at_shift _ _ _ _ Hadv), <- app_assoc.
    reflexivity.
Qed.

Lemma create_snapshots_unlisted_volume_witness :
  forallb (ready true sample_cloud) ["vol-1"] = true /\
  c_create_fault sample_cloud "vol-x" = None /\
  tags_listed sample_cloud "vol-x" = None /\
  exists c',
    create_snapshots sample_conn (["vol-1"] ++ "vol-x" :: []) true sample_cloud
      = (Raise IndexError, c') /\
    map Snapshot.SnapshotId (w_snapshots (c_world c')) = ["snap-n0"; "snap-n1"].
Proof.
  split; [reflexivity|]. split; [reflexivity|]. split; [reflexivity|].
  destruct (create_snapshots_unlisted_volume sample_conn ["vol-1"] "vol-x" []
              sample_cloud eq_refl eq_refl eq_refl)
    as (c' & Hrun & Hsn & _).
  exists c'. split; [exact Hrun|]. rewrite Hsn. reflexivity.
Defined.

(** ** Creation followed by rotation *)

Lemma new_snapshot_not_old c i vol :
  ~ In (Snapshot.Description (new_snapshot c i vol)) OLD_DESCRIPTION.
Proof.
  cbn [new_snapshot Snapshot.Description]. unfold description_at. intros H.
  match goal with H : In (current_description ?t) _ |- _ =>
    pose proof (current_description_not_old t) as Hnot end.
  assert (Hin : str_in (current_description
                          (w_clock (c_world c) (i + w_ticks (c_world c))%nat))
                       OLD_DESCRIPTION = true).
  { apply existsb_exists. eexists. split; [exact H | apply String.eqb_refl]. }
  congruence.
Qed.

(** X12.  Snapshots made by [create_snapshots] are out of reach of a
    later rotation with [rotate_only], under either policy and whatever
    the volumes rotated: every deletion it issues names a snapshot that
    was in the account before the creation and carries an entry of
    [OLD_DESCRIPTION]; a new snapshot whose identifier no older snapshot
    shares is still in the account afterwards. *)
Theorem rotate_only_spares_created conn volumes copy_tags p targets c :
  forallb (ready copy_tags c) volumes = true ->
  exists c' r w' added,
    create_snapshots conn volumes copy_tags c = (Ok tt, c') /\
    rotation p conn targets true (c_world c') = (r, w') /\
    w_calls w' = w_calls (c_world c') ++ added /\
    (forall id, In (DeleteSnapshot id) added ->
       exists s, In s (w_snapshots (c_world c)) /\
                 Snapshot.SnapshotId s = id /\
                 In (Snapshot.Description s) OLD_DESCRIPTION) /\
    (forall s, In s (new_snapshots c 0 volumes) ->
       (forall s', In s' (w_snapshots (c_world c)) ->
                   Snapshot.SnapshotId s' <> Snapshot.SnapshotId s) ->
       In s (w_snapshots w')).
Proof.
  intros Hr.
  destruct (create_snapshots_ok conn volumes copy_tags c Hr)
    as (c' & Hrun & _ & Hsn & _).
  destruct (for_each_volumes_general p conn true (w_snapshots (c_world c'))
              targets (banner p (c_world c')))
    as (r & w' & added & keep & Hrot & _ & _ & Hc & Hall & Hkept).
  { destruct p; intros s Hs; exact Hs. }
  assert (Hdel : forall id, In (DeleteSnapshot id) added ->
            exists s, In s (w_snapshots (c_world c)) /\
                      Snapshot.SnapshotId s = id /\
                      In (Snapshot.Description s) OLD_DESCRIPTION).
  { intros id Hin.
    pose proof (proj1 (Forall_forall _ _) Hall _ Hin) as Hcall.
    destruct Hcall as (s & Hs & Hid & _ & Hold).
    specialize (Hold eq_refl). rewrite Hsn in Hs.
    apply in_app_or in Hs. destruct Hs as [Hs|Hs].
    - exists s. repeat split; assumption.
    - apply new_snapshots_In in Hs. destruct Hs as (i & vol & _ & ->).
      destruct (new_snapshot_not_old _ _ _ Hold). }
  exists c', r, w', added. split; [exact Hrun|].
  split; [rewrite rotation_eq; exact Hrot|].
  split; [destruct p; exact Hc|]. split; [exact Hdel|].
  intros s Hs Hfresh. apply Hkept.
  - destruct p; cbn [banner record_log w_snapshots]; rewrite Hsn;
      apply in_or_app; right; exact Hs.
  - intros Hin. destruct (Hdel _ Hin) as (s' & Hs' & Hid & _).
    exact (Hfresh s' Hs' Hid).
Qed.

Lemma rotate_only_spares_created_witness :
  forallb (ready false stocked_cloud) ["vol-1"] = true /\
  exists c' r w' added,
    create_snapshots sample_conn ["vol-1"] false stocked_cloud = (Ok tt, c') /\
    rotation (CountPolicy 0) sample_conn ["vol-1"] true (c_world c') = (r, w') /\
    w_calls w' = w_calls (c_world c') ++ added /\
    (forall id, In (DeleteSnapshot id) added ->
       exists s, In s (w_snapshots (c_world stocked_cloud)) /\
                 Snapshot.SnapshotId s = id /\
                 In (Snapshot.Description s) OLD_DESCRIPTION) /\
    In (new_snapshot stocked_cloud 0 "vol-1") (w_snapshots w').
Proof.
  split; [reflexivity|].
  destruct (rotate_only_spares_created sample_conn ["vol-1"] false
              (CountPolicy 0) ["vol-1"] stocked_cloud eq_refl)
    as (c' & r & w' & added & Hrun & Hrot & Hc & Hdel & Hkept).
  exists c', r, w', added. split; [exact Hrun|]. split; [exact Hrot|].
  split; [exact Hc|]. split; [exact Hdel|].
  apply Hkept; [left; reflexivity|].
  intros s' Hs'. cbn in Hs'.
  repeat (destruct Hs' as [<-|Hs']; [discriminate|]). destruct Hs'.
Defined.

Lemma fetched_with_new vol w w' s :
  w_snapshots w' = w_snapshots w ++ [s] ->
  Snapshot.VolumeId s = vol ->
  fetched vol false w' = fetched vol false w ++ [s].
Proof.
  intros Hsn Hv. unfold fetched. rewrite Hsn, filter_app. f_equal.
  cbn [filter]. unfold volume_filters. cbn [forallb].
  unfold snapshot_matches. cbn [Name Values]. rewrite Hv.
  simpl. rewrite String.eqb_refl. reflexivity.
Qed.

(** X13.  Creation then count-based rotation at the threshold: when a
    volume has exactly [keep] snapshots, creating one more and rotating
    with [keep] issues exactly one deletion, of a snapshot that none of
    the [keep + 1] is older than. *)
Theorem create_then_rotate_at_threshold conn vol keep c :
  0 <= keep ->
  c_create_fault c vol = None ->
  Z.of_nat (List.length (fetched vol false (c_world c))) = keep ->
  only_in_use_faults (c_world c) ->
  exists c' w' oldest,
    create_snapshots conn [vol] false c = (Ok tt, c') /\
    rotate_snapshots conn [vol] keep false (c_world c') = (Ok tt, w') /\
    In oldest (fetched vol false (c_world c) ++ [new_snapshot c 0 vol]) /\
    (forall s, In s (fetched vol false (c_world c) ++ [new_snapshot c 0 vol]) ->
               StartTime_key oldest <= StartTime_key s) /\
    w_calls w' =
      w_calls (c_world c) ++ [DescribeSnapshots (volume_filters vol false);
                              delete_call oldest].
Proof.
  intros Hk Hf Hlen Hfaults.
  destruct (create_snapshots_ok conn [vol] false c)
    as (c' & Hrun & ((_ & _ & Henv & Hcalls) & _) & Hsn & _).
  { cbn [forallb]. unfold ready. rewrite Hf. reflexivity. }
  cbn [new_snapshots] in Hsn.
  set (w0 := banner (CountPolicy keep) (c_world c')).
  assert (Hfetch : fetched vol false w0
                   = fetched vol false (c_world c) ++ [new_snapshot c 0 vol]).
  { apply fetched_with_new; [exact Hsn | reflexivity]. }
  destruct (count_marked_one_over keep (fetched vol false w0) Hk)
    as (oldest & Hm & Hin & Hmin).
  { rewrite Hfetch, length_app. cbn [List.length]. lia. }
  assert (Hfault : w_delete_fault w0 = w_delete_fault (c_world c))
    by (destruct Henv as (_ & _ & _ & E & _); exact E).
  destruct (rotate_volume_tolerated (CountPolicy keep) conn false vol w0)
    as (w1 & Hrot & _ & Hc & _).
  { apply only_in_use_no_fatal. intros id code. rewrite Hfault. apply Hfaults. }
  cbn [rotate_volume marked] in Hrot, Hc. rewrite Hm in Hc.
  exists c', w1, oldest. split; [exact Hrun|].
  split.
  { change (rotate_snapshots conn [vol] keep false (c_world c'))
      with (rotation (CountPolicy keep) conn [vol] false (c_world c')).
    rewrite rotation_eq, for_each_cons.
    change (rotate_volume (CountPolicy keep) conn false vol
                          (banner (CountPolicy keep) (c_world c')))
      with (rotate_snapshots_volume conn keep false vol w0).
    rewrite Hrot. reflexivity. }
  rewrite <- Hfetch. split; [exact Hin|]. split; [exact Hmin|].
  rewrite Hc. cbn [w0 banner record_log w_calls]. rewrite Hcalls. reflexivity.
Qed.

Lemma create_then_rotate_at_threshold_witness :
  0 <= 2 /\
  c_create_fault stocked_cloud "vol-2" = None /\
  Z.of_nat (List.length (fetched "vol-2" false (c_world stocked_cloud))) = 2 /\
  only_in_use_faults (c_world stocked_cloud) /\
  exists c' w' oldest,
    create_snapshots sample_conn ["vol-2"] false stocked_cloud = (Ok tt, c') /\
    rotate_snapshots sample_conn ["vol-2"] 2 false (c_world c') = (Ok tt, w') /\
    w_calls w' =
      w_calls (c_world stocked_cloud)
      ++ [DescribeSnapshots (volume_filters "vol-2" false); delete_call oldest].
Proof.
  assert (H : only_in_use_faults (c_world stocked_cloud))
    by (intros id code E; discriminate E).
  split; [lia|]. split; [reflexivity|]. split; [reflexivity|]. split; [exact H|].
  destruct (create_then_rotate_at_threshold sample_conn "vol-2" 2 stocked_cloud
              ltac:(lia) eq_refl eq_refl H)
    as (c' & w' & oldest & Hrun & Hrot & _ & _ & Hc).
  exists c', w', oldest. split; [exact Hrun|]. split; [exact Hrot | exact Hc].
Defined.
